(** * SQLAtomStorage: a shallow embedding of the SQL-backed atom store

    Source: [opencog/persist/sql/multi-driver/SQLAtomStorage.cc].

    The development follows the layout of the source file: the C library
    routines the code relies on, the value codec (encoders, decoders,
    [storeValue], [getValue], [deleteValue], valuations), the type map,
    the creation lock, and the atom store.  Definitions come first, the
    lemmas about them afterwards. *)

From Stdlib Require Import ZArith Lia List Bool Ascii String.
From stdpp Require Import base option list gmap.
Import ListNotations.

Local Open Scope string_scope.
Local Open Scope Z_scope.

Set Warnings "-register-all".
Set Warnings "-non-recursive".

(** ** C library routines used by the source *)

Module CLib.

(** [isdigit] and the value of a decimal digit. *)
Definition isdigit (c : ascii) : bool :=
  let n := nat_of_ascii c in (48 <=? n)%nat && (n <=? 57)%nat.

Definition digit_val (c : ascii) : Z := Z.of_nat (nat_of_ascii c) - 48.

Definition digit_char (d : Z) : ascii := ascii_of_nat (Z.to_nat (48 + d)).

(** The double-quote character. *)
Definition dquote : ascii := ascii_of_nat 34.

(** [isspace] in the "C" locale: space, \t, \n, \v, \f, \r. *)
Definition isspace (c : ascii) : bool :=
  let n := nat_of_ascii c in (n =? 32)%nat || ((9 <=? n)%nat && (n <=? 13)%nat).

(** [strchr p c]: the suffix of [p] starting at the first occurrence of
    [c], or NULL ([None]). *)
Fixpoint strchr (p : string) (c : ascii) : option string :=
  match p with
  | EmptyString => None
  | String a r => if Ascii.eqb a c then Some p else strchr r c
  end.

(** The part of [p] before its first [c] (the whole of [p] when there
    is none): what remains of the buffer at [p] once the source has
    written a NUL over the character [strchr] found. *)
Fixpoint before (p : string) (c : ascii) : string :=
  match p with
  | EmptyString => EmptyString
  | String a r => if Ascii.eqb a c then EmptyString else String a (before r c)
  end.

(** Decimal rendering of a non-negative integer, as [std::to_string]
    and [printf("%lu")] give it. *)
Fixpoint digits_fuel (fuel : nat) (n : Z) (acc : string) : string :=
  match fuel with
  | O => acc
  | S f =>
      let acc' := String (digit_char (n mod 10)) acc in
      if n <? 10 then acc' else digits_fuel f (n / 10) acc'
  end.

Definition to_string_u (n : Z) : string :=
  digits_fuel (S (Z.to_nat (Z.log2 n))) n EmptyString.

(** Signed rendering ([std::to_string(int)], [printf("%d")]). *)
Definition to_string_d (n : Z) : string :=
  if n <? 0 then String "-" (to_string_u (- n)) else to_string_u n.

(** The digit-accumulating loop shared by [strtol] and [strtoul]:
    returns the accumulated value and the unread rest. *)
Fixpoint scan_digits (s : string) (acc : Z) : Z * string :=
  match s with
  | String c r => if isdigit c then scan_digits r (10 * acc + digit_val c) else (acc, s)
  | EmptyString => (acc, EmptyString)
  end.

(** Whether a string is made of digits only, and the number that a
    string of digits denotes when read after [acc]. *)
Fixpoint all_digits (s : string) : bool :=
  match s with
  | EmptyString => true
  | String c r => isdigit c && all_digits r
  end.

Fixpoint digits_value (s : string) (acc : Z) : Z :=
  match s with
  | EmptyString => acc
  | String c r => digits_value r (10 * acc + digit_val c)
  end.

Fixpoint skip_space (s : string) : string :=
  match s with
  | String c r => if isspace c then skip_space r else s
  | EmptyString => EmptyString
  end.

(** Optional sign: [(negative?, rest)]. *)
Definition scan_sign (s : string) : bool * string :=
  match s with
  | String "-" r => (true, r)
  | String "+" r => (false, r)
  | _ => (false, s)
  end.

Definition LONG_MAX : Z := 2 ^ 63 - 1.
Definition LONG_MIN : Z := - 2 ^ 63.
Definition ULONG_MAX : Z := 2 ^ 64 - 1.

(** [strtol(s, &end, 10)] on an LP64 platform: leading white space, an
    optional sign, then digits; the result is clamped to the range of
    [long].  When there is no digit the end pointer is [s] itself. *)
Definition strtol (s : string) : Z * string :=
  let '(neg, r) := scan_sign (skip_space s) in
  match r with
  | String c _ =>
      if isdigit c then
        let '(v, rest) := scan_digits r 0 in
        let v' := if neg then - v else v in
        (Z.max LONG_MIN (Z.min LONG_MAX v'), rest)
      else (0, s)
  | EmptyString => (0, s)
  end.

(** [strtoul(s, &end, 10)]: as [strtol], but a magnitude beyond
    [ULONG_MAX] gives [ULONG_MAX] whatever the sign, and a minus
    sign negates a magnitude within the range modulo [2^64]. *)
Definition strtoul (s : string) : Z * string :=
  let '(neg, r) := scan_sign (skip_space s) in
  match r with
  | String c _ =>
      if isdigit c then
        let '(v, rest) := scan_digits r 0 in
        ((if ULONG_MAX <? v then ULONG_MAX
          else if neg then (- v) mod 2 ^ 64 else v), rest)
      else (0, s)
  | EmptyString => (0, s)
  end.

(** Reversal, concatenation with a separator, and padding. *)
Fixpoint string_rev (s : string) (acc : string) : string :=
  match s with
  | EmptyString => acc
  | String c r => string_rev r (String c acc)
  end.

Fixpoint string_map (f : ascii -> ascii) (s : string) : string :=
  match s with
  | EmptyString => EmptyString
  | String c r => String (f c) (string_map f r)
  end.

Fixpoint pad_left (n : nat) (s : string) : string :=
  match n with
  | O => s
  | S n' => String " " (pad_left n' s)
  end.

(** Right justification in a field of [width] characters, as
    [printf] does for a converted value shorter than the field. *)
Definition justify (width : nat) (s : string) : string :=
  pad_left (width - String.length s) s.

(** Conversion of an integer to [int] (32 bits, two's complement). *)
Definition to_int (v : Z) : Z := (v + 2 ^ 31) mod 2 ^ 32 - 2 ^ 31.

(** Conversion to [long] (64 bits), as [printf("%ld")] reads its argument. *)
Definition to_long (v : Z) : Z := (v + 2 ^ 63) mod 2 ^ 64 - 2 ^ 63.

(** Conversion to an unsigned 64-bit integer ([UUID], [VUID]). *)
Definition to_u64 (v : Z) : Z := v mod 2 ^ 64.

(** Conversion to [unsigned short] ([Type]). *)
Definition to_u16 (v : Z) : Z := v mod 2 ^ 16.

(** [atoi(s)], which the C library defines as [(int) strtol(s, NULL, 10)]. *)
Definition atoi (s : string) : Z := to_int (fst (strtol s)).

End CLib.

(** ** Double-precision numbers and their text forms

    A [double] is kept as what it denotes: a sign, and for a finite
    number a mantissa [m] and an exponent [e] with value
    [(-1)^neg * m * 2^e].  Canonical finite forms have
    [2^52 <= m < 2^53] and [-1074 <= e <= 971], or [m < 2^52] and
    [e = -1074] (subnormals and zero), so structural equality is
    equality of numbers (the two zeros apart).  Of a NaN the sign bit
    is kept, which [printf] shows; its payload is not. *)

Module Double.
Import CLib.

Inductive double : Type :=
| DNaN (neg : bool)
| DInf (neg : bool)
| DFin (neg : bool) (m : Z) (e : Z).

Definition double_eqb (a b : double) : bool :=
  match a, b with
  | DNaN s, DNaN t => Bool.eqb s t
  | DInf s, DInf t => Bool.eqb s t
  | DFin s m e, DFin t n f => Bool.eqb s t && (m =? n) && (e =? f)
  | _, _ => false
  end.

(** Division of [a] by [b > 0] rounded to the nearest integer, ties to
    the even one: the default rounding of the C library and of the FPU. *)
Definition round_half_even (a b : Z) : Z :=
  let q := a / b in
  let r := a mod b in
  if 2 * r <? b then q
  else if b <? 2 * r then q + 1
  else if Z.even q then q else q + 1.

(** The double nearest to [num / den] ([num >= 0], [den > 0]). *)
Definition round_to_double (neg : bool) (num den : Z) : double :=
  if num =? 0 then DFin neg 0 (-1074)
  else
    let l := Z.log2 num - Z.log2 den in
    let fl := if (if 0 <=? l then den * 2 ^ l <=? num else den <=? num * 2 ^ (- l))
              then l else l - 1 in
    let e := Z.max (fl - 52) (-1074) in
    let m := if 0 <=? e then round_half_even num (den * 2 ^ e)
             else round_half_even (num * 2 ^ (- e)) den in
    let '(m, e) := if m =? 2 ^ 53 then (2 ^ 52, e + 1) else (m, e) in
    if 971 <? e then DInf neg else DFin neg m e.

(** The double of an integer, and of a ratio of integers. *)
Definition of_ratio (num den : Z) : double :=
  round_to_double (num <? 0) (Z.abs num) den.

Definition of_Z (n : Z) : double := of_ratio n 1.

(** [w] decimal digits of [k], most significant first, zero padded. *)
Fixpoint fixed_digits (w : nat) (k : Z) : string :=
  match w with
  | O => EmptyString
  | S w' => fixed_digits w' (k / 10) ++ String (digit_char (k mod 10)) EmptyString
  end.

(** The number of millionths nearest to the magnitude of a finite
    double: what ["%f"] prints, without the radix character. *)
Definition millionths (m e : Z) : Z :=
  if 0 <=? e then m * 2 ^ e * 10 ^ 6
  else round_half_even (m * 10 ^ 6) (2 ^ (- e)).

Definition sign_prefix (neg : bool) : string :=
  if neg then "-" else EmptyString.

(** [std::to_string(double)], which the C++ standard defines as the
    output of [sprintf(buf, "%f", v)]: fixed notation with six digits
    after the radix character of the current locale ([radix] is
    [localeconv()->decimal_point], "." in the "C" locale).  An
    infinity is printed as [inf] and a NaN as [nan], each after a
    minus sign when the sign bit is set. *)
Definition to_string (radix : ascii) (v : double) : string :=
  match v with
  | DNaN neg => sign_prefix neg ++ "nan"
  | DInf neg => sign_prefix neg ++ "inf"
  | DFin neg m e =>
      let n := millionths m e in
      sign_prefix neg ++ to_string_u (n / 10 ^ 6)
        ++ String radix (fixed_digits 6 (n mod 10 ^ 6))
  end.

(** *** [printf("%g")] *)

(** [10^k <= num/den], for any integer [k]. *)
Definition pow10_le (k : Z) (num den : Z) : bool :=
  if 0 <=? k then 10 ^ k * den <=? num else den <=? num * 10 ^ (- k).

Fixpoint adjust_up (fuel : nat) (x : Z) (num den : Z) : Z :=
  match fuel with
  | O => x
  | S f => if pow10_le (x + 1) num den then adjust_up f (x + 1) num den else x
  end.

Fixpoint adjust_down (fuel : nat) (x : Z) (num den : Z) : Z :=
  match fuel with
  | O => x
  | S f => if pow10_le x num den then x else adjust_down f (x - 1) num den
  end.

(** The decimal exponent of [num/den > 0]: the [x] with
    [10^x <= num/den < 10^(x+1)]. *)
Definition decimal_exponent (num den : Z) : Z :=
  let est := ((Z.log2 num - Z.log2 den) * 30103) / 100000 in
  adjust_down 4 (adjust_up 4 est num den) num den.

(** [num/den * 10^k] rounded to the nearest integer. *)
Definition scaled_round (num den k : Z) : Z :=
  if 0 <=? k then round_half_even (num * 10 ^ k) den
  else round_half_even num (den * 10 ^ (- k)).

Fixpoint drop_zeros (r : string) : string :=
  match r with
  | String "0" r' => drop_zeros r'
  | _ => r
  end.

(** Removal of the trailing zeros of a fraction. *)
Definition strip_zeros (frac : string) : string :=
  string_rev (drop_zeros (string_rev frac EmptyString)) EmptyString.

Definition with_fraction (radix : ascii) (int_part frac : string) : string :=
  match strip_zeros frac with
  | EmptyString => int_part
  | f => int_part ++ String radix f
  end.

(** The body of a ["%g"] conversion with precision [prec >= 1] of the
    magnitude [m * 2^e]. *)
Definition g_body (radix : ascii) (prec : Z) (m e : Z) : string :=
  if m =? 0 then "0"
  else
    let num := if 0 <=? e then m * 2 ^ e else m in
    let den := if 0 <=? e then 1 else 2 ^ (- e) in
    let x0 := decimal_exponent num den in
    let d0 := scaled_round num den (prec - 1 - x0) in
    let '(d, x) := if d0 =? 10 ^ prec then (10 ^ (prec - 1), x0 + 1) else (d0, x0) in
    if (-4 <=? x) && (x <? prec) then
      let q := prec - 1 - x in
      with_fraction radix (to_string_u (d / 10 ^ q))
                    (fixed_digits (Z.to_nat q) (d mod 10 ^ q))
    else
      let q := prec - 1 in
      with_fraction radix (to_string_u (d / 10 ^ q))
                    (fixed_digits (Z.to_nat q) (d mod 10 ^ q))
        ++ String "e" (String (if x <? 0 then "-" else "+")
             (if Z.abs x <? 10 then String "0" (to_string_u (Z.abs x))
              else to_string_u (Z.abs x))).

(** [snprintf(buff, BUFSZ, "%12.8g", v)] of the [STMTF] macro. *)
Definition fmt_g (radix : ascii) (width : nat) (prec : Z) (v : double) : string :=
  justify width
    match v with
    | DNaN neg => sign_prefix neg ++ "nan"
    | DInf neg => sign_prefix neg ++ "inf"
    | DFin neg m e => sign_prefix neg ++ g_body radix prec m e
    end.

(** What the spec words as "locale-independent formatting (12
    significant digits)": the conversion ["%.12g"] in the "C" locale. *)
Definition twelve_significant_digits (v : double) : string :=
  fmt_g "." 0 12 v.

(** *** [strtod] *)

(** Digits of a numeral: the value read, how many digits, the rest. *)
Fixpoint scan_frac (s : string) (acc : Z) (k : Z) : Z * Z * string :=
  match s with
  | String c r =>
      if isdigit c then scan_frac r (10 * acc + digit_val c) (k + 1)
      else (acc, k, s)
  | EmptyString => (acc, k, EmptyString)
  end.

Definition lower (c : ascii) : ascii :=
  let n := nat_of_ascii c in
  if (65 <=? n)%nat && (n <=? 90)%nat then ascii_of_nat (n + 32) else c.

(** Case-insensitive prefix test; returns the rest after the prefix. *)
Fixpoint strip_prefix_ci (pre s : string) : option string :=
  match pre, s with
  | EmptyString, _ => Some s
  | String a p', String b s' =>
      if Ascii.eqb a (lower b) then strip_prefix_ci p' s' else None
  | String _ _, EmptyString => None
  end.

(** The optional exponent part: [e], an optional sign, at least one
    digit.  Without a digit nothing is consumed. *)
Definition scan_exponent (s : string) : Z * string :=
  match s with
  | String c r =>
      if Ascii.eqb (lower c) "e" then
        let '(neg, r') := scan_sign r in
        match r' with
        | String d _ =>
            if isdigit d then
              let '(x, rest) := scan_digits r' 0 in
              ((if neg then - x else x), rest)
            else (0, s)
        | EmptyString => (0, s)
        end
      else (0, s)
  | EmptyString => (0, s)
  end.

(** The optional [(n-char-sequence)] after [nan]: letters, digits
    and underscores between parentheses.  Without the closing
    parenthesis nothing is consumed. *)
Definition is_nchar (c : ascii) : bool :=
  let n := nat_of_ascii (lower c) in
  isdigit c || ((97 <=? n)%nat && (n <=? 122)%nat) || Ascii.eqb c "_".

Fixpoint skip_nchars (s : string) : string :=
  match s with
  | String c r => if is_nchar c then skip_nchars r else s
  | EmptyString => EmptyString
  end.

Definition skip_nan_payload (s : string) : string :=
  match s with
  | String "(" r =>
      match skip_nchars r with
      | String ")" rest => rest
      | _ => s
      end
  | _ => s
  end.

(** *** Hexadecimal numerals *)

Definition hex_val (c : ascii) : option Z :=
  let n := nat_of_ascii (lower c) in
  if isdigit c then Some (digit_val c)
  else if (97 <=? n)%nat && (n <=? 102)%nat then Some (Z.of_nat n - 87)
  else None.

(** Hexadecimal digits: the value read, how many digits, the rest. *)
Fixpoint scan_hex (s : string) (acc : Z) (k : Z) : Z * Z * string :=
  match s with
  | String c r =>
      match hex_val c with
      | Some d => scan_hex r (16 * acc + d) (k + 1)
      | None => (acc, k, s)
      end
  | EmptyString => (acc, k, EmptyString)
  end.

(** The optional binary exponent: [p], an optional sign, at least
    one decimal digit. *)
Definition scan_binary_exponent (s : string) : Z * string :=
  match s with
  | String c r =>
      if Ascii.eqb (lower c) "p" then
        let '(neg, r') := scan_sign r in
        match r' with
        | String d _ =>
            if isdigit d then
              let '(x, rest) := scan_digits r' 0 in
              ((if neg then - x else x), rest)
            else (0, s)
        | EmptyString => (0, s)
        end
      else (0, s)
  | EmptyString => (0, s)
  end.

(** The numeral after [0x]: hexadecimal digits with an optional
    radix character among them, at least one digit, and an optional
    binary exponent.  [None] when no digit follows. *)
Definition strtod_hex (radix : ascii) (neg : bool) (r : string) : option (double * string) :=
  let '(ip, ik, r1) := scan_hex r 0 0 in
  let '(fp, fk, r2) :=
    match r1 with
    | String c r1' =>
        if Ascii.eqb c radix then
          let '(v, k, r') := scan_hex r1' ip 0 in
          if (ik =? 0) && (k =? 0) then (ip, 0, r1) else (v, k, r')
        else (ip, 0, r1)
    | EmptyString => (ip, 0, r1)
    end in
  if (ik =? 0) && (fk =? 0) then None
  else
    let '(x, r3) := scan_binary_exponent r2 in
    let p := x - 4 * fk in
    Some (if 0 <=? p then round_to_double neg (fp * 2 ^ p) 1
          else round_to_double neg fp (2 ^ (- p)), r3).

(** [strtod(s, &end)]: decimal and hexadecimal numerals, infinities
    and NaN; the value, correctly rounded, and the unread rest.
    When no numeral is found the value is zero and the rest is
    [s].  A [0x] that no hexadecimal digit follows is the numeral
    [0], and the rest starts at the [x]. *)
Definition strtod (radix : ascii) (s : string) : double * string :=
  let '(neg, r) := scan_sign (skip_space s) in
  match strip_prefix_ci "infinity" r with
  | Some rest => (DInf neg, rest)
  | None =>
  match strip_prefix_ci "inf" r with
  | Some rest => (DInf neg, rest)
  | None =>
  match strip_prefix_ci "nan" r with
  | Some rest => (DNaN neg, skip_nan_payload rest)
  | None =>
  match match strip_prefix_ci "0x" r with
        | Some rest => strtod_hex radix neg rest
        | None => None
        end with
  | Some result => result
  | None =>
      let '(ip, ik, r1) := scan_frac r 0 0 in
      let '(fp, fk, r2) :=
        match r1 with
        | String c r1' =>
            if Ascii.eqb c radix then
              let '(v, k, r') := scan_frac r1' ip 0 in
              if (ik =? 0) && (k =? 0) then (ip, 0, r1) else (v, k, r')
            else (ip, 0, r1)
        | EmptyString => (ip, 0, r1)
        end in
      if (ik =? 0) && (fk =? 0) then (DFin false 0 (-1074), s)
      else
        let '(x, r3) := scan_exponent r2 in
        let p := x - fk in
        let d := if 0 <=? p then round_to_double neg (fp * 10 ^ p) 1
                 else round_to_double neg fp (10 ^ (- p)) in
        (d, r3)
  end end end end.

(** [atof(s)], which is [strtod(s, NULL)] and so reads the radix
    character of the current locale. *)
Definition atof (radix : ascii) (s : string) : double := fst (strtod radix s).

End Double.

(** ** The database server behind the driver

    Modelled from the spec: the SQL drivers ([llapi.h], [ll-pg-cxx.h],
    [odbcxx.h]) and the server are not under src/.  The model follows
    the schema of the five relations and the array-literal text format
    ("[{e1,e2,...}] with elements separated by commas, string elements
    in double quotes with embedded quotes escaped"), with PostgreSQL's
    reading of the literals the code sends.  Outside the model, and
    rejected by it: nested braces inside an array literal, NULL
    elements of a numeric array, text after the closing quote of a
    string literal, and an INSERT that leaves out a column the code
    always supplies.  A [float8] value is kept as the numeral received,
    which denotes the same double as the server's own rendering of it;
    the client only ever passes it to [strtod]. *)

Module Pg.
Import CLib.

(** A statement as the code composes it: the column/value pairs that
    the [STMT] macro accumulates, or the arguments of a [snprintf]. *)
Inductive Stmt : Type :=
| Insert (table : string) (cols : list (string * string))
| UpdateAtoms (cols : list (string * string)) (uuid : string)
| SelectValues (vuid : Z)
| SelectValuations (key atom : Z)
| SelectValuationsOf (atom : Z)
| DeleteValues (vuid : Z)
| DeleteValuations (key atom : Z)
| SelectTypeCodes
| SelectAtomByUuid (uuid : Z)
| SelectAtomByName (type : Z) (name : string)
| SelectAtomByOutgoing (type : Z) (outgoing : string)
| SelectAtomUuidsBetween (lo hi : Z)
| SelectMaxAtomUuid
| SelectSpaces
| Begin
| Commit
| SelectMaxValueVuid
| SelectMaxAtomHeight
| DeleteFrom (table : string)
| InsertRow (table : string) (values : list string)
| CreateTable (table : string) (columns : list string)
| CreateIndex (table : string) (column : string).

(** A row of a record set: column names with their values as text;
    a record set; [None] is the NULL record set of a failed [exec]. *)
Definition Row : Type := list (string * string).
Definition RecordSet : Type := list Row.

(** *** Reading literals *)

Definition in_range (lo hi : Z) (v : Z) : bool := (lo <=? v) && (v <=? hi).

(** A whole-token signed decimal integer ([int2in], [int8in]). *)
Definition sql_int (tok : string) : option Z :=
  let '(neg, r) := scan_sign (skip_space tok) in
  match r with
  | String c _ =>
      if isdigit c then
        let '(v, rest) := scan_digits r 0 in
        match skip_space rest with
        | EmptyString => Some (if neg then - v else v)
        | _ => None
        end
      else None
  | EmptyString => None
  end.

Definition sql_smallint (tok : string) : option Z :=
  match sql_int tok with
  | Some v => if in_range (- 2 ^ 15) (2 ^ 15 - 1) v then Some v else None
  | None => None
  end.

Definition sql_bigint (tok : string) : option Z :=
  match sql_int tok with
  | Some v => if in_range (- 2 ^ 63) (2 ^ 63 - 1) v then Some v else None
  | None => None
  end.

Definition trim (s : string) : string :=
  string_rev (skip_space (string_rev (skip_space s) EmptyString)) EmptyString.

Definition is_inf_token (tok : string) : bool :=
  match Double.strip_prefix_ci "inf" (snd (scan_sign (skip_space tok))) with
  | Some _ => true
  | None => false
  end.

(** A whole-token [float8] numeral, kept as text without the
    surrounding white space.  The server reads numerals in the "C"
    locale and rejects a finite numeral that overflows. *)
Definition sql_float8 (tok : string) : option string :=
  let t := trim tok in
  let '(d, rest) := Double.strtod "." t in
  match rest, t with
  | EmptyString, String _ _ =>
      match d with
      | Double.DInf _ => if is_inf_token t then Some t else None
      | _ => Some t
      end
  | _, _ => None
  end.

(** The body of a quoted SQL string literal: a doubled apostrophe
    stands for one, a single one must end the literal. *)
Fixpoint sql_quoted_body (s : string) : option string :=
  match s with
  | EmptyString => None
  | String "'" EmptyString => Some EmptyString
  | String "'" (String "'" r) =>
      match sql_quoted_body r with
      | Some b => Some (String "'" b)
      | None => None
      end
  | String "'" _ => None
  | String c r =>
      match sql_quoted_body r with
      | Some b => Some (String c b)
      | None => None
      end
  end.

Definition sql_string_literal (lit : string) : option string :=
  match lit with
  | String "'" r => sql_quoted_body r
  | _ => None
  end.

(** A dollar-quoted literal with the tag [$ocp$]: the body runs up to
    the first closing tag, after which only white space may follow. *)
Fixpoint dollar_body (s : string) : option string :=
  if String.prefix "$ocp$" s
  then match skip_space (String.substring 5 (String.length s - 5) s) with
       | EmptyString => Some EmptyString
       | _ => None
       end
  else match s with
       | EmptyString => None
       | String c r =>
           match dollar_body r with
           | Some b => Some (String c b)
           | None => None
           end
       end.

Definition sql_dollar_literal (lit : string) : option string :=
  let s := skip_space lit in
  if String.prefix "$ocp$" s
  then dollar_body (String.substring 5 (String.length s - 5) s)
  else None.

(** *** Array literals *)

(** The scanner of an array literal: where it is in the text. *)
Inductive AState : Type :=
| AStart
| AElem (first : bool)
| ABare (acc : list (ascii * bool))
| ABareEsc (acc : list (ascii * bool))
| AQuoted (acc : list ascii)
| AQuotedEsc (acc : list ascii)
| AAfter
| AClosed.

Definition is_c (c d : ascii) : bool := Ascii.eqb c d.

Fixpoint drop_bare_space (acc : list (ascii * bool)) : list (ascii * bool) :=
  match acc with
  | (c, false) :: acc' => if isspace c then drop_bare_space acc' else acc
  | _ => acc
  end.

Definition string_ci_eqb (a b : string) : bool :=
  String.eqb (string_map Double.lower a) (string_map Double.lower b).

(** The element read without quotes: trailing white space that was
    not escaped is dropped, and the bare word NULL is the null
    element.  [acc] holds the characters read, last first, each with
    whether a backslash preceded it. *)
Definition finish_bare (acc : list (ascii * bool)) : option (option string) :=
  match drop_bare_space acc with
  | [] => None
  | acc' =>
      let text := string_of_list_ascii (List.rev (List.map fst acc')) in
      if forallb (fun p => negb (snd p)) acc' && string_ci_eqb text "null"
      then Some None
      else Some (Some text)
  end.

Fixpoint array_scan (s : string) (q : AState) (out : list (option string))
  : option (list (option string)) :=
  match s with
  | EmptyString =>
      match q with
      | AClosed => Some (List.rev out)
      | _ => None
      end
  | String c r =>
      match q with
      | AStart =>
          if isspace c then array_scan r AStart out
          else if is_c c "{" then array_scan r (AElem true) out
          else None
      | AElem first =>
          if isspace c then array_scan r q out
          else if is_c c "}" then (if first then array_scan r AClosed out else None)
          else if is_c c dquote then array_scan r (AQuoted []) out
          else if is_c c "," || is_c c "{" then None
          else if is_c c "\" then array_scan r (ABareEsc []) out
          else array_scan r (ABare [(c, false)]) out
      | ABare acc =>
          if is_c c "," then
            match finish_bare acc with
            | Some e => array_scan r (AElem false) (e :: out)
            | None => None
            end
          else if is_c c "}" then
            match finish_bare acc with
            | Some e => array_scan r AClosed (e :: out)
            | None => None
            end
          else if is_c c dquote || is_c c "{" then None
          else if is_c c "\" then array_scan r (ABareEsc acc) out
          else array_scan r (ABare ((c, false) :: acc)) out
      | ABareEsc acc => array_scan r (ABare ((c, true) :: acc)) out
      | AQuoted acc =>
          if is_c c dquote then
            array_scan r AAfter (Some (string_of_list_ascii (List.rev acc)) :: out)
          else if is_c c "\" then array_scan r (AQuotedEsc acc) out
          else array_scan r (AQuoted (c :: acc)) out
      | AQuotedEsc acc => array_scan r (AQuoted (c :: acc)) out
      | AAfter =>
          if isspace c then array_scan r AAfter out
          else if is_c c "," then array_scan r (AElem false) out
          else if is_c c "}" then array_scan r AClosed out
          else None
      | AClosed => if isspace c then array_scan r AClosed out else None
      end
  end.

(** The elements of a quoted array literal ['{...}']. *)
Definition array_in (lit : string) : option (list (option string)) :=
  match sql_string_literal lit with
  | Some body => array_scan body AStart []
  | None => None
  end.

Fixpoint all_some {A B : Type} (f : A -> option B) (l : list A) : option (list B) :=
  match l with
  | [] => Some []
  | x :: l' =>
      match f x, all_some f l' with
      | Some y, Some ys => Some (y :: ys)
      | _, _ => None
      end
  end.

Definition on_some {A B : Type} (f : A -> option B) (o : option A) : option B :=
  match o with
  | Some a => f a
  | None => None
  end.

Definition text_array_in (lit : string) : option (list (option string)) :=
  array_in lit.

Definition bigint_array_in (lit : string) : option (list Z) :=
  on_some (all_some (on_some sql_bigint)) (array_in lit).

Definition float8_array_in (lit : string) : option (list string) :=
  on_some (all_some (on_some sql_float8)) (array_in lit).

(** *** Writing arrays *)

Fixpoint join (sep : string) (l : list string) : string :=
  match l with
  | [] => EmptyString
  | [x] => x
  | x :: l' => x ++ sep ++ join sep l'
  end.

Definition array_special (c : ascii) : bool :=
  is_c c dquote || is_c c "\" || is_c c "{" || is_c c "}" || is_c c "," || isspace c.

Fixpoint string_existsb (f : ascii -> bool) (s : string) : bool :=
  match s with
  | EmptyString => false
  | String c r => f c || string_existsb f r
  end.

Definition needs_quote (e : string) : bool :=
  match e with
  | EmptyString => true
  | _ => string_ci_eqb e "null" || string_existsb array_special e
  end.

Fixpoint escape_quoted (e : string) : string :=
  match e with
  | EmptyString => EmptyString
  | String c r =>
      if is_c c dquote || is_c c "\" then String "\" (String c (escape_quoted r))
      else String c (escape_quoted r)
  end.

Definition text_elem_out (e : option string) : string :=
  match e with
  | None => "NULL"
  | Some s =>
      if needs_quote s then String dquote (escape_quoted s ++ String dquote EmptyString)
      else s
  end.

Definition braces (body : string) : string := String "{" (body ++ "}").

Definition text_array_out (l : list (option string)) : string :=
  braces (join "," (List.map text_elem_out l)).

Definition bigint_array_out (l : list Z) : string :=
  braces (join "," (List.map to_string_d l)).

Definition float8_array_out (l : list string) : string :=
  braces (join "," l).

(** The text of a column that may be NULL: the driver hands the
    client an empty string for a NULL column. *)
Definition column_out {A : Type} (f : A -> string) (o : option A) : string :=
  match o with
  | Some a => f a
  | None => EmptyString
  end.

(** *** The five relations *)

(** [Values] and [Valuations] share their three value columns. *)
Record ValueRow : Type := {
  vr_type : Z;
  vr_float : option (list string);
  vr_string : option (list (option string));
  vr_link : option (list Z)
}.

Record AtomRow : Type := {
  ar_space : Z;
  ar_type : Z;
  ar_tv_type : Z;
  ar_mean : option string;
  ar_confidence : option string;
  ar_count : option string;
  ar_height : Z;
  ar_name : option string;
  ar_outgoing : option (list Z)
}.

(** The rows of the five relations, and the tables that exist with
    the names their columns were given when they were created.  The
    columns of a table are those that the statements of the storage
    class read and write, in the order of [create_tables], under
    whatever names the CREATE TABLE statement gave them. *)
Record DB : Type := {
  Spaces : gmap Z Z;
  Atoms : gmap Z AtomRow;
  Valuations : gmap (Z * Z) ValueRow;
  Values : gmap Z ValueRow;
  TypeCodes : list (Z * string);
  Columns : list (string * list string)
}.

Definition set_Spaces (f : gmap Z Z -> gmap Z Z) (d : DB) : DB :=
  {| Spaces := f (Spaces d); Atoms := Atoms d; Valuations := Valuations d;
     Values := Values d; TypeCodes := TypeCodes d; Columns := Columns d |}.
Definition set_Atoms (f : gmap Z AtomRow -> gmap Z AtomRow) (d : DB) : DB :=
  {| Spaces := Spaces d; Atoms := f (Atoms d); Valuations := Valuations d;
     Values := Values d; TypeCodes := TypeCodes d; Columns := Columns d |}.
Definition set_Valuations
    (f : gmap (Z * Z) ValueRow -> gmap (Z * Z) ValueRow) (d : DB) : DB :=
  {| Spaces := Spaces d; Atoms := Atoms d; Valuations := f (Valuations d);
     Values := Values d; TypeCodes := TypeCodes d; Columns := Columns d |}.
Definition set_Values (f : gmap Z ValueRow -> gmap Z ValueRow) (d : DB) : DB :=
  {| Spaces := Spaces d; Atoms := Atoms d; Valuations := Valuations d;
     Values := f (Values d); TypeCodes := TypeCodes d; Columns := Columns d |}.
Definition set_TypeCodes (f : list (Z * string) -> list (Z * string)) (d : DB) : DB :=
  {| Spaces := Spaces d; Atoms := Atoms d; Valuations := Valuations d;
     Values := Values d; TypeCodes := f (TypeCodes d);
     Columns := Columns d |}.

Definition set_Columns
    (f : list (string * list string) -> list (string * list string)) (d : DB) : DB :=
  {| Spaces := Spaces d; Atoms := Atoms d; Valuations := Valuations d;
     Values := Values d; TypeCodes := TypeCodes d; Columns := f (Columns d) |}.

Definition value_columns : list string :=
  ["type"; "floatvalue"; "stringvalue"; "linkvalue"].

Definition atom_columns : list string :=
  ["uuid"; "space"; "type"; "tv_type"; "stv_mean"; "stv_confidence";
   "stv_count"; "height"; "name"; "outgoing"].

(** The names under which the statements of the storage class read
    and write the columns ([do_store_single_atom],
    [create_atom_column_cb], [storeValue], [get_value_column_cb],
    [setup_typemap], [store_atomtable_id]). *)
Definition canonical (table : string) : option (list string) :=
  if String.eqb table "Spaces" then Some ["space"; "parent"]
  else if String.eqb table "Atoms" then Some atom_columns
  else if String.eqb table "Valuations" then Some ("key" :: "atom" :: value_columns)
  else if String.eqb table "Values" then Some ("vuid" :: value_columns)
  else if String.eqb table "TypeCodes" then Some ["type"; "typename"]
  else None.

Definition standard_columns : list (string * list string) :=
  [("Spaces", ["space"; "parent"]);
   ("Atoms", atom_columns);
   ("Valuations", "key" :: "atom" :: value_columns);
   ("Values", "vuid" :: value_columns);
   ("TypeCodes", ["type"; "typename"])].

(** The five tables under these names, with the two root spaces
    and no other row. *)
Definition empty_db : DB :=
  {| Spaces := {[ 0 := 0; 1 := 1 ]}; Atoms := ∅; Valuations := ∅;
     Values := ∅; TypeCodes := []; Columns := standard_columns |}.

(** A database without tables. *)
Definition blank_db : DB :=
  {| Spaces := ∅; Atoms := ∅; Valuations := ∅;
     Values := ∅; TypeCodes := []; Columns := [] |}.

(** *** Column lists *)

Fixpoint assoc (k : string) (l : list (string * string)) : option string :=
  match l with
  | [] => None
  | (k', v) :: l' => if String.eqb k k' then Some v else assoc k l'
  end.

Definition known_columns (names : list string) (cols : list (string * string)) : bool :=
  forallb (fun p => existsb (String.eqb (fst p)) names) cols.

(** An optional column: absent is NULL, present must read. *)
Definition opt_col {A : Type} (k : string) (cols : list (string * string))
    (read : string -> option A) : option (option A) :=
  match assoc k cols with
  | None => Some None
  | Some v =>
      match read v with
      | Some a => Some (Some a)
      | None => None
      end
  end.

Definition req_col {A : Type} (k : string) (cols : list (string * string))
    (read : string -> option A) : option A :=
  on_some read (assoc k cols).

Definition read_value_row (cols : list (string * string)) : option ValueRow :=
  match req_col "type" cols sql_smallint,
        opt_col "floatvalue" cols float8_array_in,
        opt_col "stringvalue" cols text_array_in,
        opt_col "linkvalue" cols bigint_array_in with
  | Some t, Some f, Some s, Some l =>
      Some {| vr_type := t; vr_float := f; vr_string := s; vr_link := l |}
  | _, _, _, _ => None
  end.

Definition value_row_out (r : ValueRow) : Row :=
  [ ("type", to_string_d (vr_type r));
    ("floatvalue", column_out float8_array_out (vr_float r));
    ("stringvalue", column_out text_array_out (vr_string r));
    ("linkvalue", column_out bigint_array_out (vr_link r)) ].

Definition read_atom_row (cols : list (string * string)) : option AtomRow :=
  match req_col "space" cols sql_bigint,
        req_col "type" cols sql_smallint,
        req_col "tv_type" cols sql_smallint,
        opt_col "stv_mean" cols sql_float8,
        opt_col "stv_confidence" cols sql_float8,
        opt_col "stv_count" cols sql_float8 with
  | Some sp, Some t, Some tvt, Some m, Some c, Some n =>
      match req_col "height" cols sql_smallint,
            opt_col "name" cols sql_dollar_literal,
            opt_col "outgoing" cols bigint_array_in with
      | Some h, Some nm, Some og =>
          Some {| ar_space := sp; ar_type := t; ar_tv_type := tvt; ar_mean := m;
                  ar_confidence := c; ar_count := n; ar_height := h;
                  ar_name := nm; ar_outgoing := og |}
      | _, _, _ => None
      end
  | _, _, _, _, _, _ => None
  end.

Definition atom_row_out (uuid : Z) (r : AtomRow) : Row :=
  [ ("uuid", to_string_d uuid);
    ("space", to_string_d (ar_space r));
    ("type", to_string_d (ar_type r));
    ("tv_type", to_string_d (ar_tv_type r));
    ("stv_mean", column_out id (ar_mean r));
    ("stv_confidence", column_out id (ar_confidence r));
    ("stv_count", column_out id (ar_count r));
    ("height", to_string_d (ar_height r));
    ("name", column_out id (ar_name r));
    ("outgoing", column_out bigint_array_out (ar_outgoing r)) ].

(** The UNIQUE(type, name) and UNIQUE(type, outgoing) constraints. *)
Definition same_name (r r' : AtomRow) : bool :=
  match ar_name r, ar_name r' with
  | Some n, Some n' => (ar_type r =? ar_type r') && String.eqb n n'
  | _, _ => false
  end.

Definition same_outgoing (r r' : AtomRow) : bool :=
  match ar_outgoing r, ar_outgoing r' with
  | Some o, Some o' =>
      (ar_type r =? ar_type r') && bool_decide (o = o')
  | _, _ => false
  end.

Definition atom_conflict (atoms : gmap Z AtomRow) (r : AtomRow) : bool :=
  existsb (fun p => same_name r (snd p) || same_outgoing r (snd p))
          (map_to_list atoms).

(** The TV columns an UPDATE may set. *)
Definition update_atom_row (cols : list (string * string)) (r : AtomRow)
  : option AtomRow :=
  match opt_col "tv_type" cols sql_smallint,
        opt_col "stv_mean" cols sql_float8,
        opt_col "stv_confidence" cols sql_float8,
        opt_col "stv_count" cols sql_float8 with
  | Some tvt, Some m, Some c, Some n =>
      Some {| ar_space := ar_space r; ar_type := ar_type r;
              ar_tv_type := default (ar_tv_type r) tvt;
              ar_mean := from_option Some (ar_mean r) m;
              ar_confidence := from_option Some (ar_confidence r) c;
              ar_count := from_option Some (ar_count r) n;
              ar_height := ar_height r; ar_name := ar_name r;
              ar_outgoing := ar_outgoing r |}
  | _, _, _, _ => None
  end.

Definition tv_columns : list string :=
  ["tv_type"; "stv_mean"; "stv_confidence"; "stv_count"].

(** *** Executing a statement

    The result is the record set, or [None] when the server rejects
    the statement, and the tables afterwards. *)

Definition insert_into (table : string) (cols : list (string * string)) (d : DB)
  : option RecordSet * DB :=
  if String.eqb table "Values" then
    match req_col "vuid" cols sql_bigint, read_value_row cols with
    | Some u, Some r =>
        if known_columns ("vuid" :: value_columns) cols
           && bool_decide (Values d !! u = None)
        then (Some [], set_Values (insert u r) d)
        else (None, d)
    | _, _ => (None, d)
    end
  else if String.eqb table "Valuations" then
    match req_col "key" cols sql_bigint, req_col "atom" cols sql_bigint,
          read_value_row cols with
    | Some k, Some a, Some r =>
        if known_columns ("key" :: "atom" :: value_columns) cols
           && bool_decide (Valuations d !! (k, a) = None)
           && bool_decide (is_Some (Atoms d !! k))
           && bool_decide (is_Some (Atoms d !! a))
        then (Some [], set_Valuations (insert (k, a) r) d)
        else (None, d)
    | _, _, _ => (None, d)
    end
  else if String.eqb table "Atoms" then
    match req_col "uuid" cols sql_bigint, read_atom_row cols with
    | Some u, Some r =>
        if known_columns atom_columns cols
           && bool_decide (Atoms d !! u = None)
           && bool_decide (is_Some (Spaces d !! ar_space r))
           && negb (atom_conflict (Atoms d) r)
        then (Some [], set_Atoms (insert u r) d)
        else (None, d)
    | _, _ => (None, d)
    end
  else if String.eqb table "Spaces" then
    match req_col "space" cols sql_bigint, opt_col "parent" cols sql_bigint with
    | Some s, Some p =>
        if known_columns ["space"; "parent"] cols
           && bool_decide (Spaces d !! s = None)
        then (Some [], set_Spaces (insert s (default 0 p)) d)
        else (None, d)
    | _, _ => (None, d)
    end
  else if String.eqb table "TypeCodes" then
    match req_col "type" cols sql_smallint,
          req_col "typename" cols sql_string_literal with
    | Some t, Some n =>
        if known_columns ["type"; "typename"] cols
           && forallb (fun p => negb (fst p =? t) && negb (String.eqb (snd p) n))
                      (TypeCodes d)
        then (Some [], set_TypeCodes (fun l => (l ++ [(t, n)])%list) d)
        else (None, d)
    | _, _ => (None, d)
    end
  else (None, d).

Definition select_atoms (f : Z -> AtomRow -> bool) (d : DB) : RecordSet :=
  List.map (fun p => atom_row_out (fst p) (snd p))
           (List.filter (fun p => f (fst p) (snd p)) (map_to_list (Atoms d))).

Definition max_of (l : list Z) : option Z :=
  match l with
  | [] => None
  | x :: l' => Some (fold_left Z.max l' x)
  end.

(** DELETE of every row of a table; the rows that other tables
    refer to stay, and the statement fails. *)
Definition delete_from (table : string) (d : DB) : option RecordSet * DB :=
  if String.eqb table "Valuations" then (Some [], set_Valuations (fun _ => ∅) d)
  else if String.eqb table "Values" then (Some [], set_Values (fun _ => ∅) d)
  else if String.eqb table "Atoms" then
    if forallb (fun p => bool_decide (Atoms d !! fst (fst p) = None)
                         && bool_decide (Atoms d !! snd (fst p) = None))
               (map_to_list (Valuations d))
    then (Some [], set_Atoms (fun _ => ∅) d)
    else (None, d)
  else if String.eqb table "Spaces" then
    if forallb (fun p => bool_decide (Spaces d !! ar_space (snd p) = None))
               (map_to_list (Atoms d))
    then (Some [], set_Spaces (fun _ => ∅) d)
    else (None, d)
  else if String.eqb table "TypeCodes" then (Some [], set_TypeCodes (fun _ => []) d)
  else (None, d).

(** A statement on tables whose columns have the names that the
    statements use. *)
Definition exec_std (q : Stmt) (d : DB) : option RecordSet * DB :=
  match q with
  | Insert table cols => insert_into table cols d
  | UpdateAtoms cols uuid =>
      match sql_bigint uuid with
      | Some u =>
          if known_columns tv_columns cols then
            match Atoms d !! u with
            | Some r =>
                match update_atom_row cols r with
                | Some r' => (Some [], set_Atoms (insert u r') d)
                | None => (None, d)
                end
            | None =>
                match update_atom_row cols
                        {| ar_space := 0; ar_type := 0; ar_tv_type := 0;
                           ar_mean := None; ar_confidence := None; ar_count := None;
                           ar_height := 0; ar_name := None; ar_outgoing := None |} with
                | Some _ => (Some [], d)
                | None => (None, d)
                end
            end
          else (None, d)
      | None => (None, d)
      end
  | SelectValues u =>
      (Some match Values d !! u with
            | Some r => [("vuid", to_string_d u) :: value_row_out r]
            | None => []
            end, d)
  | SelectValuations k a =>
      (Some match Valuations d !! (k, a) with
            | Some r => [("key", to_string_d k) :: ("atom", to_string_d a)
                           :: value_row_out r]
            | None => []
            end, d)
  | SelectValuationsOf a =>
      (Some (List.map (fun p => ("key", to_string_d (fst (fst p)))
                                  :: ("atom", to_string_d a) :: value_row_out (snd p))
               (List.filter (fun p => snd (fst p) =? a) (map_to_list (Valuations d)))),
       d)
  | DeleteValues u => (Some [], set_Values (delete u) d)
  | DeleteValuations k a => (Some [], set_Valuations (delete (k, a)) d)
  | SelectTypeCodes =>
      (Some (List.map (fun p => [("type", to_string_d (fst p)); ("typename", snd p)])
               (TypeCodes d)), d)
  | SelectAtomByUuid u => (Some (select_atoms (fun k _ => k =? u) d), d)
  | SelectAtomByName t lit =>
      match sql_dollar_literal lit with
      | Some n =>
          (Some (select_atoms
                   (fun _ r => (ar_type r =? t)
                               && bool_decide (ar_name r = Some n)) d), d)
      | None => (None, d)
      end
  | SelectAtomByOutgoing t o =>
      match bigint_array_in o with
      | Some l =>
          (Some (select_atoms
                   (fun _ r => (ar_type r =? t)
                               && bool_decide (ar_outgoing r = Some l)) d), d)
      | None => (None, d)
      end
  | SelectAtomUuidsBetween lo hi =>
      (Some (List.map (fun p => [("uuid", to_string_d (fst p))])
               (List.filter (fun p => (lo <? fst p) && (fst p <=? hi))
                  (map_to_list (Atoms d)))), d)
  | SelectMaxAtomUuid =>
      (Some match map_to_list (Atoms d) with
            | [] => []
            | p :: l =>
                [[("uuid", to_string_d (fold_left Z.max (List.map fst l) (fst p)))]]
            end, d)
  | SelectSpaces =>
      (Some (List.map (fun p => [("space", to_string_d (fst p))])
               (map_to_list (Spaces d))), d)
  | Begin => (Some [], d)
  | Commit => (Some [], d)
  | SelectMaxValueVuid =>
      (Some match max_of (List.map fst (map_to_list (Values d))) with
            | Some m => [[("vuid", to_string_d m)]]
            | None => []
            end, d)
  | SelectMaxAtomHeight =>
      (Some match max_of (List.map (fun p => ar_height (snd p)) (map_to_list (Atoms d))) with
            | Some m => [[("height", to_string_d m)]]
            | None => []
            end, d)
  | DeleteFrom table => delete_from table d
  | InsertRow _ _ => (None, d)
  | CreateTable _ _ => (None, d)
  | CreateIndex _ _ => (None, d)
  end.

(** *** Tables and the names of their columns *)

Definition table_of (q : Stmt) : option string :=
  match q with
  | Insert table _ | DeleteFrom table | InsertRow table _
  | CreateTable table _ | CreateIndex table _ => Some table
  | UpdateAtoms _ _ | SelectAtomByUuid _ | SelectAtomByName _ _
  | SelectAtomByOutgoing _ _ | SelectAtomUuidsBetween _ _ | SelectMaxAtomUuid
  | SelectMaxAtomHeight => Some "Atoms"
  | SelectValues _ | DeleteValues _ | SelectMaxValueVuid => Some "Values"
  | SelectValuations _ _ | SelectValuationsOf _ | DeleteValuations _ _ => Some "Valuations"
  | SelectTypeCodes => Some "TypeCodes"
  | SelectSpaces => Some "Spaces"
  | Begin | Commit => None
  end.

(** The columns a statement names outside of its list of values. *)
Definition where_columns (q : Stmt) : list string :=
  match q with
  | UpdateAtoms _ _ | SelectAtomByUuid _ | SelectAtomUuidsBetween _ _
  | SelectMaxAtomUuid => ["uuid"]
  | SelectAtomByName _ _ => ["type"; "name"]
  | SelectAtomByOutgoing _ _ => ["type"; "outgoing"]
  | SelectMaxAtomHeight => ["height"]
  | SelectValues _ | DeleteValues _ | SelectMaxValueVuid => ["vuid"]
  | SelectValuations _ _ | DeleteValuations _ _ => ["key"; "atom"]
  | SelectValuationsOf _ => ["atom"]
  | SelectSpaces => ["space"]
  | _ => []
  end.

Fixpoint table_columns (table : string) (l : list (string * list string))
  : option (list string) :=
  match l with
  | [] => None
  | (t, cols) :: l' => if String.eqb t table then Some cols else table_columns table l'
  end.

(** The name that the statements of the storage class use for the
    column that the table declares as [n], and the other way
    round. *)
Definition to_canonical (declared canon : list string) (n : string) : option string :=
  assoc n (combine declared canon).

Definition to_declared (declared canon : list string) (n : string) : string :=
  default n (assoc n (combine canon declared)).

Fixpoint translate (declared canon : list string) (cols : list (string * string))
  : option (list (string * string)) :=
  match cols with
  | [] => Some []
  | (n, v) :: cols' =>
      match to_canonical declared canon n, translate declared canon cols' with
      | Some n', Some cols'' => Some ((n', v) :: cols'')
      | _, _ => None
      end
  end.

(** The statement under the names of [canonical], when the table
    exists and has the columns the statement names.  A column that a
    WHERE clause or a select list names must be declared under that
    name, at the place where [canonical] has it. *)
Definition prepare (declared canon : list string) (q : Stmt) : option Stmt :=
  if forallb (fun n => bool_decide (to_canonical declared canon n = Some n))
             (where_columns q)
  then
    match q with
    | Insert table cols => option_map (Insert table) (translate declared canon cols)
    | UpdateAtoms cols uuid =>
        option_map (fun cols' => UpdateAtoms cols' uuid) (translate declared canon cols)
    | InsertRow table values =>
        if (length values =? length canon)%nat
        then Some (Insert table (combine canon values))
        else None
    | _ => Some q
    end
  else None.

Definition rename_rows (declared canon : list string) (rows : RecordSet) : RecordSet :=
  List.map (List.map (fun col => (to_declared declared canon (fst col), snd col))) rows.

(** The tables that a CREATE TABLE refers to, which must exist:
    [Atoms] has [space BIGINT REFERENCES spaces(space)], and
    [Valuations] has [REFERENCES Atoms(uuid)] twice. *)
Definition references (table : string) : list (string * string) :=
  if String.eqb table "Atoms" then [("Spaces", "space")]
  else if String.eqb table "Valuations" then [("Atoms", "uuid")]
  else [].

Definition has_column (l : list (string * list string)) (ref : string * string) : bool :=
  match table_columns (fst ref) l with
  | Some declared => existsb (String.eqb (snd ref)) declared
  | None => false
  end.

(** The rows of a table that has just been made. *)
Definition no_rows (table : string) (d : DB) : DB :=
  if String.eqb table "Spaces" then set_Spaces (fun _ => ∅) d
  else if String.eqb table "Atoms" then set_Atoms (fun _ => ∅) d
  else if String.eqb table "Valuations" then set_Valuations (fun _ => ∅) d
  else if String.eqb table "Values" then set_Values (fun _ => ∅) d
  else if String.eqb table "TypeCodes" then set_TypeCodes (fun _ => []) d
  else d.

(** Execution: CREATE TABLE makes a table that does not exist yet,
    with the column names given and without rows; the model knows
    the five tables of [create_tables] only, and takes the statement
    to declare the columns of that table in their order.  Any other
    statement needs its table. *)
Definition exec (q : Stmt) (d : DB) : option RecordSet * DB :=
  match q with
  | Begin | Commit => exec_std q d
  | CreateTable table columns =>
      match table_columns table (Columns d), canonical table with
      | None, Some canon =>
          if (length columns =? length canon)%nat
             && forallb (has_column (Columns d)) (references table)
          then (Some [], set_Columns (fun l => (table, columns) :: l) (no_rows table d))
          else (None, d)
      | _, _ => (None, d)
      end
  | CreateIndex table column =>
      match table_columns table (Columns d) with
      | Some declared =>
          if existsb (String.eqb column) declared then (Some [], d) else (None, d)
      | None => (None, d)
      end
  | _ =>
      match table_of q with
      | Some table =>
          match table_columns table (Columns d), canonical table with
          | Some declared, Some canon =>
              match prepare declared canon q with
              | Some q' =>
                  let '(rs, d') := exec_std q' d in
                  (option_map (rename_rows declared canon) rs, d')
              | None => (None, d)
              end
          | _, _ => (None, d)
          end
      | None => (None, d)
      end
  end.

End Pg.

(** ** The collaborators of the storage class

    Modelled from the spec: the in-memory hypergraph container (atoms,
    truth values, values, the type registry) and the identifier buffer
    ([TLB.h]) are not under src/; the spec treats them as opaque
    interfaces, and so does this model. *)

Module Atomspace.
Import CLib Double.

(** An atom, as far as its identity goes: a node is identified by
    type and name, a link by type and outgoing set. *)
Inductive Atom : Type :=
| Node (t : Z) (name : string)
| Link (t : Z) (out : list Atom).

Definition isNode (h : Atom) : bool :=
  match h with Node _ _ => true | Link _ _ => false end.
Definition isLink (h : Atom) : bool :=
  match h with Node _ _ => false | Link _ _ => true end.
Definition getType (h : Atom) : Z :=
  match h with Node t _ => t | Link t _ => t end.
Definition getName (h : Atom) : string :=
  match h with Node _ n => n | Link _ _ => EmptyString end.
Definition getOutgoingSet (h : Atom) : list Atom :=
  match h with Node _ _ => [] | Link _ o => o end.
Definition getArity (h : Atom) : Z := Z.of_nat (length (getOutgoingSet h)).

Fixpoint atom_eqb (a b : Atom) : bool :=
  match a, b with
  | Node t n, Node t' n' => (t =? t') && String.eqb n n'
  | Link t o, Link t' o' =>
      (t =? t') &&
      (fix all2 (l l' : list Atom) : bool :=
         match l, l' with
         | [], [] => true
         | x :: r, y :: r' => atom_eqb x y && all2 r r'
         | _, _ => false
         end) o o'
  | _, _ => false
  end.

(** A value: a vector of doubles, a vector of strings, or a vector
    of values. *)
Inductive Value : Type :=
| FloatValue (v : list double)
| StringValue (v : list string)
| LinkValue (v : list Value).

(** What a truth value answers to its getters. *)
Record TruthValue : Type := {
  getTVType : Z;
  getMean : double;
  getConfidence : double;
  getCount : double;
  getL : double;
  getU : double;
  getConfidenceLevel : double
}.

(** An atom table, with the table it is nested in, if any. *)
Inductive AtomTable : Type :=
| MkAtomTable (uuid : Z) (environ : option AtomTable).

Definition get_uuid_of_table (at_ : AtomTable) : Z :=
  match at_ with MkAtomTable u _ => u end.
Definition get_environ (at_ : AtomTable) : option AtomTable :=
  match at_ with MkAtomTable _ e => e end.

(** The type registry: the names of the types in the order of their
    codes, and the codes the source refers to by name. *)
Record ClassServer : Type := {
  type_names : list string;
  NOTYPE : Z;
  NODE : Z;
  FLOAT_VALUE : Z;
  STRING_VALUE : Z;
  LINK_VALUE : Z;
  SIMPLE_TRUTH_VALUE : Z;
  COUNT_TRUTH_VALUE : Z;
  INDEFINITE_TRUTH_VALUE : Z;
  PROBABILISTIC_TRUTH_VALUE : Z;
  isA : Z -> Z -> bool
}.

Definition getNumberOfClasses (cs : ClassServer) : Z :=
  Z.of_nat (length (type_names cs)).

Definition getTypeName (cs : ClassServer) (t : Z) : string :=
  nth (Z.to_nat t) (type_names cs) EmptyString.

Fixpoint index_of (name : string) (l : list string) (i : Z) : option Z :=
  match l with
  | [] => None
  | x :: l' => if String.eqb x name then Some i else index_of name l' (i + 1)
  end.

(** [classserver().getType(name)]: the sentinel for an unknown name. *)
Definition getTypeOf (cs : ClassServer) (name : string) : Z :=
  default (NOTYPE cs) (index_of name (type_names cs) 0).

(** What the process holds in memory and the storage class reads:
    the registry, the attributes of the atoms, and the radix
    character of the current locale. *)
Record Env : Type := {
  cs : ClassServer;
  getTruthValue : Atom -> option TruthValue;
  getAtomTable : Atom -> option AtomTable;
  getValues : Atom -> list (Atom * Value);
  radix : ascii
}.

(** The identifier buffer: [assign(handle, hint)] binds the hint when
    it is valid and unused and a fresh identifier otherwise, and
    returns the identifier bound. *)
Definition INVALID_UUID : Z := 0.

Record TLB : Type := {
  tlb_bindings : list (Atom * Z);
  tlb_next : Z
}.

Definition empty_tlb : TLB := {| tlb_bindings := []; tlb_next := 1 |}.

Fixpoint tlb_find (h : Atom) (l : list (Atom * Z)) : option Z :=
  match l with
  | [] => None
  | (a, u) :: l' => if atom_eqb a h then Some u else tlb_find h l'
  end.

Fixpoint tlb_rfind (u : Z) (l : list (Atom * Z)) : option Atom :=
  match l with
  | [] => None
  | (a, v) :: l' => if v =? u then Some a else tlb_rfind u l'
  end.

Definition getUUID (t : TLB) (h : Atom) : Z :=
  default INVALID_UUID (tlb_find h (tlb_bindings t)).

Definition getAtom (t : TLB) (u : Z) : option Atom :=
  tlb_rfind u (tlb_bindings t).

Definition addAtom (t : TLB) (h : Atom) (hint : Z) : Z * TLB :=
  match tlb_find h (tlb_bindings t) with
  | Some u => (u, t)
  | None =>
      let u := if negb (hint =? INVALID_UUID)
                  && bool_decide (tlb_rfind hint (tlb_bindings t) = None)
               then hint else tlb_next t in
      (u, {| tlb_bindings := (h, u) :: tlb_bindings t;
             tlb_next := Z.max (tlb_next t) (u + 1) |})
  end.

Definition reserve_upto (t : TLB) (n : Z) : TLB :=
  {| tlb_bindings := tlb_bindings t; tlb_next := Z.max (tlb_next t) (n + 1) |}.

End Atomspace.

(** ** The storage object and its computations *)

Module Storage.
Import CLib Double Atomspace.

(** The members of [SQLAtomStorage] that the modelled methods touch,
    the database behind the connection pool, and the statements
    executed so far, oldest first. *)
Record State : Type := {
  next_valid : Z;
  db : Pg.DB;
  sent : list Pg.Stmt;
  type_map_was_loaded : bool;
  loading_typemap : gmap Z Z;
  storing_typemap : gmap Z Z;
  db_typename : gmap Z string;
  local_id_cache : gset Z;
  id_create_cache : gset Z;
  table_id_cache : gset Z;
  local_id_cache_is_inited : bool;
  tlbuf : TLB;
  max_height : Z;
  store_count : Z;
  load_count : Z;
  num_node_inserts : Z;
  num_node_updates : Z;
  num_link_inserts : Z;
  num_link_updates : Z
}.

(** How a computation can end other than by returning. *)
Inductive Failure : Type :=
| IOException (msg : string)
| Undefined (what : string)
| Deadlock
| OutOfFuel.

Inductive Result (A : Type) : Type :=
| Ok (a : A)
| Err (f : Failure).
Arguments Ok {A} a.
Arguments Err {A} f.

(** A method: from the state before to a result and the state after.
    The state survives a failure, as the object survives a throw. *)
Definition M (A : Type) : Type := State -> Result A * State.

Definition ret {A : Type} (a : A) : M A := fun s => (Ok a, s).

Definition bind {A B : Type} (m : M A) (k : A -> M B) : M B :=
  fun s =>
    match m s with
    | (Ok a, s') => k a s'
    | (Err f, s') => (Err f, s')
    end.

Definition fail {A : Type} (f : Failure) : M A := fun s => (Err f, s).

Definition get : M State := fun s => (Ok s, s).
Definition modify (f : State -> State) : M unit := fun s => (Ok tt, f s).

Declare Scope storage_scope.
Delimit Scope storage_scope with storage.
Bind Scope storage_scope with M.
Notation "x <- m ;; k" := (bind m (fun x => k))
  (at level 100, m at next level, right associativity) : storage_scope.
Notation "m ;; k" := (bind m (fun _ => k))
  (at level 100, right associativity) : storage_scope.

Local Open Scope storage_scope.

Fixpoint for_each {A : Type} (l : list A) (body : A -> M unit) : M unit :=
  match l with
  | [] => ret tt
  | x :: l' => body x ;; for_each l' body
  end.

Fixpoint map_m {A B : Type} (f : A -> M B) (l : list A) : M (list B) :=
  match l with
  | [] => ret []
  | x :: l' => y <- f x ;; ys <- map_m f l' ;; ret (y :: ys)
  end.

(** Field updates. *)
Definition with_next_valid (v : Z) (s : State) : State :=
  {| next_valid := v; db := db s; sent := sent s;
     type_map_was_loaded := type_map_was_loaded s;
     loading_typemap := loading_typemap s; storing_typemap := storing_typemap s;
     db_typename := db_typename s; local_id_cache := local_id_cache s;
     id_create_cache := id_create_cache s; table_id_cache := table_id_cache s;
     local_id_cache_is_inited := local_id_cache_is_inited s;
     tlbuf := tlbuf s; max_height := max_height s; store_count := store_count s;
     load_count := load_count s; num_node_inserts := num_node_inserts s;
     num_node_updates := num_node_updates s; num_link_inserts := num_link_inserts s;
     num_link_updates := num_link_updates s |}.

Definition with_db (d : Pg.DB) (q : list Pg.Stmt) (s : State) : State :=
  {| next_valid := next_valid s; db := d; sent := q;
     type_map_was_loaded := type_map_was_loaded s;
     loading_typemap := loading_typemap s; storing_typemap := storing_typemap s;
     db_typename := db_typename s; local_id_cache := local_id_cache s;
     id_create_cache := id_create_cache s; table_id_cache := table_id_cache s;
     local_id_cache_is_inited := local_id_cache_is_inited s;
     tlbuf := tlbuf s; max_height := max_height s; store_count := store_count s;
     load_count := load_count s; num_node_inserts := num_node_inserts s;
     num_node_updates := num_node_updates s; num_link_inserts := num_link_inserts s;
     num_link_updates := num_link_updates s |}.

Definition with_typemap (loaded : bool) (lm sm : gmap Z Z) (dn : gmap Z string)
    (s : State) : State :=
  {| next_valid := next_valid s; db := db s; sent := sent s;
     type_map_was_loaded := loaded;
     loading_typemap := lm; storing_typemap := sm;
     db_typename := dn; local_id_cache := local_id_cache s;
     id_create_cache := id_create_cache s; table_id_cache := table_id_cache s;
     local_id_cache_is_inited := local_id_cache_is_inited s;
     tlbuf := tlbuf s; max_height := max_height s; store_count := store_count s;
     load_count := load_count s; num_node_inserts := num_node_inserts s;
     num_node_updates := num_node_updates s; num_link_inserts := num_link_inserts s;
     num_link_updates := num_link_updates s |}.

Definition with_caches (lc cc tc : gset Z) (inited : bool) (s : State) : State :=
  {| next_valid := next_valid s; db := db s; sent := sent s;
     type_map_was_loaded := type_map_was_loaded s;
     loading_typemap := loading_typemap s; storing_typemap := storing_typemap s;
     db_typename := db_typename s; local_id_cache := lc;
     id_create_cache := cc; table_id_cache := tc;
     local_id_cache_is_inited := inited;
     tlbuf := tlbuf s; max_height := max_height s; store_count := store_count s;
     load_count := load_count s; num_node_inserts := num_node_inserts s;
     num_node_updates := num_node_updates s; num_link_inserts := num_link_inserts s;
     num_link_updates := num_link_updates s |}.

Definition with_tlbuf (t : TLB) (s : State) : State :=
  {| next_valid := next_valid s; db := db s; sent := sent s;
     type_map_was_loaded := type_map_was_loaded s;
     loading_typemap := loading_typemap s; storing_typemap := storing_typemap s;
     db_typename := db_typename s; local_id_cache := local_id_cache s;
     id_create_cache := id_create_cache s; table_id_cache := table_id_cache s;
     local_id_cache_is_inited := local_id_cache_is_inited s;
     tlbuf := t; max_height := max_height s; store_count := store_count s;
     load_count := load_count s; num_node_inserts := num_node_inserts s;
     num_node_updates := num_node_updates s; num_link_inserts := num_link_inserts s;
     num_link_updates := num_link_updates s |}.

Definition with_counters (mh sc lc ni nu li lu : Z) (s : State) : State :=
  {| next_valid := next_valid s; db := db s; sent := sent s;
     type_map_was_loaded := type_map_was_loaded s;
     loading_typemap := loading_typemap s; storing_typemap := storing_typemap s;
     db_typename := db_typename s; local_id_cache := local_id_cache s;
     id_create_cache := id_create_cache s; table_id_cache := table_id_cache s;
     local_id_cache_is_inited := local_id_cache_is_inited s;
     tlbuf := tlbuf s; max_height := mh; store_count := sc;
     load_count := lc; num_node_inserts := ni;
     num_node_updates := nu; num_link_inserts := li;
     num_link_updates := lu |}.

(** A storage object as [init] leaves it, over a given database. *)
Definition init_state (d : Pg.DB) (next : Z) : State :=
  {| next_valid := next; db := d; sent := [];
     type_map_was_loaded := false;
     loading_typemap := ∅; storing_typemap := ∅; db_typename := ∅;
     local_id_cache := ∅; id_create_cache := ∅; table_id_cache := ∅;
     local_id_cache_is_inited := false;
     tlbuf := empty_tlb; max_height := 0; store_count := 0; load_count := 0;
     num_node_inserts := 0; num_node_updates := 0;
     num_link_inserts := 0; num_link_updates := 0 |}.

(** [Response::exec]: run the statement on a pooled connection; the
    record set is NULL ([None]) when the statement fails. *)
Definition exec (q : Pg.Stmt) : M (option Pg.RecordSet) :=
  fun s =>
    let '(rs, d) := Pg.exec q (db s) in
    (Ok rs, with_db d (sent s ++ [q])%list s).

(** [rs->foreach_row(cb)]: a NULL record set is dereferenced. *)
Definition foreach_row {R : Type} (rs : option Pg.RecordSet)
    (cb : R -> Pg.Row -> R) (rp : R) : M R :=
  match rs with
  | Some rows => ret (fold_left cb rows rp)
  | None => fail (Undefined "foreach_row on a NULL record set")
  end.

(** Reading a member of [Response] that nothing has assigned. *)
Definition read {A : Type} (field : option A) (what : string) : M A :=
  match field with
  | Some a => ret a
  | None => fail (Undefined what)
  end.

End Storage.

(** ** [SQLAtomStorage::Response] *)

Module Response.
Import CLib Double Atomspace Storage.

(** The members a query fills in.  [None] is a member that nothing
    has assigned yet: the constructor initialises [tname], [itype]
    and [intval] only. *)
Record Response : Type := {
  uuid : option Z;
  itype : Z;
  name : option string;
  outlist : option string;
  height : option Z;
  tv_type : option Z;
  mean : option double;
  confidence : option double;
  count : option double;
  row_exists : option bool;
  tname : string;
  vtype : option Z;
  fltval : option string;
  strval : option string;
  lnkval : option string;
  key : option Z;
  intval : Z
}.

Definition new_response : Response :=
  {| uuid := None; itype := 0; name := None; outlist := None; height := None;
     tv_type := None; mean := None; confidence := None; count := None;
     row_exists := None; tname := EmptyString; vtype := None; fltval := None;
     strval := None; lnkval := None; key := None; intval := 0 |}.

Definition set_value_fields (vt : option Z) (f s l : option string) (k : option Z)
    (rp : Response) : Response :=
  {| uuid := uuid rp; itype := itype rp; name := name rp; outlist := outlist rp;
     height := height rp; tv_type := tv_type rp; mean := mean rp;
     confidence := confidence rp; count := count rp; row_exists := row_exists rp;
     tname := tname rp; vtype := vt; fltval := f; strval := s; lnkval := l;
     key := k; intval := intval rp |}.

Definition set_type_fields (it : Z) (tn : string) (rp : Response) : Response :=
  {| uuid := uuid rp; itype := it; name := name rp; outlist := outlist rp;
     height := height rp; tv_type := tv_type rp; mean := mean rp;
     confidence := confidence rp; count := count rp; row_exists := row_exists rp;
     tname := tn; vtype := vtype rp; fltval := fltval rp; strval := strval rp;
     lnkval := lnkval rp; key := key rp; intval := intval rp |}.

Definition set_atom_fields (u : option Z) (it : Z) (n o : option string)
    (tvt : option Z) (m c k : option double) (rp : Response) : Response :=
  {| uuid := u; itype := it; name := n; outlist := o;
     height := height rp; tv_type := tvt; mean := m;
     confidence := c; count := k; row_exists := row_exists rp;
     tname := tname rp; vtype := vtype rp; fltval := fltval rp; strval := strval rp;
     lnkval := lnkval rp; key := key rp; intval := intval rp |}.

Definition set_height (h : option Z) (rp : Response) : Response :=
  {| uuid := uuid rp; itype := itype rp; name := name rp; outlist := outlist rp;
     height := h; tv_type := tv_type rp; mean := mean rp;
     confidence := confidence rp; count := count rp; row_exists := row_exists rp;
     tname := tname rp; vtype := vtype rp; fltval := fltval rp; strval := strval rp;
     lnkval := lnkval rp; key := key rp; intval := intval rp |}.

(** [get_value_column_cb] *)
Definition get_value_column_cb (rp : Response) (col : string * string) : Response :=
  let '(colname, colvalue) := col in
  if String.eqb colname "floatvalue" then
    set_value_fields (vtype rp) (Some colvalue) (strval rp) (lnkval rp) (key rp) rp
  else if String.eqb colname "stringvalue" then
    set_value_fields (vtype rp) (fltval rp) (Some colvalue) (lnkval rp) (key rp) rp
  else if String.eqb colname "linkvalue" then
    set_value_fields (vtype rp) (fltval rp) (strval rp) (Some colvalue) (key rp) rp
  else if String.eqb colname "type" then
    set_value_fields (Some (to_u16 (atoi colvalue))) (fltval rp) (strval rp)
                     (lnkval rp) (key rp) rp
  else if String.eqb colname "key" then
    set_value_fields (vtype rp) (fltval rp) (strval rp) (lnkval rp)
                     (Some (to_u64 (atoi colvalue))) rp
  else rp.

(** [get_value_cb] *)
Definition get_value_cb (rp : Response) (row : Pg.Row) : Response :=
  fold_left get_value_column_cb row rp.

(** [type_column_cb] *)
Definition type_column_cb (rp : Response) (col : string * string) : Response :=
  let '(colname, colvalue) := col in
  if String.eqb colname "type" then set_type_fields (to_u16 (atoi colvalue)) (tname rp) rp
  else if String.eqb colname "typename" then set_type_fields (itype rp) colvalue rp
  else rp.

(** [create_atom_column_cb]: two chains of tests, the second one
    starting at [tv_type].  [radix] is the radix character of the
    locale, which [atof] reads. *)
Definition create_atom_column_cb (radix : ascii) (rp : Response)
    (col : string * string) : Response :=
  let '(colname, colvalue) := col in
  let rp :=
    if String.eqb colname "type" then
      set_atom_fields (uuid rp) (to_u16 (atoi colvalue)) (name rp) (outlist rp)
                      (tv_type rp) (mean rp) (confidence rp) (count rp) rp
    else if String.eqb colname "name" then
      set_atom_fields (uuid rp) (itype rp) (Some colvalue) (outlist rp)
                      (tv_type rp) (mean rp) (confidence rp) (count rp) rp
    else if String.eqb colname "outgoing" then
      set_atom_fields (uuid rp) (itype rp) (name rp) (Some colvalue)
                      (tv_type rp) (mean rp) (confidence rp) (count rp) rp
    else rp in
  if String.eqb colname "tv_type" then
    set_atom_fields (uuid rp) (itype rp) (name rp) (outlist rp)
                    (Some (atoi colvalue)) (mean rp) (confidence rp) (count rp) rp
  else if String.eqb colname "stv_mean" then
    set_atom_fields (uuid rp) (itype rp) (name rp) (outlist rp)
                    (tv_type rp) (Some (atof radix colvalue)) (confidence rp) (count rp) rp
  else if String.eqb colname "stv_confidence" then
    set_atom_fields (uuid rp) (itype rp) (name rp) (outlist rp)
                    (tv_type rp) (mean rp) (Some (atof radix colvalue)) (count rp) rp
  else if String.eqb colname "stv_count" then
    set_atom_fields (uuid rp) (itype rp) (name rp) (outlist rp)
                    (tv_type rp) (mean rp) (confidence rp) (Some (atof radix colvalue)) rp
  else if String.eqb colname "uuid" then
    set_atom_fields (Some (fst (strtoul colvalue))) (itype rp) (name rp) (outlist rp)
                    (tv_type rp) (mean rp) (confidence rp) (count rp) rp
  else rp.

(** [create_atom_cb] *)
Definition create_atom_cb (radix : ascii) (rp : Response) (row : Pg.Row) : Response :=
  fold_left (create_atom_column_cb radix) row rp.

End Response.

(** ** The value codec *)

Module Codec.
Import CLib Double Atomspace Storage Response.
Local Open Scope storage_scope.

(** The [STMT] macro: one more column with its value.  Whether the
    pairs end up as [col = val] or in the two lists of an INSERT is
    decided when the statement is put together. *)
Definition STMT (cols : list (string * string)) (colname val : string)
  : list (string * string) :=
  (cols ++ [(colname, val)])%list.

(** [STMTI]: the value through [snprintf("%u")]. *)
Definition STMTI (cols : list (string * string)) (colname : string) (ival : Z)
  : list (string * string) :=
  STMT cols colname (to_string_u (ival mod 2 ^ 32)).

(** [STMTF]: the value through [snprintf("%12.8g")]. *)
Definition STMTF (rdx : ascii) (cols : list (string * string)) (colname : string)
    (fval : double) : list (string * string) :=
  STMT cols colname (fmt_g rdx 12 8 fval).

(** The loop shared by the four [..._to_string] methods: the
    elements separated by [", "]. *)
Fixpoint append_elements (not_first : bool) (str : string) (l : list string) : string :=
  match l with
  | [] => str
  | x :: l' =>
      append_elements true ((if not_first then str ++ ", " else str) ++ x) l'
  end.

Definition array_literal (l : list string) : string :=
  append_elements false "'{" l ++ "}'".

Section WithEnv.
Variable env : Env.

(** [float_to_string] *)
Definition float_to_string (fvle : list double) : string :=
  array_literal (List.map (Double.to_string (radix env)) fvle).

(** [string_to_string] *)
Definition string_to_string (svle : list string) : string :=
  array_literal svle.

(** The type of a value, as [pap->getType()] gives it. *)
Definition value_type (pap : Value) : Z :=
  match pap with
  | FloatValue _ => FLOAT_VALUE (cs env)
  | StringValue _ => STRING_VALUE (cs env)
  | LinkValue _ => LINK_VALUE (cs env)
  end.

(** [storeValue], with [link_to_string] as its inner loop: every
    element of a link value is stored by a call of its own, and
    the identifiers returned make up the array literal. *)
Fixpoint storeValue (pap : Value) : M Z :=
  s <- get ;;
  let vuid := next_valid s in
  modify (with_next_valid (to_u64 (vuid + 1))) ;;
  let cols := STMT [] "vuid" (to_string_u vuid) in
  let cols := STMTI cols "type" (value_type pap) in
  cols <-
    match pap with
    | FloatValue fvp => ret (STMT cols "floatvalue" (float_to_string fvp))
    | StringValue svp => ret (STMT cols "stringvalue" (string_to_string svp))
    | LinkValue lvp =>
        str <-
          (fix link_to_string (not_first : bool) (str : string) (l : list Value)
             : M string :=
             match l with
             | [] => ret str
             | pap' :: l' =>
                 let str := if not_first then str ++ ", " else str in
                 vuid' <- storeValue pap' ;;
                 link_to_string true (str ++ to_string_u vuid') l'
             end) false "'{" lvp ;;
        ret (STMT cols "linkvalue" (str ++ "}'"))
    end ;;
  exec (Pg.Insert "Values" cols) ;;
  ret vuid.

(** [link_to_string], as a method of its own. *)
Fixpoint link_elements (not_first : bool) (str : string) (l : list Value) : M string :=
  match l with
  | [] => ret str
  | pap :: l' =>
      let str := if not_first then str ++ ", " else str in
      vuid <- storeValue pap ;;
      link_elements true (str ++ to_string_u vuid) l'
  end.

Definition link_to_string (lvle : list Value) : M string :=
  str <- link_elements false "'{" lvle ;;
  ret (str ++ "}'").

(** The head of an array text: [if (p and *p == '{') p++].  The
    flag tells whether [p] still is the start of the buffer. *)
Definition skip_brace (p : string) : bool * string :=
  match p with
  | String "{" r => (false, r)
  | _ => (true, p)
  end.

Definition at_end (p : string) : bool :=
  match p with
  | EmptyString => true
  | String c _ => Ascii.eqb c "}"
  end.

Definition tail (p : string) : string :=
  match p with
  | EmptyString => EmptyString
  | String _ r => r
  end.

Definition starts_with (c : ascii) (p : string) : bool :=
  match p with
  | String a _ => Ascii.eqb a c
  | EmptyString => false
  end.

Fixpoint ends_with (c : ascii) (p : string) : bool :=
  match p with
  | EmptyString => false
  | String a EmptyString => Ascii.eqb a c
  | String _ r => ends_with c r
  end.

Fixpoint remove_last (p : string) : string :=
  match p with
  | EmptyString => EmptyString
  | String _ EmptyString => EmptyString
  | String a r => String a (remove_last r)
  end.

(** The string branch of [doUnpackValue]: split along commas, the
    last element ending at the closing brace, and wipe out one
    quote mark at either end. *)
Fixpoint unpack_strings (fuel : nat) (at_start : bool) (p : string)
    (strarr : list string) : M (list string) :=
  match fuel with
  | O => fail OutOfFuel
  | S fuel' =>
      if at_end p then ret strarr
      else
        let c := match strchr p "," with
                 | Some c => Some c
                 | None => strchr p "}"
                 end in
        let elem := match strchr p "," with
                    | Some _ => before p ","
                    | None => before p "}"
                    end in
        let elem' := if starts_with dquote elem then tail elem else elem in
        match c with
        | Some c =>
            elem'' <-
              match elem with
              | EmptyString =>
                  if at_start
                  then fail (Undefined "read before the start of the buffer")
                  else ret elem'
              | _ => ret (if ends_with dquote elem then remove_last elem' else elem')
              end ;;
            unpack_strings fuel' false (tail c) (strarr ++ [elem''])%list
        | None => fail (Undefined "null pointer incremented and read")
        end
  end.

(** The float branch of [doUnpackValue]. *)
Fixpoint unpack_floats (fuel : nat) (p : string) (fltarr : list double)
    : M (list double) :=
  match fuel with
  | O => fail OutOfFuel
  | S fuel' =>
      if at_end p then ret fltarr
      else
        let '(flt, rest) := strtod (radix env) p in
        match rest with
        | EmptyString => fail (Undefined "read past the end of the buffer")
        | String _ p' => unpack_floats fuel' p' (fltarr ++ [flt])%list
        end
  end.

(** The loop over a list of identifiers, shared by the link branch
    of [doUnpackValue], [deleteValue] and [deleteValuation]:
    [atoi] at [p], the body, then on to the next comma. *)
Fixpoint each_vuid {A : Type} (fuel : nat) (p : option string)
    (body : Z -> M A) (acc : list A) : M (list A) :=
  match fuel with
  | O => fail OutOfFuel
  | S fuel' =>
      match p with
      | None => ret acc
      | Some p =>
          if at_end p then ret acc
          else
            let vu := to_u64 (atoi p) in
            a <- body vu ;;
            each_vuid fuel' (option_map tail (strchr p ",")) body (acc ++ [a])%list
      end
  end.

Definition scan_fuel (p : string) : nat := S (String.length p).

(** [doUnpackValue] *)
Definition doUnpackValue (getValue : Z -> M Value) (rp : Response) : M Value :=
  vt <- read (vtype rp) "vtype" ;;
  if vt =? STRING_VALUE (cs env) then
    s <- read (strval rp) "strval" ;;
    let '(at_start, p) := skip_brace s in
    strarr <- unpack_strings (scan_fuel p) at_start p [] ;;
    ret (StringValue strarr)
  else if vt =? FLOAT_VALUE (cs env) then
    s <- read (fltval rp) "fltval" ;;
    let '(_, p) := skip_brace s in
    fltarr <- unpack_floats (scan_fuel p) p [] ;;
    ret (FloatValue fltarr)
  else if vt =? LINK_VALUE (cs env) then
    s <- read (lnkval rp) "lnkval" ;;
    let '(_, p) := skip_brace s in
    lnkarr <- each_vuid (scan_fuel p) (Some p) getValue [] ;;
    ret (LinkValue lnkarr)
  else fail (IOException "Unexpected value type!").

(** [doGetValue] *)
Definition doGetValue (getValue : Z -> M Value) (q : Pg.Stmt) : M Value :=
  rs <- exec q ;;
  rp <- foreach_row rs get_value_cb new_response ;;
  doUnpackValue getValue rp.

(** [getValue]: [fuel] bounds the depth of the recursive fetch. *)
Fixpoint getValue (fuel : nat) (vuid : Z) : M Value :=
  match fuel with
  | O => fail OutOfFuel
  | S fuel' => doGetValue (getValue fuel') (Pg.SelectValues vuid)
  end.

(** [getValuation] *)
Definition getValuation (fuel : nat) (key atom : Atom) : M Value :=
  s <- get ;;
  doGetValue (getValue fuel)
    (Pg.SelectValuations (getUUID (tlbuf s) key) (getUUID (tlbuf s) atom)).

(** [deleteValue] *)
Fixpoint deleteValue (fuel : nat) (vuid : Z) : M unit :=
  match fuel with
  | O => fail OutOfFuel
  | S fuel' =>
      rs <- exec (Pg.SelectValues vuid) ;;
      rp <- foreach_row rs get_value_cb new_response ;;
      vt <- read (vtype rp) "vtype" ;;
      (if vt =? LINK_VALUE (cs env) then
         s <- read (lnkval rp) "lnkval" ;;
         let '(_, p) := skip_brace s in
         each_vuid (scan_fuel p) (Some p) (deleteValue fuel') [] ;;
         ret tt
       else ret tt) ;;
      exec (Pg.DeleteValues vuid) ;;
      ret tt
  end.

(** [deleteValuation] *)
Definition deleteValuation (fuel : nat) (key atom : Atom) : M unit :=
  s <- get ;;
  let k := getUUID (tlbuf s) key in
  let a := getUUID (tlbuf s) atom in
  rs <- exec (Pg.SelectValuations k a) ;;
  rp <- foreach_row rs get_value_cb
          (set_value_fields (Some 0) None None None None new_response) ;;
  vt <- read (vtype rp) "vtype" ;;
  (if vt =? LINK_VALUE (cs env) then
     s <- read (lnkval rp) "lnkval" ;;
     let '(_, p) := skip_brace s in
     each_vuid (scan_fuel p) (Some p) (deleteValue fuel) [] ;;
     ret tt
   else ret tt) ;;
  (if negb (vt =? 0) then
     exec (Pg.DeleteValuations k a) ;; ret tt
   else ret tt).

(** [storeValuation] *)
Definition storeValuation (fuel : nat) (key atom : Atom) (pap : Value) : M unit :=
  s <- get ;;
  let kidbuff := to_string_u (getUUID (tlbuf s) key) in
  let aidbuff := to_string_u (getUUID (tlbuf s) atom) in
  exec Pg.Begin ;;
  deleteValuation fuel key atom ;;
  let cols := STMT [] "key" kidbuff in
  let cols := STMT cols "atom" aidbuff in
  let cols := STMTI cols "type" (value_type pap) in
  cols <-
    match pap with
    | FloatValue fvp => ret (STMT cols "floatvalue" (float_to_string fvp))
    | StringValue svp => ret (STMT cols "stringvalue" (string_to_string svp))
    | LinkValue lvp =>
        lstr <- link_to_string lvp ;;
        ret (STMT cols "linkvalue" lstr)
    end ;;
  exec (Pg.Insert "Valuations" cols) ;;
  exec Pg.Commit ;;
  ret tt.

(** [store_atom_values] *)
Definition store_atom_values (fuel : nat) (atom : Atom) : M unit :=
  for_each (getValues env atom)
    (fun kv => storeValuation fuel (fst kv) atom (snd kv)).

End WithEnv.

End Codec.

(** ** The type map *)

Module TypeMap.
Import CLib Double Atomspace Storage Response Codec.
Local Open Scope storage_scope.

(** Modelled from the spec: [TYPEMAP_SZ] is declared in
    [SQLAtomStorage.h], which is not under src/; the spec sizes the
    arrays "to a maximum (e.g. 1 << 16)". *)
Definition TYPEMAP_SZ : Z := 2 ^ 16.

Definition BUFSZ : Z := 250.

(** The three arrays.  A slot that holds what the initialising loop
    of [setup_typemap] wrote is absent from the map. *)
Definition loading_at (cs : ClassServer) (s : State) (i : Z) : Z :=
  default (NOTYPE cs) (loading_typemap s !! i).
Definition storing_at (s : State) (i : Z) : Z :=
  default (-1) (storing_typemap s !! i).
Definition db_typename_at (s : State) (i : Z) : option string :=
  db_typename s !! i.

Definition in_typemap (i : Z) : bool := (0 <=? i) && (i <? TYPEMAP_SZ).

Section WithEnv.
Variable env : Env.

(** [set_typemap] *)
Definition set_typemap (dbval : Z) (tname : string) : M unit :=
  let realtype := getTypeOf (cs env) tname in
  if in_typemap dbval && in_typemap realtype then
    modify (fun s =>
      with_typemap (type_map_was_loaded s)
        (<[dbval := realtype]> (loading_typemap s))
        (<[realtype := dbval]> (storing_typemap s))
        (<[dbval := tname]> (db_typename s)) s)
  else fail (Undefined "typemap index out of bounds").

(** [type_cb], over the rows of the record set. *)
Fixpoint type_rows (rows : list Pg.Row) (rp : Response) : M Response :=
  match rows with
  | [] => ret rp
  | row :: rows' =>
      let rp := fold_left type_column_cb row rp in
      set_typemap (itype rp) (tname rp) ;;
      type_rows rows' rp
  end.

(** The search for the lowest unused index: the index reached, which
    is [TYPEMAP_SZ] when every slot is taken. *)
Fixpoint lowest_unused (fuel : nat) (sqid : Z) (names : gmap Z string) : Z :=
  match fuel with
  | O => sqid
  | S fuel' =>
      match names !! sqid with
      | None => sqid
      | Some _ => lowest_unused fuel' (sqid + 1) names
      end
  end.

(** The statement text, 47 characters, the code, a comma and a
    space, the quoted name and [");"], is cut to [BUFSZ - 1]
    characters.  A text that loses its semicolon only is the same
    statement.  One that loses more is refused by the server; the
    literal given for it is cut where the text is, and before its
    closing quote when that would still fit. *)
Definition typecode_literal (sqid : Z) (tname : string) : string :=
  let lit := String "'" (tname ++ "'") in
  let room := BUFSZ - 1 - (47 + Z.of_nat (String.length (to_string_d sqid)) + 2) in
  if Z.of_nat (String.length lit) + 1 <=? room then lit
  else String.substring 0 (Z.to_nat (Z.min room (Z.of_nat (String.length lit) - 1))) lit.

(** One round of the loop over the types of the registry. *)
Definition register_type (t : Z) : M unit :=
  s <- get ;;
  if storing_at s t =? -1 then
    let tname := getTypeName (cs env) t in
    let sqid :=
      if bool_decide (db_typename_at s t <> None)
         && negb (loading_at (cs env) s t =? t)
      then lowest_unused (Z.to_nat TYPEMAP_SZ) 0 (db_typename s)
      else t in
    set_typemap sqid tname ;;
    exec (Pg.Insert "TypeCodes"
            [("type", to_string_d sqid); ("typename", typecode_literal sqid tname)]) ;;
    ret tt
  else ret tt.

Definition types_upto (n : Z) : list Z :=
  List.map Z.of_nat (seq 0 (Z.to_nat n)).

(** [setup_typemap] *)
Definition setup_typemap : M unit :=
  s <- get ;;
  if type_map_was_loaded s then ret tt
  else
    modify (with_typemap false ∅ ∅ ∅) ;;
    rs <- exec Pg.SelectTypeCodes ;;
    match rs with
    | Some rows => type_rows rows new_response ;; ret tt
    | None => fail (Undefined "foreach_row on a NULL record set")
    end ;;
    for_each (types_upto (getNumberOfClasses (cs env))) register_type ;;
    modify (fun s => with_typemap true (loading_typemap s) (storing_typemap s)
                       (db_typename s) s).

End WithEnv.
End TypeMap.

(** ** The identifier caches and the creation lock, in one thread *)

Module IdCache.
Import CLib Atomspace Storage Response.
Local Open Scope storage_scope.

(** [add_id_to_cache] *)
Definition add_id_to_cache (uuid : Z) : M unit :=
  modify (fun s =>
    with_caches ({[ uuid ]} ∪ local_id_cache s)
                (if bool_decide (uuid ∈ id_create_cache s)
                 then id_create_cache s ∖ {[ uuid ]}
                 else id_create_cache s)
                (table_id_cache s) (local_id_cache_is_inited s) s).

(** [maybe_create_id], when no other thread runs: whether the lock
    returned owns [id_create_mutex].  With the identifier left in
    [id_create_cache], the method locks [id_create_mutex] again while
    [create_lock] still holds it, and does not return. *)
Definition maybe_create_id (uuid : Z) : M bool :=
  s <- get ;;
  if bool_decide (uuid ∈ local_id_cache s) then ret false
  else if bool_decide (uuid ∈ id_create_cache s) then fail Deadlock
  else
    modify (with_caches (local_id_cache s) ({[ uuid ]} ∪ id_create_cache s)
                        (table_id_cache s) (local_id_cache_is_inited s)) ;;
    ret true.

(** [intval_cb] and [note_id_cb]: the column name is not looked at. *)
Definition intval_of (rows : Pg.RecordSet) (intval : Z) : Z :=
  fold_left (fun v row => fold_left (fun _ col => fst (strtoul (snd col))) row v)
            rows intval.


(** [getMaxObservedUUID] *)
Definition getMaxObservedUUID : M Z :=
  rs <- exec Pg.SelectMaxAtomUuid ;;
  match rs with
  | Some rows => ret (intval_of rows 0)
  | None => fail (Undefined "foreach_row on a NULL record set")
  end.

(** [getMaxObservedVUID] *)
Definition getMaxObservedVUID : M Z :=
  rs <- exec Pg.SelectMaxValueVuid ;;
  match rs with
  | Some rows => ret (intval_of rows 0)
  | None => fail (Undefined "foreach_row on a NULL record set")
  end.

(** [getMaxObservedHeight], which returns an [int]. *)
Definition getMaxObservedHeight : M Z :=
  rs <- exec Pg.SelectMaxAtomHeight ;;
  match rs with
  | Some rows => ret (to_int (intval_of rows 0))
  | None => fail (Undefined "foreach_row on a NULL record set")
  end.

(** [reserve] *)
Definition reserve : M unit :=
  max_observed_id <- getMaxObservedUUID ;;
  modify (fun s => with_tlbuf (reserve_upto (tlbuf s) max_observed_id) s).

(** [init]: the driver is chosen by the scheme of the URI, a path
    standing for the socket of a PostgreSQL server; [up] is what
    [connected] answers once the pool is filled. *)
Definition init (uri : string) (up : bool) : M unit :=
  let use_libpq := String.prefix "postgres" uri in
  let use_odbc := String.prefix "odbc" uri in
  let use_libpq := match uri with String "/" _ => true | _ => use_libpq end in
  if negb use_libpq && negb use_odbc then fail (IOException "Unknown URI '%s'")
  else
    modify (fun s => with_typemap false (loading_typemap s) (storing_typemap s)
                       (db_typename s) s) ;;
    modify (fun s => with_counters 0 0 0 (num_node_inserts s) (num_node_updates s)
                       (num_link_inserts s) (num_link_updates s) s) ;;
    modify (fun s => with_typemap (type_map_was_loaded s) (loading_typemap s)
                       (storing_typemap s) ∅ s) ;;
    modify (fun s => with_caches (local_id_cache s) (id_create_cache s)
                       (table_id_cache s) false s) ;;
    if negb up then ret tt
    else
      reserve ;;
      v <- getMaxObservedVUID ;;
      modify (with_next_valid (to_u64 (v + 1))) ;;
      modify (fun s => with_counters (max_height s) (store_count s) (load_count s)
                         0 0 0 0 s).

(** [kill_data] *)
Definition kill_data : M unit :=
  exec (Pg.DeleteFrom "Valuations") ;;
  exec (Pg.DeleteFrom "Values") ;;
  exec (Pg.DeleteFrom "Atoms") ;;
  exec (Pg.DeleteFrom "Spaces") ;;
  exec (Pg.InsertRow "Spaces" ["0"; "0"]) ;;
  exec (Pg.InsertRow "Spaces" ["1"; "1"]) ;;
  ret tt.

(** [create_tables] *)
Definition create_tables : M unit :=
  exec (Pg.CreateTable "Spaces" ["space"; "parent"]) ;;
  exec (Pg.InsertRow "Spaces" ["0"; "0"]) ;;
  exec (Pg.InsertRow "Spaces" ["1"; "1"]) ;;
  exec (Pg.CreateTable "Atoms"
          ["uuid"; "space"; "type"; "type_tv"; "stv_mean"; "stv_confidence";
           "stv_count"; "height"; "name"; "outgoing"]) ;;
  exec (Pg.CreateTable "Valuations"
          ["key"; "atom"; "type"; "floatvalue"; "stringvalue"; "linkvalue"]) ;;
  exec (Pg.CreateIndex "Valuations" "atom") ;;
  exec (Pg.CreateTable "Values"
          ["vuid"; "type"; "floatvalue"; "stringvalue"; "linkvalue"]) ;;
  exec (Pg.CreateTable "TypeCodes" ["type"; "typename"]) ;;
  modify (fun s => with_typemap false (loading_typemap s) (storing_typemap s)
                     (db_typename s) s).




End IdCache.

(** ** Storing atoms *)

Module AtomStore.
Import CLib Double Atomspace Storage Response Codec TypeMap IdCache.
Local Open Scope storage_scope.

(** What [makeAtom] builds from a row. *)
Inductive PseudoTV : Type :=
| PSimple (mean confidence : double)
| PCount (mean confidence count : double)
| PIndefinite (l u confidence_level : double)
| PProbabilistic (mean confidence count : double).

Record Pseudo : Type := {
  p_type : Z;
  p_uuid : Z;
  p_name : string;
  p_oset : list Z;
  p_tv : PseudoTV
}.

(** [get_height], which computes in [int]: the sum [maxd + 1] is
    given as the hardware gives it, modulo [2^32]. *)
Fixpoint get_height (atom : Atom) : Z :=
  match atom with
  | Node _ _ => 0
  | Link _ out =>
      to_int ((fix loop (l : list Atom) (maxd : Z) : Z :=
                 match l with
                 | [] => maxd
                 | h :: l' =>
                     let d := get_height h in
                     loop l' (if maxd <? d then d else maxd)
                 end) out 0 + 1)
  end.

Definition tlb_addAtom (h : Atom) (hint : Z) : M Z :=
  s <- get ;;
  let '(u, t) := addAtom (tlbuf s) h hint in
  modify (with_tlbuf t) ;;
  ret u.

Section WithEnv.
Variable env : Env.

(** [store_atomtable_id] *)
Fixpoint store_atomtable_id (at_ : AtomTable) : M unit :=
  match at_ with
  | MkAtomTable tab_id environ =>
      s <- get ;;
      if bool_decide (tab_id ∈ table_id_cache s) then ret tt
      else
        modify (with_caches (local_id_cache s) (id_create_cache s)
                            ({[ tab_id ]} ∪ table_id_cache s)
                            (local_id_cache_is_inited s)) ;;
        parent_id <-
          match environ with
          | Some env_ => store_atomtable_id env_ ;; ret (get_uuid_of_table env_)
          | None => ret 1
          end ;;
        exec (Pg.Insert "Spaces"
                [("space", to_string_d (to_long tab_id));
                 ("parent", to_string_d (to_long parent_id))]) ;;
        ret tt
  end.

(** The outgoing set of a row, in [makeAtom]: a number is read
    after each character that is not the end of the list. *)
Fixpoint read_outlist (fuel : nat) (p : string) (oset : list Z) : M (list Z) :=
  match fuel with
  | O => fail OutOfFuel
  | S fuel' =>
      if at_end p then ret oset
      else
        let '(out, rest) := strtoul (tail p) in
        read_outlist fuel' rest (oset ++ [out])%list
  end.

(** [makeAtom] *)
Definition makeAtom (rp : Response) (uuid : Z) : M Pseudo :=
  s <- get ;;
  let realtype := loading_at (cs env) s (itype rp) in
  if realtype =? NOTYPE (cs env) then
    fail (IOException "Fatal Error: OpenCog does not have a type called %s")
  else
    hgt <- read (height rp) "height" ;;
    name_oset <-
      (if (hgt =? 0) || ((hgt =? -1) && isA (cs env) realtype (NODE (cs env))) then
         n <- read (name rp) "name" ;;
         ret (n, [])
       else
         o <- read (outlist rp) "outlist" ;;
         oset <- read_outlist (scan_fuel o) o [] ;;
         ret (EmptyString, oset)) ;;
    tvt <- read (tv_type rp) "tv_type" ;;
    tv <-
      (if tvt =? SIMPLE_TRUTH_VALUE (cs env) then
         m <- read (mean rp) "mean" ;; c <- read (confidence rp) "confidence" ;;
         ret (PSimple m c)
       else if tvt =? COUNT_TRUTH_VALUE (cs env) then
         m <- read (mean rp) "mean" ;; c <- read (confidence rp) "confidence" ;;
         n <- read (count rp) "count" ;;
         ret (PCount m c n)
       else if tvt =? INDEFINITE_TRUTH_VALUE (cs env) then
         m <- read (mean rp) "mean" ;; n <- read (count rp) "count" ;;
         c <- read (confidence rp) "confidence" ;;
         ret (PIndefinite m n c)
       else if tvt =? PROBABILISTIC_TRUTH_VALUE (cs env) then
         m <- read (mean rp) "mean" ;; c <- read (confidence rp) "confidence" ;;
         n <- read (count rp) "count" ;;
         ret (PProbabilistic m c n)
       else fail (IOException "makeAtom: Unknown truth value type")) ;;
    modify (fun s => with_counters (max_height s) (store_count s) (load_count s + 1)
                       (num_node_inserts s) (num_node_updates s)
                       (num_link_inserts s) (num_link_updates s) s) ;;
    add_id_to_cache uuid ;;
    ret {| p_type := realtype; p_uuid := uuid; p_name := fst name_oset;
           p_oset := snd name_oset; p_tv := tv |}.

(** [getAtom] *)
Definition getAtom (query : Pg.Stmt) (hgt : Z) : M (option Pseudo) :=
  rs <- exec query ;;
  rp <- foreach_row rs (create_atom_cb (radix env))
          (set_atom_fields (Some INVALID_UUID) 0 None None None None None None
                           new_response) ;;
  u <- read (uuid rp) "uuid" ;;
  if u =? INVALID_UUID then ret None
  else
    p <- makeAtom (set_height (Some hgt) rp) u ;;
    ret (Some p).

(** [doGetNode]: whether a row was found; the handle it returns is
    bound to the identifier of the row. *)
Definition doGetNode (t : Z) (str : string) : M bool :=
  setup_typemap env ;;
  s <- get ;;
  let ty := to_u16 (storing_at s t) in
  let nc := 33 + Z.of_nat (String.length (to_string_u ty)) + 17
            + Z.of_nat (String.length str) + 7 in
  if 4 * BUFSZ - 1 <=? nc then
    fail (IOException "SQLAtomStorage::getNode: buffer overflow!")
  else
    p <- getAtom (Pg.SelectAtomByName ty ("$ocp$" ++ str ++ "$ocp$ ")) 0 ;;
    match p with
    | None => ret false
    | Some p => tlb_addAtom (Node t str) (p_uuid p) ;; ret true
    end.

(** [get_uuid], with [oset_to_string] and [doGetLink] as its inner
    loop over the outgoing set. *)
Fixpoint get_uuid (h : Atom) : M Z :=
  s <- get ;;
  let uuid := getUUID (tlbuf s) h in
  if negb (uuid =? INVALID_UUID) then ret uuid
  else
    dbh <-
      match h with
      | Node t name => doGetNode t name
      | Link t out =>
          setup_typemap env ;;
          s <- get ;;
          let ty := to_u16 (storing_at s t) in
          str <-
            (fix oset_to_string (not_first : bool) (str : string) (l : list Atom)
               : M string :=
               match l with
               | [] => ret str
               | h' :: l' =>
                   let str := if not_first then str ++ ", " else str in
                   u <- get_uuid h' ;;
                   oset_to_string true (str ++ to_string_u u) l'
               end) false "'{" out ;;
          p <- getAtom (Pg.SelectAtomByOutgoing ty (str ++ "}'")) 1 ;;
          match p with
          | None => ret false
          | Some p => tlb_addAtom h (p_uuid p) ;; ret true
          end
      end ;;
    if dbh then s <- get ;; ret (getUUID (tlbuf s) h)
    else tlb_addAtom h INVALID_UUID.

(** [oset_to_string] *)
Fixpoint oset_elements (not_first : bool) (str : string) (l : list Atom) : M string :=
  match l with
  | [] => ret str
  | h :: l' =>
      let str := if not_first then str ++ ", " else str in
      u <- get_uuid h ;;
      oset_elements true (str ++ to_string_u u) l'
  end.

Definition oset_to_string (out : list Atom) : M string :=
  str <- oset_elements false "'{" out ;;
  ret (str ++ "}'").

Definition count_store (node update : bool) (s : State) : State :=
  with_counters (max_height s) (store_count s) (load_count s)
    (if node && negb update then num_node_inserts s + 1 else num_node_inserts s)
    (if node && update then num_node_updates s + 1 else num_node_updates s)
    (if negb node && negb update then num_link_inserts s + 1 else num_link_inserts s)
    (if negb node && update then num_link_updates s + 1 else num_link_updates s) s.

(** The columns of the truth value. *)
Definition tv_columns (cols : list (string * string)) (tv : option TruthValue)
    : M (list (string * string)) :=
  let tvt := match tv with Some tv => getTVType tv | None => 0 end in
  let cols := STMTI cols "tv_type" tvt in
  match tv with
  | Some tv =>
      if (tvt =? SIMPLE_TRUTH_VALUE (cs env))
         || (tvt =? COUNT_TRUTH_VALUE (cs env))
         || (tvt =? PROBABILISTIC_TRUTH_VALUE (cs env)) then
        let cols := STMTF (radix env) cols "stv_mean" (getMean tv) in
        let cols := STMTF (radix env) cols "stv_confidence" (getConfidence tv) in
        ret (STMTF (radix env) cols "stv_count" (getCount tv))
      else if tvt =? INDEFINITE_TRUTH_VALUE (cs env) then
        let cols := STMTF (radix env) cols "stv_mean" (getL tv) in
        let cols := STMTF (radix env) cols "stv_count" (getU tv) in
        ret (STMTF (radix env) cols "stv_confidence" (getConfidenceLevel tv))
      else fail (IOException "Error: store_single: Unknown truth value type")
  | None =>
      if (tvt =? SIMPLE_TRUTH_VALUE (cs env))
         || (tvt =? COUNT_TRUTH_VALUE (cs env))
         || (tvt =? PROBABILISTIC_TRUTH_VALUE (cs env))
         || (tvt =? INDEFINITE_TRUTH_VALUE (cs env))
      then fail (Undefined "null truth value dereferenced")
      else fail (IOException "Error: store_single: Unknown truth value type")
  end.

Definition node_name_error : string :=
  "Error: do_store_single_atom: Maxiumum Node name size is 2700.".

Definition link_size_error : string :=
  "Error: do_store_single_atom: Maxiumum Link size is 330.".

(** The columns written only when the atom is stored for the first
    time: space, type, and name or height and outgoing set. *)
Definition first_time_columns (cols : list (string * string)) (h : Atom)
    (aheight : Z) : M (list (string * string)) :=
  let uuidbuff := match getAtomTable env h with
                  | Some _ => "1"
                  | None => "0"
                  end in
  let cols := STMT cols "space" uuidbuff in
  s <- get ;;
  let dbtype := storing_at s (getType h) in
  let cols := STMTI cols "type" dbtype in
  if isNode h then
    let qname := " $ocp$" ++ getName h ++ "$ocp$ " in
    if 2700 <? Z.of_nat (String.length qname) then
      fail (IOException node_name_error)
    else
      let cols := STMT cols "name" qname in
      ret (STMTI cols "height" 0)
  else
    modify (fun s => with_counters
                       (if max_height s <? aheight then aheight else max_height s)
                       (store_count s) (load_count s)
                       (num_node_inserts s) (num_node_updates s)
                       (num_link_inserts s) (num_link_updates s) s) ;;
    let cols := STMTI cols "height" aheight in
    if isLink h then
      if 330 <? getArity h then
        fail (IOException link_size_error)
      else
        ostr <- oset_to_string (getOutgoingSet h) ;;
        ret (cols ++ [("outgoing", ostr)])%list
    else ret cols.

(** The end of [do_store_single_atom]: the statement is executed,
    and when that gives no record set, the atom table is stored
    and the statement executed again. *)
Definition execute_with_retry (h : Atom) (qry : Pg.Stmt) : M unit :=
  rs <- exec qry ;;
  match rs with
  | None =>
      (* try_again *)
      match getAtomTable env h with
      | Some at_ => store_atomtable_id at_
      | None => ret tt
      end ;;
      exec qry ;;
      ret tt
  | Some _ => ret tt
  end.

(** [do_store_single_atom] *)
Definition do_store_single_atom (h : Atom) (aheight : Z) : M unit :=
  setup_typemap env ;;
  uuid <- tlb_addAtom h INVALID_UUID ;;
  let uuidbuff := to_string_u uuid in
  owns_lock <- maybe_create_id uuid ;;
  let update := negb owns_lock in
  let cols := if update then [] else STMT [] "uuid" uuidbuff in
  modify (count_store (aheight =? 0) update) ;;
  cols <- (if update then ret cols else first_time_columns cols h aheight) ;;
  cols <- tv_columns cols (getTruthValue env h) ;;
  let qry := if update then Pg.UpdateAtoms cols uuidbuff
             else Pg.Insert "Atoms" cols in
  execute_with_retry h qry ;;
  add_id_to_cache uuid ;;
  modify (fun s => with_counters (max_height s) (store_count s + 1) (load_count s)
                     (num_node_inserts s) (num_node_updates s)
                     (num_link_inserts s) (num_link_updates s) s).

(** [do_store_atom]; [fuel] bounds the recursive deletes of the
    values stored along with each atom.  The height is an [int]:
    [lheight ++] is given as the hardware gives it, modulo
    [2^32]. *)
Fixpoint do_store_atom (fuel : nat) (h : Atom) : M Z :=
  match h with
  | Node _ _ =>
      do_store_single_atom h 0 ;;
      store_atom_values env fuel h ;;
      ret 0
  | Link _ out =>
      lheight <-
        (fix loop (l : list Atom) (lheight : Z) : M Z :=
           match l with
           | [] => ret lheight
           | ho :: l' =>
               heig <- do_store_atom fuel ho ;;
               loop l' (if lheight <? heig then heig else lheight)
           end) out 0 ;;
      let lheight := to_int (lheight + 1) in
      do_store_single_atom h lheight ;;
      store_atom_values env fuel h ;;
      ret lheight
  end.


End WithEnv.
End AtomStore.

(** ** A small registry and locale, for the worked examples *)

Module Examples.
Import CLib Double Atomspace Storage.

Definition registry : ClassServer :=
  {| type_names := ["Notype"; "ProtoAtom"; "FloatValue"; "StringValue"; "LinkValue";
                    "Atom"; "Node"; "Bar"; "ConceptNode"; "ListLink";
                    "SimpleTruthValue"; "CountTruthValue"; "IndefiniteTruthValue";
                    "ProbabilisticTruthValue"];
     NOTYPE := 65535; NODE := 6;
     FLOAT_VALUE := 2; STRING_VALUE := 3; LINK_VALUE := 4;
     SIMPLE_TRUTH_VALUE := 10; COUNT_TRUTH_VALUE := 11;
     INDEFINITE_TRUTH_VALUE := 12; PROBABILISTIC_TRUTH_VALUE := 13;
     isA := fun t t' => (t =? t') || ((t' =? 6) && (t =? 8)) |}.

Definition simple_tv : TruthValue :=
  {| getTVType := 10; getMean := of_ratio 1 2; getConfidence := of_ratio 9 10;
     getCount := of_Z 7200; getL := of_Z 0; getU := of_Z 0;
     getConfidenceLevel := of_Z 0 |}.

(** A process in the "C" locale, and one in a locale that writes a
    comma for the radix character. *)
Definition c_locale : Env :=
  {| cs := registry; getTruthValue := fun _ => Some simple_tv;
     getAtomTable := fun _ => Some (MkAtomTable 1 None);
     getValues := fun _ => []; radix := "." |}.

Definition comma_locale : Env :=
  {| cs := registry; getTruthValue := fun _ => Some simple_tv;
     getAtomTable := fun _ => Some (MkAtomTable 1 None);
     getValues := fun _ => []; radix := "," |}.

(** A name of [n] characters. *)
Fixpoint name_of_length (n : nat) : string :=
  match n with
  | O => EmptyString
  | S n' => String "a" (name_of_length n')
  end.

(** A storage object just connected to a database that holds the
    two root spaces only. *)
Definition fresh : State := init_state Pg.empty_db 1.

Definition third : double := of_ratio 1 3.
Definition half : double := of_ratio 1 2.

End Examples.

(** ** The creation lock, with several threads

    The threads of the write-back queue and the callers of the
    synchronous path run [do_store_single_atom] side by side on the
    one storage object.  A step of a thread is one of the calls that
    the body of [do_store_single_atom] makes, in the order in which it
    makes them, run on the shared state: [setup_typemap],
    [_tlbuf.addAtom], the lock of [id_create_mutex] with which
    [maybe_create_id] begins, the rest of [maybe_create_id], the
    counters, the columns of a first store, the columns of the truth
    value, the first execution of the statement, [store_atomtable_id],
    the second execution, [add_id_to_cache], and the return, at which
    the lock that [maybe_create_id] returned is released.  The steps
    of the threads interleave in any order.  A thread that asks for
    [id_create_mutex] while it is held has no step; [id_cache_mutex],
    under which [maybe_create_id] and [add_id_to_cache] look at the
    two sets, makes each of the two one step. *)

Module Threads.
Import CLib Atomspace Storage Codec TypeMap IdCache AtomStore.

(** Where a thread is: the call it makes next. *)
Inductive PC : Type :=
| Idle            (* not in [do_store_single_atom]; next, [setup_typemap] *)
| AddAtom         (* [_tlbuf.addAtom] *)
| LockCreate      (* [create_lock(id_create_mutex)] *)
| Examine         (* the rest of [maybe_create_id] *)
| Count           (* the counters of inserts and updates *)
| Columns         (* the columns written only in insert mode *)
| Truth           (* the columns of the truth value *)
| Execute         (* [rp.exec(qry)] *)
| StoreSpace      (* [store_atomtable_id], after a NULL record set *)
| ExecuteAgain    (* [rp.exec(qry)] once more *)
| AddToCache      (* [add_id_to_cache] *)
| Finish          (* [_store_count ++], and the return *)
| Blocked         (* in the loop of [maybe_create_id], which locks
                     [id_create_mutex] while [create_lock] holds it *)
| Thrown (f : Failure).

(** What is remembered of a call that got past [maybe_create_id]:
    the identifier, the mode, and how many times its statement has
    been executed.  Nothing in the steps reads it. *)
Record Call : Type := {
  c_uuid : Z;
  c_update : bool;
  c_sent : nat
}.

(** A thread: the calls it has still to make, each an atom and a
    height, the locals of the call it is in, and the calls it has
    made, the latest first. *)
Record Thread : Type := {
  t_pc : PC;
  t_todo : list (Atom * Z);
  t_atom : Atom;
  t_height : Z;
  t_uuid : Z;
  t_update : bool;
  t_cols : list (string * string);
  t_calls : list Call
}.

Record Config : Type := {
  shared : State;
  create_owner : option nat;
  threads : list Thread
}.

Definition at_pc (p : PC) (t : Thread) : Thread :=
  {| t_pc := p; t_todo := t_todo t; t_atom := t_atom t; t_height := t_height t;
     t_uuid := t_uuid t; t_update := t_update t; t_cols := t_cols t;
     t_calls := t_calls t |}.

Definition begin (h : Atom) (aheight : Z) (rest : list (Atom * Z)) (t : Thread) : Thread :=
  {| t_pc := t_pc t; t_todo := rest; t_atom := h; t_height := aheight;
     t_uuid := t_uuid t; t_update := t_update t; t_cols := t_cols t;
     t_calls := t_calls t |}.

Definition with_uuid (u : Z) (t : Thread) : Thread :=
  {| t_pc := t_pc t; t_todo := t_todo t; t_atom := t_atom t; t_height := t_height t;
     t_uuid := u; t_update := t_update t; t_cols := t_cols t;
     t_calls := t_calls t |}.

Definition with_mode (update : bool) (cols : list (string * string)) (t : Thread) : Thread :=
  {| t_pc := t_pc t; t_todo := t_todo t; t_atom := t_atom t; t_height := t_height t;
     t_uuid := t_uuid t; t_update := update; t_cols := cols;
     t_calls := {| c_uuid := t_uuid t; c_update := update; c_sent := 0 |} :: t_calls t |}.

Definition with_cols (cols : list (string * string)) (t : Thread) : Thread :=
  {| t_pc := t_pc t; t_todo := t_todo t; t_atom := t_atom t; t_height := t_height t;
     t_uuid := t_uuid t; t_update := t_update t; t_cols := cols;
     t_calls := t_calls t |}.

(** The statement of the call has been executed once more. *)
Definition executed (t : Thread) : Thread :=
  {| t_pc := t_pc t; t_todo := t_todo t; t_atom := t_atom t; t_height := t_height t;
     t_uuid := t_uuid t; t_update := t_update t; t_cols := t_cols t;
     t_calls := match t_calls t with
                | c :: rest => {| c_uuid := c_uuid c; c_update := c_update c;
                                  c_sent := S (c_sent c) |} :: rest
                | [] => []
                end |}.

(** [qry]: the statement of the call. *)
Definition statement (t : Thread) : Pg.Stmt :=
  if t_update t then Pg.UpdateAtoms (t_cols t) (to_string_u (t_uuid t))
  else Pg.Insert "Atoms" (t_cols t).

(** The lock [lck] goes out of scope: when it owns
    [id_create_mutex], which it does in insert mode, the mutex is
    free again. *)
Definition release (t : Thread) (owner : option nat) : option nat :=
  if t_update t then owner else None.

Section WithEnv.
Variable env : Env.

(** One step of the thread [me]: the thread, the shared state and
    the owner of [id_create_mutex] after it, or [None] when the
    thread has no step. *)
Definition thread_step (me : nat) (owner : option nat) (t : Thread) (s : State)
    : option (Thread * State * option nat) :=
  match t_pc t with
  | Idle =>
      match t_todo t with
      | [] => None
      | (h, aheight) :: rest =>
          let t := begin h aheight rest t in
          match setup_typemap env s with
          | (Ok _, s') => Some (at_pc AddAtom t, s', owner)
          | (Err f, s') => Some (at_pc (Thrown f) t, s', owner)
          end
      end
  | AddAtom =>
      match tlb_addAtom (t_atom t) INVALID_UUID s with
      | (Ok uuid, s') => Some (at_pc LockCreate (with_uuid uuid t), s', owner)
      | (Err f, s') => Some (at_pc (Thrown f) t, s', owner)
      end
  | LockCreate =>
      match owner with
      | None => Some (at_pc Examine t, s, Some me)
      | Some _ => None
      end
  | Examine =>
      match maybe_create_id (t_uuid t) s with
      | (Ok owns_lock, s') =>
          let update := negb owns_lock in
          let cols := if update then [] else STMT [] "uuid" (to_string_u (t_uuid t)) in
          Some (at_pc Count (with_mode update cols t), s',
                if update then None else owner)
      | (Err _, s') => Some (at_pc Blocked t, s', owner)
      end
  | Count =>
      match modify (count_store (t_height t =? 0) (t_update t)) s with
      | (Ok _, s') => Some (at_pc Columns t, s', owner)
      | (Err f, s') => Some (at_pc (Thrown f) t, s', release t owner)
      end
  | Columns =>
      match (if t_update t then ret (t_cols t)
             else first_time_columns env (t_cols t) (t_atom t) (t_height t)) s with
      | (Ok cols, s') => Some (at_pc Truth (with_cols cols t), s', owner)
      | (Err f, s') => Some (at_pc (Thrown f) t, s', release t owner)
      end
  | Truth =>
      match tv_columns env (t_cols t) (getTruthValue env (t_atom t)) s with
      | (Ok cols, s') => Some (at_pc Execute (with_cols cols t), s', owner)
      | (Err f, s') => Some (at_pc (Thrown f) t, s', release t owner)
      end
  | Execute =>
      match exec (statement t) s with
      | (Ok (Some _), s') => Some (at_pc AddToCache (executed t), s', owner)
      | (Ok None, s') => Some (at_pc StoreSpace (executed t), s', owner)
      | (Err f, s') => Some (at_pc (Thrown f) t, s', release t owner)
      end
  | StoreSpace =>
      match match getAtomTable env (t_atom t) with
            | Some at_ => store_atomtable_id at_
            | None => ret tt
            end s with
      | (Ok _, s') => Some (at_pc ExecuteAgain t, s', owner)
      | (Err f, s') => Some (at_pc (Thrown f) t, s', release t owner)
      end
  | ExecuteAgain =>
      match exec (statement t) s with
      | (Ok _, s') => Some (at_pc AddToCache (executed t), s', owner)
      | (Err f, s') => Some (at_pc (Thrown f) t, s', release t owner)
      end
  | AddToCache =>
      match add_id_to_cache (t_uuid t) s with
      | (Ok _, s') => Some (at_pc Finish t, s', owner)
      | (Err f, s') => Some (at_pc (Thrown f) t, s', release t owner)
      end
  | Finish =>
      match modify (fun s => with_counters (max_height s) (store_count s + 1)
                               (load_count s)
                               (num_node_inserts s) (num_node_updates s)
                               (num_link_inserts s) (num_link_updates s) s) s with
      | (Ok _, s') => Some (at_pc Idle t, s', release t owner)
      | (Err f, s') => Some (at_pc (Thrown f) t, s', release t owner)
      end
  | Blocked => None
  | Thrown _ => None
  end.

(** The thread [i] is given the processor: it makes its step, when
    it has one. *)
Definition step (i : nat) (c : Config) : Config :=
  match threads c !! i with
  | Some t =>
      match thread_step i (create_owner c) t (shared c) with
      | Some (t', s', owner') =>
          {| shared := s'; create_owner := owner'; threads := <[ i := t' ]> (threads c) |}
      | None => c
      end
  | None => c
  end.

(** A schedule: the threads that are given the processor, in
    order. *)
Definition run (sched : list nat) (c : Config) : Config :=
  fold_left (fun c i => step i c) sched c.

End WithEnv.

(** A thread that has made no call yet. *)
Definition thread_of (calls : list (Atom * Z)) : Thread :=
  {| t_pc := Idle; t_todo := calls; t_atom := Node 0 EmptyString; t_height := 0;
     t_uuid := 0; t_update := false; t_cols := []; t_calls := [] |}.

(** The threads at their start: the mutex is free. *)
Definition start (progs : list (list (Atom * Z))) (s : State) : Config :=
  {| shared := s; create_owner := None; threads := List.map thread_of progs |}.

(** Every thread has returned from its last call. *)
Definition returned (t : Thread) : bool :=
  match t_pc t, t_todo t with
  | Idle, [] => true
  | _, _ => false
  end.

Definition all_returned (c : Config) : bool := forallb returned (threads c).

End Threads.

(** ** Statements on tables with the column names the code uses *)

Module PgFacts.
Import CLib.

(** The five tables exist, with their columns under the names that
    the statements of the storage class use. *)
Definition standard (d : Pg.DB) : Prop := Pg.Columns d = Pg.standard_columns.

(** The statements other than CREATE and the INSERT without column
    names. *)
Definition plain_stmt (q : Pg.Stmt) : bool :=
  match q with
  | Pg.InsertRow _ _ | Pg.CreateTable _ _ | Pg.CreateIndex _ _ => false
  | _ => true
  end.

Lemma assoc_combine_same (l : list string) (n : string) :
  Pg.assoc n (combine l l) = if existsb (String.eqb n) l then Some n else None.
Proof.
  induction l as [|x l IH]; [reflexivity|]. cbn [combine Pg.assoc existsb].
  destruct (String.eqb_spec n x) as [->|_]; [reflexivity|]. exact IH.
Qed.

Lemma translate_same (l : list string) (cols : list (string * string)) :
  Pg.translate l l cols = if Pg.known_columns l cols then Some cols else None.
Proof.
  induction cols as [|[n v] cols IH]; [reflexivity|].
  cbn [Pg.translate Pg.known_columns forallb fst]. unfold Pg.to_canonical.
  rewrite assoc_combine_same. destruct (existsb (String.eqb n) l); [|reflexivity].
  rewrite IH. cbn [andb]. fold (Pg.known_columns l cols).
  destruct (Pg.known_columns l cols); reflexivity.
Qed.

Lemma rename_rows_same (l : list string) (rows : Pg.RecordSet) :
  Pg.rename_rows l l rows = rows.
Proof.
  unfold Pg.rename_rows. rewrite <- (List.map_id rows) at 2. apply List.map_ext.
  intros row. rewrite <- (List.map_id row) at 2. apply List.map_ext.
  intros [n v]. cbn [fst snd]. unfold Pg.to_declared. rewrite assoc_combine_same.
  destruct (existsb (String.eqb n) l); reflexivity.
Qed.

Lemma standard_lookup (table : string) :
  Pg.table_columns table Pg.standard_columns = Pg.canonical table.
Proof.
  unfold Pg.standard_columns, Pg.canonical. cbn [Pg.table_columns].
  rewrite !(String.eqb_sym _ table).
  repeat (destruct (String.eqb table _); [reflexivity|]). reflexivity.
Qed.

Lemma insert_into_unknown_table (table : string) cols d :
  Pg.canonical table = None -> Pg.insert_into table cols d = (None, d).
Proof.
  unfold Pg.canonical, Pg.insert_into.
  destruct (String.eqb table "Spaces"); [discriminate|].
  destruct (String.eqb table "Atoms"); [discriminate|].
  destruct (String.eqb table "Valuations"); [discriminate|].
  destruct (String.eqb table "Values"); [discriminate|].
  destruct (String.eqb table "TypeCodes"); [discriminate|]. reflexivity.
Qed.

Lemma canonical_cases (table : string) (canon : list string) :
  Pg.canonical table = Some canon ->
  (table = "Spaces" /\ canon = ["space"; "parent"])
  \/ (table = "Atoms" /\ canon = Pg.atom_columns)
  \/ (table = "Valuations" /\ canon = "key" :: "atom" :: Pg.value_columns)
  \/ (table = "Values" /\ canon = "vuid" :: Pg.value_columns)
  \/ (table = "TypeCodes" /\ canon = ["type"; "typename"]).
Proof.
  unfold Pg.canonical.
  destruct (String.eqb_spec table "Spaces"); [intros [= <-]; auto|].
  destruct (String.eqb_spec table "Atoms"); [intros [= <-]; auto|].
  destruct (String.eqb_spec table "Valuations"); [intros [= <-]; auto|].
  destruct (String.eqb_spec table "Values"); [intros [= <-]; auto 6|].
  destruct (String.eqb_spec table "TypeCodes"); [intros [= <-]; auto 6|].
  discriminate.
Qed.

Ltac close_strings := cbn [String.eqb Ascii.eqb Bool.eqb].

Lemma insert_into_unknown_column (table : string) canon cols d :
  Pg.canonical table = Some canon -> Pg.known_columns canon cols = false ->
  Pg.insert_into table cols d = (None, d).
Proof.
  intros Hc H.
  destruct (canonical_cases _ _ Hc) as [[-> ->]|[[-> ->]|[[-> ->]|[[-> ->]|[-> ->]]]]];
    unfold Pg.insert_into; close_strings; rewrite ?H; cbn [andb];
    repeat match goal with |- context [match ?x with _ => _ end] => destruct x end;
    reflexivity.
Qed.

Lemma delete_from_unknown_table (table : string) d :
  Pg.canonical table = None -> Pg.delete_from table d = (None, d).
Proof.
  unfold Pg.canonical, Pg.delete_from.
  destruct (String.eqb table "Spaces"); [discriminate|].
  destruct (String.eqb table "Atoms"); [discriminate|].
  destruct (String.eqb table "Valuations"); [discriminate|].
  destruct (String.eqb table "Values"); [discriminate|].
  destruct (String.eqb table "TypeCodes"); [discriminate|]. reflexivity.
Qed.

Lemma known_columns_tv (cols : list (string * string)) :
  Pg.known_columns Pg.atom_columns cols = false ->
  Pg.known_columns Pg.tv_columns cols = false.
Proof.
  unfold Pg.known_columns. induction cols as [|[n v] cols IH]; [discriminate|].
  cbn [forallb fst]. intros H. apply andb_false_iff in H as [H|H].
  - apply andb_false_iff. left.
    unfold Pg.atom_columns, Pg.tv_columns in *. cbn [existsb] in *.
    repeat match type of H with
           | (?a || ?b) = false => apply orb_false_iff in H as [? H]
           end.
    repeat match goal with H' : _ = false |- _ => rewrite H'; clear H' end. reflexivity.
  - apply andb_false_iff. right. apply IH, H.
Qed.

Lemma option_map_rename_same (l : list string) (rs : option Pg.RecordSet) :
  option_map (Pg.rename_rows l l) rs = rs.
Proof. destruct rs; [cbn; rewrite rename_rows_same|]; reflexivity. Qed.

Ltac eval_where :=
  cbn [Pg.where_columns];
  match goal with
  | |- context [forallb ?f ?l] =>
      let b := eval vm_compute in (forallb f l) in change (forallb f l) with b
  end; cbn iota.

Ltac on_table :=
  match goal with
  | |- context [Pg.canonical ?t] =>
      let c := eval vm_compute in (Pg.canonical t) in change (Pg.canonical t) with c
  end; cbn iota.

Ltac finish_std :=
  match goal with
  | |- context [Pg.exec_std ?q ?d] =>
      destruct (Pg.exec_std q d) as [rs d']; rewrite option_map_rename_same; reflexivity
  end.

(** On such tables a statement does what [exec_std]
    says. *)
Lemma exec_standard (q : Pg.Stmt) (d : Pg.DB) :
  standard d -> plain_stmt q = true -> Pg.exec q d = Pg.exec_std q d.
Proof.
  intros Hs Hp. unfold standard in Hs.
  destruct q; try discriminate Hp; try reflexivity;
    unfold Pg.exec; cbn [Pg.table_of]; rewrite Hs, standard_lookup.
  - (* Insert *)
    destruct (Pg.canonical table) as [canon|] eqn:Hc.
    + unfold Pg.prepare. cbn [Pg.where_columns forallb]. rewrite translate_same.
      destruct (Pg.known_columns canon cols) eqn:Hk; cbn [option_map].
      * finish_std.
      * cbn [Pg.exec_std]. rewrite (insert_into_unknown_column _ _ _ _ Hc Hk). reflexivity.
    + cbn [Pg.exec_std]. rewrite insert_into_unknown_table by exact Hc. reflexivity.
  - (* UpdateAtoms *)
    on_table. unfold Pg.prepare. eval_where. rewrite translate_same.
    destruct (Pg.known_columns _ cols) eqn:Hk; cbn [option_map].
    + finish_std.
    + cbn [Pg.exec_std]. rewrite (known_columns_tv _ Hk).
      destruct (Pg.sql_bigint uuid); reflexivity.
  - on_table. unfold Pg.prepare. eval_where. finish_std.
  - on_table. unfold Pg.prepare. eval_where. finish_std.
  - on_table. unfold Pg.prepare. eval_where. finish_std.
  - on_table. unfold Pg.prepare. eval_where. finish_std.
  - on_table. unfold Pg.prepare. eval_where. finish_std.
  - on_table. unfold Pg.prepare. cbn [Pg.where_columns forallb]. finish_std.
  - on_table. unfold Pg.prepare. eval_where. finish_std.
  - on_table. unfold Pg.prepare. eval_where. finish_std.
  - on_table. unfold Pg.prepare. eval_where. finish_std.
  - on_table. unfold Pg.prepare. eval_where. finish_std.
  - on_table. unfold Pg.prepare. eval_where. finish_std.
  - on_table. unfold Pg.prepare. eval_where. finish_std.
  - on_table. unfold Pg.prepare. eval_where. finish_std.
  - on_table. unfold Pg.prepare. eval_where. finish_std.
  - (* DeleteFrom *)
    destruct (Pg.canonical table) as [canon|] eqn:Hc.
    + unfold Pg.prepare. cbn [Pg.where_columns forallb]. finish_std.
    + cbn [Pg.exec_std]. rewrite delete_from_unknown_table by exact Hc. reflexivity.
Qed.

Ltac split_matches :=
  repeat match goal with
         | |- context [match ?x with _ => _ end] => destruct x
         | |- context [if ?b then _ else _] => destruct b
         end.

Lemma insert_into_columns table cols d :
  Pg.Columns (snd (Pg.insert_into table cols d)) = Pg.Columns d.
Proof. unfold Pg.insert_into. split_matches; reflexivity. Qed.

Lemma delete_from_columns table d :
  Pg.Columns (snd (Pg.delete_from table d)) = Pg.Columns d.
Proof. unfold Pg.delete_from. split_matches; reflexivity. Qed.

Lemma exec_std_columns (q : Pg.Stmt) (d : Pg.DB) :
  Pg.Columns (snd (Pg.exec_std q d)) = Pg.Columns d.
Proof.
  destruct q; cbn [Pg.exec_std];
    try apply insert_into_columns; try apply delete_from_columns;
    try reflexivity; split_matches; reflexivity.
Qed.

Lemma exec_standard_keeps (q : Pg.Stmt) (d : Pg.DB) :
  standard d -> plain_stmt q = true -> standard (snd (Pg.exec q d)).
Proof.
  intros Hs Hp. rewrite exec_standard by assumption. unfold standard.
  rewrite exec_std_columns. exact Hs.
Qed.
End PgFacts.

(** * Facts about the embedding *)

(** ** Running the storage monad *)

Module StorageFacts.
Import Storage.

Lemma bind_ok {A B : Type} (m : M A) (k : A -> M B) (s s' : State) (a : A) :
  m s = (Ok a, s') -> bind m k s = k a s'.
Proof. intros H. unfold bind. rewrite H. reflexivity. Qed.

Lemma bind_err {A B : Type} (m : M A) (k : A -> M B) (s s' : State) (f : Failure) :
  m s = (Err f, s') -> bind m k s = (Err f, s').
Proof. intros H. unfold bind. rewrite H. reflexivity. Qed.

Lemma bind_ret {A B : Type} (a : A) (k : A -> M B) (s : State) :
  bind (ret a) k s = k a s.
Proof. reflexivity. Qed.

Lemma bind_ret_l {A B : Type} (a : A) (k : A -> M B) : bind (ret a) k = k a.
Proof. reflexivity. Qed.

Lemma bind_get {B : Type} (k : State -> M B) (s : State) :
  bind get k s = k s s.
Proof. reflexivity. Qed.

Lemma bind_modify {B : Type} (f : State -> State) (k : unit -> M B) (s : State) :
  bind (modify f) k s = k tt (f s).
Proof. reflexivity. Qed.

Lemma bind_fail {A B : Type} (f : Failure) (k : A -> M B) (s : State) :
  bind (fail f) k s = (Err f, s).
Proof. reflexivity. Qed.

Lemma bind_assoc {A B C : Type} (m : M A) (k : A -> M B) (k' : B -> M C) (s : State) :
  bind (bind m k) k' s = bind m (fun a => bind (k a) k') s.
Proof. unfold bind. destruct (m s) as [[a|f] s1]; reflexivity. Qed.

Lemma bind_ext {A B : Type} (m : M A) (k k' : A -> M B) (s : State) :
  (forall a s1, k a s1 = k' a s1) -> bind m k s = bind m k' s.
Proof. intros H. unfold bind. destruct (m s) as [[a|f] s1]; [apply H|reflexivity]. Qed.

Lemma bind_cong {A B : Type} (m m' : M A) (k : A -> M B) (s : State) :
  m s = m' s -> bind m k s = bind m' k s.
Proof. intros H. unfold bind. rewrite H. reflexivity. Qed.

Lemma bind_ret_r {A : Type} (m : M A) (s : State) : bind m ret s = m s.
Proof. unfold bind. destruct (m s) as [[a|f] s1]; reflexivity. Qed.

Lemma bind_inv {A B : Type} (m : M A) (k : A -> M B) (s s' : State) (b : B) :
  bind m k s = (Ok b, s') ->
  exists a s1, m s = (Ok a, s1) /\ k a s1 = (Ok b, s').
Proof.
  unfold bind. destruct (m s) as [[a|f] s1]; intros H; [eauto|discriminate].
Qed.

Lemma exec_eq (q : Pg.Stmt) (s : State) :
  exec q s = (Ok (fst (Pg.exec q (db s))),
              with_db (snd (Pg.exec q (db s))) (sent s ++ [q]) s).
Proof. unfold exec. destruct (Pg.exec q (db s)). reflexivity. Qed.

Lemma bind_exec {B : Type} (q : Pg.Stmt) (k : option Pg.RecordSet -> M B) (s : State) :
  bind (exec q) k s
  = k (fst (Pg.exec q (db s))) (with_db (snd (Pg.exec q (db s))) (sent s ++ [q]) s).
Proof. apply bind_ok, exec_eq. Qed.

End StorageFacts.

(** ** Atoms and the identifier buffer *)

Module AtomFacts.
Import Atomspace.

(** Induction on an atom, with the property at hand for every atom
    of an outgoing set. *)
Lemma Atom_nested_ind (P : Atom -> Prop) :
  (forall t name, P (Node t name)) ->
  (forall t out, Forall P out -> P (Link t out)) ->
  forall a, P a.
Proof.
  intros HN HL. fix IH 1. intros [t name|t out].
  - apply HN.
  - apply HL. induction out as [|x out IHout]; constructor; [apply IH|exact IHout].
Qed.

Lemma atom_eqb_eq (a b : Atom) : atom_eqb a b = true <-> a = b.
Proof.
  revert b. induction a as [t name|t out IH] using Atom_nested_ind; intros [t' name'|t' out'];
    cbn [atom_eqb]; try (split; [discriminate|congruence]).
  - rewrite andb_true_iff, Z.eqb_eq, String.eqb_eq. split; [intros []; congruence|intros [= -> ->]; auto].
  - rewrite andb_true_iff, Z.eqb_eq.
    assert (Hl : (fix all2 (l l' : list Atom) : bool :=
                    match l, l' with
                    | [], [] => true
                    | x :: r, y :: r' => atom_eqb x y && all2 r r'
                    | _, _ => false
                    end) out out' = true <-> out = out').
    { revert out'. induction IH as [|x out Hx _ IHout]; intros [|y out'];
        try (split; [discriminate|congruence]); [tauto|].
      rewrite andb_true_iff, Hx, IHout. split; [intros []; congruence|intros [= -> ->]; auto]. }
    rewrite Hl. split; [intros []; congruence|intros [= -> ->]; auto].
Qed.

Lemma atom_eqb_refl (a : Atom) : atom_eqb a a = true.
Proof. apply atom_eqb_eq. reflexivity. Qed.

Lemma atom_eqb_neq (a b : Atom) : a <> b -> atom_eqb a b = false.
Proof.
  intros H. destruct (atom_eqb a b) eqn:E; [|reflexivity].
  apply atom_eqb_eq in E. contradiction.
Qed.

(** Every binding of [t] is a binding of [t']. *)
Definition tlb_le (t t' : TLB) : Prop :=
  forall a u, tlb_find a (tlb_bindings t) = Some u ->
              tlb_find a (tlb_bindings t') = Some u.

Lemma tlb_le_refl (t : TLB) : tlb_le t t.
Proof. intros a u H. exact H. Qed.

Lemma tlb_le_trans (t1 t2 t3 : TLB) : tlb_le t1 t2 -> tlb_le t2 t3 -> tlb_le t1 t3.
Proof. intros H1 H2 a u H. apply H2, H1, H. Qed.

Lemma addAtom_le (t : TLB) (h : Atom) (hint : Z) : tlb_le t (snd (addAtom t h hint)).
Proof.
  unfold addAtom. destruct (tlb_find h (tlb_bindings t)) as [u|] eqn:E; cbn.
  - apply tlb_le_refl.
  - intros a v H. cbn. destruct (atom_eqb h a) eqn:Ea; [|exact H].
    apply atom_eqb_eq in Ea. subst a. congruence.
Qed.

Lemma addAtom_bound (t : TLB) (h : Atom) (hint : Z) :
  tlb_find h (tlb_bindings (snd (addAtom t h hint))) = Some (fst (addAtom t h hint)).
Proof.
  unfold addAtom. destruct (tlb_find h (tlb_bindings t)) as [u|] eqn:E; cbn.
  - exact E.
  - rewrite atom_eqb_refl. reflexivity.
Qed.

End AtomFacts.

(** ** What a run adds to the log and to the identifier buffer *)

Module Frame.
Import Atomspace Storage AtomFacts StorageFacts PgFacts.

(** The database after the statements of [l], in this order. *)
Definition replay (l : list Pg.Stmt) (d : Pg.DB) : Pg.DB :=
  fold_left (fun d q => snd (Pg.exec q d)) l d.

Lemma replay_app (l1 l2 : list Pg.Stmt) (d : Pg.DB) :
  replay (l1 ++ l2) d = replay l2 (replay l1 d).
Proof. apply fold_left_app. Qed.

Section Grows.
(** What is allowed of a statement, given the bindings of the
    buffer when it is sent. *)
Variable Q : TLB -> Pg.Stmt -> Prop.
Hypothesis Q_mono : forall t t' q, tlb_le t t' -> Q t q -> Q t' q.

(** From [s] to [s'] the buffer has kept its bindings, the log
    has grown by statements that [Q] allows, and the database is
    what these statements have made of it. *)
Definition Grows (s s' : State) : Prop :=
  tlb_le (tlbuf s) (tlbuf s')
  /\ exists l, sent s' = (sent s ++ l)%list /\ Forall (Q (tlbuf s')) l
               /\ db s' = replay l (db s).

Lemma Grows_refl (s : State) : Grows s s.
Proof.
  split; [apply tlb_le_refl|]. exists []. rewrite app_nil_r. auto.
Qed.

Lemma Grows_same (s s' : State) :
  tlbuf s' = tlbuf s -> sent s' = sent s -> db s' = db s -> Grows s s'.
Proof.
  intros Ht Hs Hd. split; [rewrite Ht; apply tlb_le_refl|].
  exists []. rewrite app_nil_r. auto.
Qed.

Lemma Grows_tlb (s s' : State) :
  tlb_le (tlbuf s) (tlbuf s') -> sent s' = sent s -> db s' = db s -> Grows s s'.
Proof.
  intros Ht Hs Hd. split; [exact Ht|].
  exists []. rewrite app_nil_r. auto.
Qed.

Lemma Grows_trans (s1 s2 s3 : State) : Grows s1 s2 -> Grows s2 s3 -> Grows s1 s3.
Proof.
  intros [Ht1 (l1 & E1 & F1 & D1)] [Ht2 (l2 & E2 & F2 & D2)].
  split; [eapply tlb_le_trans; eassumption|].
  exists (l1 ++ l2)%list. split; [rewrite E2, E1, app_assoc; reflexivity|].
  split; [|rewrite replay_app, <- D1; exact D2].
  apply Forall_app. split; [|exact F2].
  eapply Forall_impl; [exact F1|]. intros q. apply Q_mono, Ht2.
Qed.

(** A run from a state whose buffer satisfies [P]: the state
    grows, and a result comes with [R] of the buffer it leaves. *)
Definition Run {A : Type} (P : TLB -> Prop) (m : M A) (R : A -> TLB -> Prop) : Prop :=
  forall s, P (tlbuf s) ->
            Grows s (snd (m s))
            /\ forall a, fst (m s) = Ok a -> R a (tlbuf (snd (m s))).

Lemma Run_conseq {A : Type} (P P' : TLB -> Prop) (R R' : A -> TLB -> Prop) (m : M A) :
  Run P m R -> (forall t, P' t -> P t) -> (forall a t, R a t -> R' a t) -> Run P' m R'.
Proof.
  intros H HP HR s Hs. destruct (H s (HP _ Hs)) as [G Hr]. split; [exact G|].
  intros a E. apply HR, Hr, E.
Qed.

Lemma Run_ret {A : Type} (P : TLB -> Prop) (a : A) : Run P (ret a) (fun a' t => a' = a /\ P t).
Proof.
  intros s Hs. split; [apply Grows_refl|]. cbn. intros a' [= <-]. auto.
Qed.

Lemma Run_ret_frame {A : Type} (P : TLB -> Prop) (a : A) :
  Run P (ret a) (fun _ t => P t).
Proof. intros s Hs. split; [apply Grows_refl|]. intros; exact Hs. Qed.

Lemma Run_fail {A : Type} (P : TLB -> Prop) (f : Failure) (R : A -> TLB -> Prop) :
  Run P (fail f) R.
Proof. intros s Hs. split; [apply Grows_refl|]. cbn. discriminate. Qed.

Lemma Run_bind {A B : Type} (P : TLB -> Prop) (R : A -> TLB -> Prop)
    (R' : B -> TLB -> Prop) (m : M A) (k : A -> M B) :
  Run P m R -> (forall a, Run (R a) (k a) R') -> Run P (bind m k) R'.
Proof.
  intros Hm Hk s Hs. destruct (Hm s Hs) as [G Hr]. unfold bind.
  destruct (m s) as [[a|f] s1]; cbn in *.
  - destruct (Hk a s1 (Hr a eq_refl)) as [G' Hr'].
    split; [eapply Grows_trans; eassumption|exact Hr'].
  - split; [exact G|discriminate].
Qed.

Lemma Run_assume {A : Type} (P0 : Prop) (P : TLB -> Prop) (m : M A)
    (R : A -> TLB -> Prop) :
  (P0 -> Run P m R) -> Run (fun t => P0 /\ P t) m R.
Proof. intros H s [H0 Hs]. apply (H H0), Hs. Qed.

Lemma Run_bind_pure {A B : Type} (P : TLB -> Prop) (R0 : A -> Prop)
    (R' : B -> TLB -> Prop) (m : M A) (k : A -> M B) :
  Run P m (fun a _ => R0 a) ->
  (forall a, R0 a -> Run (fun _ => True) (k a) R') ->
  Run P (bind m k) R'.
Proof.
  intros Hm Hk. eapply Run_bind; [exact Hm|].
  intros a s Hs. apply (Hk a Hs s I).
Qed.

(** A property of the buffer that more bindings do not undo. *)
Definition stable (P : TLB -> Prop) : Prop :=
  forall t t', tlb_le t t' -> P t -> P t'.

Lemma Run_frame {A : Type} (P P' : TLB -> Prop) (R : A -> TLB -> Prop) (m : M A) :
  stable P' -> Run P m R -> Run (fun t => P t /\ P' t) m (fun a t => R a t /\ P' t).
Proof.
  intros HP H s [Hs Hs']. destruct (H s Hs) as [G Hr]. split; [exact G|].
  intros a E. split; [apply Hr, E|]. eapply HP; [apply G|exact Hs'].
Qed.

Lemma Run_exec (P : TLB -> Prop) (q : Pg.Stmt) :
  (forall t, P t -> Q t q) -> Run P (exec q) (fun _ t => P t).
Proof.
  intros HQ s Hs. rewrite exec_eq. cbn. split; [|intros; exact Hs].
  split; [apply tlb_le_refl|]. exists [q]. split; [reflexivity|].
  split; [|reflexivity]. constructor; [apply HQ, Hs|constructor].
Qed.

End Grows.

Lemma Grows_weaken (Q Q' : TLB -> Pg.Stmt -> Prop) (s s' : State) :
  (forall t q, Q t q -> Q' t q) -> Grows Q s s' -> Grows Q' s s'.
Proof.
  intros H [Ht (l & E & F & D)]. split; [exact Ht|]. exists l. split; [exact E|].
  split; [|exact D]. eapply Forall_impl; [exact F|]. intros q. apply H.
Qed.

Lemma Run_weaken {A : Type} (Q Q' : TLB -> Pg.Stmt -> Prop) (P : TLB -> Prop)
    (R : A -> TLB -> Prop) (m : M A) :
  (forall t q, Q t q -> Q' t q) -> Run Q P m R -> Run Q' P m R.
Proof.
  intros H Hm s Hs. destruct (Hm s Hs) as [G Hr]. split; [|exact Hr].
  eapply Grows_weaken; eassumption.
Qed.

(** *** Runs that send no INSERT into Atoms *)

Definition is_atoms_insert (q : Pg.Stmt) : bool :=
  match q with
  | Pg.Insert table _ => String.eqb table "Atoms"
  | _ => false
  end.

Definition quiet (_ : TLB) (q : Pg.Stmt) : Prop :=
  is_atoms_insert q = false /\ plain_stmt q = true.

Lemma quiet_mono t t' q : tlb_le t t' -> quiet t q -> quiet t' q.
Proof. intros _ H. exact H. Qed.

Definition Quiet {A : Type} (m : M A) : Prop := forall s, Grows quiet s (snd (m s)).

Lemma Quiet_Run {A : Type} (m : M A) :
  Quiet m <-> Run quiet (fun _ => True) m (fun _ _ => True).
Proof.
  split.
  - intros H s _. split; [apply H|auto].
  - intros H s. apply (H s I).
Qed.

Lemma Quiet_ret {A : Type} (a : A) : Quiet (ret a).
Proof. intros s. apply Grows_refl. Qed.

Lemma Quiet_fail {A : Type} (f : Failure) : Quiet (@fail A f).
Proof. intros s. apply Grows_refl. Qed.

Lemma Quiet_get : Quiet get.
Proof. intros s. apply Grows_refl. Qed.

Lemma Quiet_modify (f : State -> State) :
  (forall s, tlbuf (f s) = tlbuf s) -> (forall s, sent (f s) = sent s) ->
  (forall s, db (f s) = db s) -> Quiet (modify f).
Proof. intros Ht Hs Hd s. apply Grows_same; cbn; auto. Qed.

Lemma Quiet_bind {A B : Type} (m : M A) (k : A -> M B) :
  Quiet m -> (forall a, Quiet (k a)) -> Quiet (bind m k).
Proof.
  intros Hm Hk s. unfold bind. specialize (Hm s).
  destruct (m s) as [[a|f] s1]; cbn in *; [|exact Hm].
  eapply Grows_trans; [apply quiet_mono|exact Hm|apply Hk].
Qed.

Lemma Quiet_exec (q : Pg.Stmt) :
  is_atoms_insert q = false -> plain_stmt q = true -> Quiet (exec q).
Proof.
  intros H Hp s. rewrite exec_eq. cbn. split; [apply tlb_le_refl|].
  exists [q]. split; [reflexivity|]. split; [|reflexivity].
  constructor; [split; assumption|constructor].
Qed.

Lemma quiet_no_insert (t : TLB) (l : list Pg.Stmt) :
  Forall (quiet t) l -> Forall (fun q => is_atoms_insert q = false) l.
Proof. intros H. eapply Forall_impl; [exact H|]. intros q [Hq _]. exact Hq. Qed.

(** The statements of a run keep the tables and their column names when
    they create none. *)
Lemma replay_standard (l : list Pg.Stmt) :
  forall d, Forall (fun q => plain_stmt q = true) l -> standard d -> standard (replay l d).
Proof.
  induction l as [|q l IH]; intros d Hl Hs; [exact Hs|].
  apply Forall_cons in Hl. destruct Hl as [Hq Hl]. cbn [replay fold_left].
  apply IH; [exact Hl|]. apply exec_standard_keeps; assumption.
Qed.

Lemma Grows_standard (Q : TLB -> Pg.Stmt -> Prop) (s s' : State) :
  (forall t q, Q t q -> plain_stmt q = true) ->
  Grows Q s s' -> standard (db s) -> standard (db s').
Proof.
  intros HQ [_ (l & _ & F & D)] Hs. rewrite D. apply replay_standard; [|exact Hs].
  eapply Forall_impl; [exact F|]. intros q. apply HQ.
Qed.

Lemma Quiet_read {A : Type} (field : option A) (what : string) : Quiet (read field what).
Proof. destruct field; [apply Quiet_ret|apply Quiet_fail]. Qed.

Lemma Quiet_foreach_row {R : Type} (rs : option Pg.RecordSet) (cb : R -> Pg.Row -> R)
    (rp : R) : Quiet (foreach_row rs cb rp).
Proof. destruct rs; [apply Quiet_ret|apply Quiet_fail]. Qed.

Lemma Quiet_for_each {A : Type} (l : list A) (body : A -> M unit) :
  (forall a, Quiet (body a)) -> Quiet (for_each l body).
Proof.
  intros H. induction l as [|a l IH]; cbn [for_each]; [apply Quiet_ret|].
  apply Quiet_bind; [apply H|intros _; exact IH].
Qed.

Lemma Quiet_frame {A : Type} (Q : TLB -> Pg.Stmt -> Prop) (P : TLB -> Prop) (m : M A) :
  (forall t q, quiet t q -> Q t q) -> stable P -> Quiet m ->
  Run Q P m (fun _ t => P t).
Proof.
  intros HQ HP H s Hs. specialize (H s). split.
  - eapply Grows_weaken; [exact HQ|exact H].
  - intros _ _. eapply HP; [apply H|exact Hs].
Qed.

Lemma Quiet_any {A : Type} (Q : TLB -> Pg.Stmt -> Prop) (P : TLB -> Prop) (m : M A) :
  (forall t q, quiet t q -> Q t q) -> Quiet m -> Run Q P m (fun _ _ => True).
Proof.
  intros HQ H s _. split; [|auto]. eapply Grows_weaken; [exact HQ|apply H].
Qed.

Lemma Run_result {A : Type} (Q : TLB -> Pg.Stmt -> Prop) (P : TLB -> Prop)
    (R0 : A -> TLB -> Prop) (R : A -> Prop) (m : M A) :
  Run Q P m R0 -> (forall s a s', m s = (Ok a, s') -> R a) ->
  Run Q P m (fun a t => R0 a t /\ R a).
Proof.
  intros H HR s Hs. destruct (H s Hs) as [G Hr]. split; [exact G|].
  intros a E. split; [apply Hr, E|].
  apply (HR s a (snd (m s))). destruct (m s) as [r s']. cbn in *. congruence.
Qed.

Lemma stable_True : stable (fun _ => True).
Proof. intros t t' _ _. exact I. Qed.

Lemma stable_bound (h : Atom) (u : Z) :
  stable (fun t => tlb_find h (tlb_bindings t) = Some u).
Proof. intros t t' H. apply H. Qed.

(** One step of a proof that a run is quiet. *)
Ltac quiet_step :=
  lazymatch goal with
  | |- Quiet (bind _ _) => apply Quiet_bind; [|intros ?]
  | |- Quiet (ret _) => apply Quiet_ret
  | |- Quiet (fail _) => apply Quiet_fail
  | |- Quiet get => apply Quiet_get
  | |- Quiet (modify _) => apply Quiet_modify; intros; reflexivity
  | |- Quiet (exec _) => apply Quiet_exec; reflexivity
  | |- Quiet (read _ _) => apply Quiet_read
  | |- Quiet (foreach_row _ _ _) => apply Quiet_foreach_row
  | |- Quiet (for_each _ _) => apply Quiet_for_each; intros ?
  | |- Quiet (if ?b then _ else _) => destruct b
  | |- Quiet (match ?x with _ => _ end) => destruct x
  end.

Ltac quiet := repeat quiet_step.

End Frame.

(** ** What the statements of a run do to the tables *)

Module PgRows.
Import CLib Atomspace Storage.
Import StorageFacts AtomFacts Frame PgFacts.

(** A property of the tables that every statement of a run keeps
    holds at its end. *)
Lemma replay_keeps (I : Pg.DB -> Prop) (Q : Pg.Stmt -> Prop) (l : list Pg.Stmt) :
  (forall q d, Q q -> I d -> I (snd (Pg.exec q d))) ->
  forall d, Forall Q l -> I d -> I (replay l d).
Proof.
  intros HQ. induction l as [|q l IH]; intros d Hl Hd; [exact Hd|].
  apply Forall_cons in Hl. destruct Hl as [Hq Hl]. cbn [replay fold_left].
  apply IH; [exact Hl|]. apply HQ; assumption.
Qed.

Lemma Grows_keeps (I : Pg.DB -> Prop) (Q : TLB -> Pg.Stmt -> Prop) (s s' : State) :
  (forall t q d, Q t q -> I d -> I (snd (Pg.exec q d))) ->
  Grows Q s s' -> I (db s) -> I (db s').
Proof.
  intros HQ [_ (l & _ & F & D)] Hd. rewrite D.
  apply (replay_keeps I (Q (tlbuf s'))); [apply HQ|exact F|exact Hd].
Qed.

(** *** The names of the columns *)

Lemma exec_plain_columns (q : Pg.Stmt) (d : Pg.DB) :
  plain_stmt q = true -> Pg.Columns (snd (Pg.exec q d)) = Pg.Columns d.
Proof.
  intros Hp. unfold Pg.exec.
  destruct q; try discriminate Hp; try apply exec_std_columns;
    (destruct (Pg.table_of _); [|reflexivity];
     destruct (Pg.table_columns _ _); [|reflexivity];
     destruct (Pg.canonical _); [|reflexivity];
     destruct (Pg.prepare _ _ _) as [q'|]; [|reflexivity];
     pose proof (exec_std_columns q' d) as H;
     destruct (Pg.exec_std q' d); exact H).
Qed.

(** *** A table of atoms without rows *)

Lemma insert_into_other (table : string) cols d :
  String.eqb table "Atoms" = false ->
  Pg.Atoms (snd (Pg.insert_into table cols d)) = Pg.Atoms d.
Proof.
  intros H. unfold Pg.insert_into. rewrite H. split_matches; reflexivity.
Qed.

Lemma delete_from_no_atoms (table : string) d :
  Pg.Atoms d = ∅ -> Pg.Atoms (snd (Pg.delete_from table d)) = ∅.
Proof.
  intros H. unfold Pg.delete_from. split_matches; cbn; try exact H; reflexivity.
Qed.

Lemma exec_std_no_atoms (q : Pg.Stmt) (d : Pg.DB) :
  is_atoms_insert q = false -> Pg.Atoms d = ∅ -> Pg.Atoms (snd (Pg.exec_std q d)) = ∅.
Proof.
  intros Hq Hd. destruct q; cbn [Pg.exec_std snd]; try exact Hd.
  - rewrite insert_into_other by exact Hq. exact Hd.
  - destruct (Pg.sql_bigint uuid) as [u|]; [|exact Hd].
    destruct (Pg.known_columns _ _); [|exact Hd].
    rewrite Hd, lookup_empty. destruct (Pg.update_atom_row _ _); exact Hd.
  - destruct (Pg.sql_dollar_literal _); exact Hd.
  - destruct (Pg.bigint_array_in _); exact Hd.
  - apply delete_from_no_atoms, Hd.
Qed.

Lemma prepare_kind (declared canon : list string) (q q' : Pg.Stmt) :
  plain_stmt q = true -> Pg.prepare declared canon q = Some q' ->
  is_atoms_insert q' = is_atoms_insert q.
Proof.
  unfold Pg.prepare. intros Hp H. destruct (forallb _ _); [|discriminate].
  destruct q; try discriminate Hp; try (injection H as <-; reflexivity).
  - destruct (Pg.translate _ _ _); [|discriminate]. injection H as <-. reflexivity.
  - destruct (Pg.translate _ _ _); [|discriminate]. injection H as <-. reflexivity.
Qed.

(** No statement other than an INSERT into Atoms gives the table
    its first row. *)
Lemma exec_no_atoms (q : Pg.Stmt) (d : Pg.DB) :
  is_atoms_insert q = false -> plain_stmt q = true ->
  Pg.Atoms d = ∅ -> Pg.Atoms (snd (Pg.exec q d)) = ∅.
Proof.
  intros Hq Hp Hd. unfold Pg.exec.
  destruct q; try discriminate Hp; try exact Hd;
    (destruct (Pg.table_of _); [|exact Hd];
     destruct (Pg.table_columns _ _) as [declared|]; [|exact Hd];
     destruct (Pg.canonical _) as [canon|]; [|exact Hd];
     destruct (Pg.prepare _ _ _) as [q'|] eqn:E; [|exact Hd];
     pose proof (prepare_kind _ _ _ _ Hp E) as Hk; rewrite Hq in Hk;
     pose proof (exec_std_no_atoms q' d Hk Hd) as H;
     destruct (Pg.exec_std q' d); exact H).
Qed.

(** *** Columns that the table does not have *)

Lemma translate_undeclared (declared canon : list string) (c : string)
    (cols : list (string * string)) :
  In c (List.map fst cols) -> Pg.to_canonical declared canon c = None ->
  Pg.translate declared canon cols = None.
Proof.
  intros Hin Hc. induction cols as [|[n v] cols IH]; [destruct Hin|].
  cbn [Pg.translate]. destruct Hin as [<-|Hin].
  - cbn [fst] in Hc. rewrite Hc. reflexivity.
  - rewrite (IH Hin). destruct (Pg.to_canonical declared canon n); reflexivity.
Qed.

(** An INSERT or an UPDATE that names a column which the table was
    not created with is refused, and changes nothing. *)
Lemma insert_undeclared (table : string) (cols : list (string * string)) (d : Pg.DB)
    (declared canon : list string) (c : string) :
  Pg.table_columns table (Pg.Columns d) = Some declared ->
  Pg.canonical table = Some canon ->
  In c (List.map fst cols) -> Pg.to_canonical declared canon c = None ->
  Pg.exec (Pg.Insert table cols) d = (None, d).
Proof.
  intros Ht Hc Hin Hn. unfold Pg.exec. cbn [Pg.table_of]. rewrite Ht, Hc.
  unfold Pg.prepare. cbn [Pg.where_columns forallb].
  rewrite (translate_undeclared _ _ _ _ Hin Hn). reflexivity.
Qed.

Lemma update_undeclared (cols : list (string * string)) (uuid : string) (d : Pg.DB)
    (declared : list string) (c : string) :
  Pg.table_columns "Atoms" (Pg.Columns d) = Some declared ->
  In c (List.map fst cols) -> Pg.to_canonical declared Pg.atom_columns c = None ->
  Pg.exec (Pg.UpdateAtoms cols uuid) d = (None, d).
Proof.
  intros Ht Hin Hn. unfold Pg.exec. cbn [Pg.table_of]. rewrite Ht.
  change (Pg.canonical "Atoms") with (Some Pg.atom_columns). cbv iota.
  unfold Pg.prepare. destruct (forallb _ _); [|reflexivity].
  rewrite (translate_undeclared _ _ _ _ Hin Hn). reflexivity.
Qed.
End PgRows.

(** ** The methods that send no INSERT into Atoms *)

Module QuietRuns.
Import CLib Double Atomspace Storage Response Codec TypeMap IdCache AtomStore.
Import AtomFacts StorageFacts Frame.

Section WithEnv.
Variable env : Env.

Lemma Quiet_set_typemap dbval tname : Quiet (set_typemap env dbval tname).
Proof. unfold set_typemap. quiet. Qed.

Lemma Quiet_type_rows rows : forall rp, Quiet (type_rows env rows rp).
Proof.
  induction rows as [|row rows IH]; intros rp; cbn [type_rows]; quiet.
  - apply Quiet_set_typemap.
  - apply IH.
Qed.

Lemma Quiet_register_type t : Quiet (register_type env t).
Proof. unfold register_type. quiet. apply Quiet_set_typemap. Qed.

Lemma Quiet_setup_typemap : Quiet (setup_typemap env).
Proof.
  unfold setup_typemap. quiet.
  - apply Quiet_type_rows.
  - apply Quiet_register_type.
Qed.

Lemma Quiet_tlb_addAtom h hint : Quiet (tlb_addAtom h hint).
Proof.
  intros s. unfold tlb_addAtom. rewrite bind_get.
  pose proof (addAtom_le (tlbuf s) h hint) as H.
  destruct (addAtom (tlbuf s) h hint) as [u t]. cbn in *.
  apply Grows_tlb; [exact H|reflexivity|reflexivity].
Qed.

Lemma Quiet_add_id_to_cache u : Quiet (add_id_to_cache u).
Proof. unfold add_id_to_cache. quiet. Qed.

Lemma Quiet_maybe_create_id u : Quiet (maybe_create_id u).
Proof. unfold maybe_create_id. quiet. Qed.

Lemma Quiet_store_atomtable_id at_ : Quiet (store_atomtable_id at_).
Proof.
  revert at_. fix IH 1. intros [tab_id environ].
  cbn [store_atomtable_id]. quiet. apply IH.
Qed.

Lemma Quiet_read_outlist fuel : forall p oset, Quiet (read_outlist fuel p oset).
Proof.
  induction fuel as [|fuel IH]; intros p oset; cbn [read_outlist]; quiet.
  destruct (strtoul (tail p)). apply IH.
Qed.

Lemma Quiet_makeAtom rp u : Quiet (makeAtom env rp u).
Proof.
  unfold makeAtom. quiet; try apply Quiet_read_outlist; apply Quiet_add_id_to_cache.
Qed.

Lemma Quiet_getAtom q hgt :
  is_atoms_insert q = false -> PgFacts.plain_stmt q = true -> Quiet (getAtom env q hgt).
Proof.
  intros H Hp. unfold getAtom. apply Quiet_bind; [apply Quiet_exec; assumption|intros rs].
  quiet. apply Quiet_makeAtom.
Qed.

Lemma Quiet_doGetNode t str : Quiet (doGetNode env t str).
Proof.
  unfold doGetNode. quiet.
  - apply Quiet_setup_typemap.
  - apply Quiet_getAtom; reflexivity.
  - apply Quiet_tlb_addAtom.
Qed.

Lemma Quiet_get_uuid h : Quiet (get_uuid env h).
Proof.
  induction h as [t name|t out IH] using Atom_nested_ind; cbn [get_uuid]; quiet;
    try apply Quiet_doGetNode; try apply Quiet_tlb_addAtom;
    try apply Quiet_setup_typemap; try (apply Quiet_getAtom; reflexivity).
  match goal with |- Quiet (?f _ _ out) =>
    assert (H : forall b str, Quiet (f b str out)); [|apply H] end.
  induction IH as [|x out Hx _ IHout]; intros b str; quiet.
  - exact Hx.
  - apply IHout.
Qed.

Lemma Quiet_oset_elements l : forall b str, Quiet (oset_elements env b str l).
Proof.
  induction l as [|h l IH]; intros b str; cbn [oset_elements]; quiet.
  - apply Quiet_get_uuid.
  - apply IH.
Qed.

Lemma Quiet_oset_to_string l : Quiet (oset_to_string env l).
Proof. unfold oset_to_string. quiet. apply Quiet_oset_elements. Qed.

Lemma Quiet_first_time_columns cols h aheight :
  Quiet (first_time_columns env cols h aheight).
Proof. unfold first_time_columns. quiet. apply Quiet_oset_to_string. Qed.

Lemma Quiet_tv_columns cols tv : Quiet (tv_columns env cols tv).
Proof. unfold tv_columns. quiet. Qed.

(** The values *)

Lemma Value_nested_ind (P : Value -> Prop) :
  (forall v, P (FloatValue v)) ->
  (forall v, P (StringValue v)) ->
  (forall v, Forall P v -> P (LinkValue v)) ->
  forall v, P v.
Proof.
  intros HF HS HL. fix IH 1. intros [v|v|v]; [apply HF|apply HS|].
  apply HL. induction v as [|x v IHv]; constructor; [apply IH|exact IHv].
Qed.

Lemma Quiet_storeValue pap : Quiet (storeValue env pap).
Proof.
  induction pap as [v|v|v IH] using Value_nested_ind; cbn [storeValue]; quiet.
  match goal with |- Quiet (?f _ _ v) =>
    assert (H : forall b str, Quiet (f b str v)); [|apply H] end.
  induction IH as [|x v Hx _ IHv]; intros b str; quiet.
  - exact Hx.
  - apply IHv.
Qed.

Lemma Quiet_link_elements l : forall b str, Quiet (link_elements env b str l).
Proof.
  induction l as [|h l IH]; intros b str; cbn [link_elements]; quiet.
  - apply Quiet_storeValue.
  - apply IH.
Qed.

Lemma Quiet_link_to_string l : Quiet (link_to_string env l).
Proof. unfold link_to_string. quiet. apply Quiet_link_elements. Qed.

Lemma Quiet_each_vuid {A : Type} (body : Z -> M A) :
  (forall u, Quiet (body u)) ->
  forall fuel p acc, Quiet (each_vuid fuel p body acc).
Proof.
  intros H. induction fuel as [|fuel IH]; intros p acc; cbn [each_vuid]; quiet.
  - apply H.
  - apply IH.
Qed.

Lemma Quiet_deleteValue fuel : forall u, Quiet (deleteValue env fuel u).
Proof.
  induction fuel as [|fuel IH]; intros u; cbn [deleteValue]; quiet.
  apply Quiet_each_vuid, IH.
Qed.

Lemma Quiet_deleteValuation fuel key atom : Quiet (deleteValuation env fuel key atom).
Proof.
  unfold deleteValuation. quiet.
  apply Quiet_each_vuid, Quiet_deleteValue.
Qed.

Lemma Quiet_storeValuation fuel key atom pap :
  Quiet (storeValuation env fuel key atom pap).
Proof.
  unfold storeValuation. quiet; try apply Quiet_deleteValuation.
  apply Quiet_link_to_string.
Qed.

Lemma Quiet_store_atom_values fuel atom : Quiet (store_atom_values env fuel atom).
Proof. unfold store_atom_values. quiet. apply Quiet_storeValuation. Qed.

End WithEnv.
End QuietRuns.

(** ** The methods that leave the identifiers alone *)

Module IdFrame.
Import CLib Double Atomspace Storage Response Codec TypeMap IdCache AtomStore.
Import StorageFacts.

(** The identifier buffer, the two identifier caches and the
    counter of the values are the same in [s'] as in [s]. *)
Definition same_ids (s s' : State) : Prop :=
  tlbuf s' = tlbuf s
  /\ local_id_cache s' = local_id_cache s
  /\ id_create_cache s' = id_create_cache s
  /\ next_valid s' = next_valid s.

Lemma same_ids_refl (s : State) : same_ids s s.
Proof. repeat split. Qed.

Lemma same_ids_trans (s1 s2 s3 : State) : same_ids s1 s2 -> same_ids s2 s3 -> same_ids s1 s3.
Proof. unfold same_ids. intros (?&?&?&?) (?&?&?&?). repeat split; congruence. Qed.

Definition Keeps {A : Type} (m : M A) : Prop := forall s, same_ids s (snd (m s)).

Lemma Keeps_ret {A : Type} (a : A) : Keeps (ret a).
Proof. intros s. apply same_ids_refl. Qed.

Lemma Keeps_fail {A : Type} (f : Failure) : Keeps (@fail A f).
Proof. intros s. apply same_ids_refl. Qed.

Lemma Keeps_get : Keeps get.
Proof. intros s. apply same_ids_refl. Qed.

Lemma Keeps_modify (f : State -> State) : (forall s, same_ids s (f s)) -> Keeps (modify f).
Proof. intros H s. apply H. Qed.

Lemma Keeps_bind {A B : Type} (m : M A) (k : A -> M B) :
  Keeps m -> (forall a, Keeps (k a)) -> Keeps (bind m k).
Proof.
  intros Hm Hk s. unfold bind. specialize (Hm s).
  destruct (m s) as [[a|f] s1]; cbn in *; [|exact Hm].
  eapply same_ids_trans; [exact Hm|apply Hk].
Qed.

Lemma Keeps_exec (q : Pg.Stmt) : Keeps (exec q).
Proof. intros s. rewrite exec_eq. repeat split. Qed.

Lemma Keeps_read {A : Type} (field : option A) (what : string) : Keeps (read field what).
Proof. destruct field; [apply Keeps_ret|apply Keeps_fail]. Qed.

Lemma Keeps_foreach_row {R : Type} (rs : option Pg.RecordSet) (cb : R -> Pg.Row -> R)
    (rp : R) : Keeps (foreach_row rs cb rp).
Proof. destruct rs; [apply Keeps_ret|apply Keeps_fail]. Qed.

Lemma Keeps_for_each {A : Type} (l : list A) (body : A -> M unit) :
  (forall a, Keeps (body a)) -> Keeps (for_each l body).
Proof.
  intros H. induction l as [|a l IH]; cbn [for_each]; [apply Keeps_ret|].
  apply Keeps_bind; [apply H|intros _; exact IH].
Qed.

Ltac keeps_step :=
  lazymatch goal with
  | |- Keeps (bind _ _) => apply Keeps_bind; [|intros ?]
  | |- Keeps (ret _) => apply Keeps_ret
  | |- Keeps (fail _) => apply Keeps_fail
  | |- Keeps get => apply Keeps_get
  | |- Keeps (modify _) => apply Keeps_modify; intros; repeat split
  | |- Keeps (exec _) => apply Keeps_exec
  | |- Keeps (read _ _) => apply Keeps_read
  | |- Keeps (foreach_row _ _ _) => apply Keeps_foreach_row
  | |- Keeps (for_each _ _) => apply Keeps_for_each; intros ?
  | |- Keeps (if ?b then _ else _) => destruct b
  | |- Keeps (match ?x with _ => _ end) => destruct x
  end.

Ltac keeps := repeat keeps_step.

Section WithEnv.
Variable env : Env.

Lemma Keeps_set_typemap dbval tname : Keeps (set_typemap env dbval tname).
Proof. unfold set_typemap. keeps. Qed.

Lemma Keeps_type_rows rows : forall rp, Keeps (type_rows env rows rp).
Proof.
  induction rows as [|row rows IH]; intros rp; cbn [type_rows]; keeps.
  - apply Keeps_set_typemap.
  - apply IH.
Qed.

Lemma Keeps_register_type t : Keeps (register_type env t).
Proof. unfold register_type. keeps. apply Keeps_set_typemap. Qed.

Lemma Keeps_setup_typemap : Keeps (setup_typemap env).
Proof.
  unfold setup_typemap. keeps.
  - apply Keeps_type_rows.
  - apply Keeps_register_type.
Qed.

Lemma Keeps_store_atomtable_id at_ : Keeps (store_atomtable_id at_).
Proof.
  revert at_. fix IH 1. intros [tab_id environ] s.
  cbn [store_atomtable_id]. rewrite bind_get.
  destruct (bool_decide _); [apply same_ids_refl|]. rewrite bind_modify.
  eapply same_ids_trans; [|apply Keeps_bind; [|intros ?]]; [repeat split| |keeps].
  destruct environ as [env_|]; keeps. apply IH.
Qed.


Lemma Keeps_execute_with_retry h qry : Keeps (execute_with_retry env h qry).
Proof. unfold execute_with_retry. keeps; apply Keeps_store_atomtable_id. Qed.

Lemma setup_typemap_loaded (s s' : State) :
  setup_typemap env s = (Ok tt, s') -> type_map_was_loaded s' = true.
Proof.
  unfold setup_typemap. rewrite bind_get.
  destruct (type_map_was_loaded s) eqn:E.
  - intros [= <-]. exact E.
  - intros H. repeat (apply bind_inv in H; destruct H as (? & ? & ? & H)).
    injection H as <-. reflexivity.
Qed.

Lemma setup_typemap_again (s : State) :
  type_map_was_loaded s = true -> setup_typemap env s = (Ok tt, s).
Proof. intros H. unfold setup_typemap. rewrite bind_get, H. reflexivity. Qed.

End WithEnv.
End IdFrame.

(** ** How a method can fail *)

Module FailureKinds.
Import CLib Double Atomspace Storage Response Codec TypeMap IdCache AtomStore.
Import StorageFacts.

(** Every failure of [m] satisfies [P]. *)
Definition Fails {A : Type} (P : Failure -> Prop) (m : M A) : Prop :=
  forall s f s', m s = (Err f, s') -> P f.

Lemma Fails_ret {A : Type} (P : Failure -> Prop) (a : A) : Fails P (ret a).
Proof. intros s f s' H. discriminate H. Qed.

Lemma Fails_get (P : Failure -> Prop) : Fails P get.
Proof. intros s f s' H. discriminate H. Qed.

Lemma Fails_modify (P : Failure -> Prop) (g : State -> State) : Fails P (modify g).
Proof. intros s f s' H. discriminate H. Qed.

Lemma Fails_exec (P : Failure -> Prop) (q : Pg.Stmt) : Fails P (exec q).
Proof. intros s f s' H. rewrite exec_eq in H. discriminate H. Qed.

Lemma Fails_fail {A : Type} (P : Failure -> Prop) (f : Failure) : P f -> Fails P (@fail A f).
Proof. intros H s f' s' [= <- _]. exact H. Qed.

Lemma Fails_bind {A B : Type} (P : Failure -> Prop) (m : M A) (k : A -> M B) :
  Fails P m -> (forall a, Fails P (k a)) -> Fails P (bind m k).
Proof.
  intros Hm Hk s f s'. unfold bind. destruct (m s) as [[a|f0] s1] eqn:E.
  - apply Hk.
  - intros [= <- _]. eapply Hm, E.
Qed.

Lemma Fails_for_each {A : Type} (P : Failure -> Prop) (l : list A) (body : A -> M unit) :
  (forall a, Fails P (body a)) -> Fails P (for_each l body).
Proof.
  intros H. induction l as [|a l IH]; cbn [for_each]; [apply Fails_ret|].
  apply Fails_bind; [apply H|intros _; exact IH].
Qed.

Definition undefined (f : Failure) : Prop := exists what, f = Undefined what.

Ltac fails_step :=
  lazymatch goal with
  | |- Fails _ (bind _ _) => apply Fails_bind; [|intros ?]
  | |- Fails _ (ret _) => apply Fails_ret
  | |- Fails _ (fail _) => apply Fails_fail; try (eexists; reflexivity)
  | |- Fails _ get => apply Fails_get
  | |- Fails _ (modify _) => apply Fails_modify
  | |- Fails _ (exec _) => apply Fails_exec
  | |- Fails _ (for_each _ _) => apply Fails_for_each; intros ?
  | |- Fails _ (if ?b then _ else _) => destruct b
  | |- Fails _ (match ?x with _ => _ end) => destruct x
  end.

Ltac fails := repeat fails_step.

Section WithEnv.
Variable env : Env.

Lemma Fails_set_typemap dbval tname : Fails undefined (set_typemap env dbval tname).
Proof. unfold set_typemap. fails. Qed.

Lemma Fails_type_rows rows : forall rp, Fails undefined (type_rows env rows rp).
Proof.
  induction rows as [|row rows IH]; intros rp; cbn [type_rows]; fails.
  - apply Fails_set_typemap.
  - apply IH.
Qed.

Lemma Fails_register_type t : Fails undefined (register_type env t).
Proof. unfold register_type. fails. apply Fails_set_typemap. Qed.

(** [setup_typemap] raises no exception: when it fails, it has
    read or written outside the arrays of the type map, or it has
    gone through the rows of a NULL record set. *)
Lemma Fails_setup_typemap : Fails undefined (setup_typemap env).
Proof.
  unfold setup_typemap. fails.
  - apply Fails_type_rows.
  - apply Fails_register_type.
Qed.

End WithEnv.
End FailureKinds.

(** ** What the parts of a store do to the identifier caches *)

Module StepFrames.
Import CLib Double Atomspace Storage Response Codec TypeMap IdCache AtomStore.
Import AtomFacts StorageFacts Frame IdFrame.

Definition is_atoms_update (q : Pg.Stmt) : bool :=
  match q with
  | Pg.UpdateAtoms _ _ => true
  | _ => false
  end.

(** A statement that is neither an INSERT into Atoms nor an UPDATE
    of Atoms. *)
Definition calm (q : Pg.Stmt) : bool :=
  negb (is_atoms_insert q) && negb (is_atoms_update q).

(** The identifiers of the buffer are those of an unsigned type. *)
Definition tlb_wf (t : TLB) : Prop :=
  0 <= tlb_next t
  /\ forall a u, tlb_find a (tlb_bindings t) = Some u -> 0 <= u.

(** From [s] to [s'] the buffer keeps its bindings, an identifier
    stays in [local_id_cache] and leaves [id_create_cache] only for
    [local_id_cache], and what is sent is [calm]. *)
Definition steady (s s' : State) : Prop :=
  tlb_le (tlbuf s) (tlbuf s')
  /\ (tlb_wf (tlbuf s) -> tlb_wf (tlbuf s'))
  /\ local_id_cache s ⊆ local_id_cache s'
  /\ local_id_cache s ∪ id_create_cache s ⊆ local_id_cache s' ∪ id_create_cache s'
  /\ exists l, sent s' = (sent s ++ l)%list /\ forallb calm l = true.

Lemma steady_refl (s : State) : steady s s.
Proof.
  split; [apply tlb_le_refl|]. split; [auto|]. split; [set_solver|]. split; [set_solver|].
  exists []. rewrite app_nil_r. auto.
Qed.

Lemma steady_trans (s1 s2 s3 : State) : steady s1 s2 -> steady s2 s3 -> steady s1 s3.
Proof.
  intros (T1 & W1 & L1 & U1 & l1 & E1 & F1) (T2 & W2 & L2 & U2 & l2 & E2 & F2).
  split; [eapply tlb_le_trans; eassumption|]. split; [auto|].
  split; [set_solver|]. split; [set_solver|].
  exists (l1 ++ l2)%list. rewrite E2, E1, app_assoc, forallb_app, F1, F2. auto.
Qed.

(** The same for a state that differs in nothing that [steady]
    looks at. *)
Lemma steady_same (s s' : State) :
  tlbuf s' = tlbuf s -> local_id_cache s' = local_id_cache s ->
  id_create_cache s' = id_create_cache s -> sent s' = sent s -> steady s s'.
Proof.
  intros Ht Hl Hc Hs. unfold steady. rewrite Ht, Hl, Hc, Hs.
  split; [apply tlb_le_refl|]. split; [auto|]. split; [set_solver|]. split; [set_solver|].
  exists []. rewrite app_nil_r. auto.
Qed.

Definition Steady {A : Type} (m : M A) : Prop := forall s, steady s (snd (m s)).

Lemma Steady_ret {A : Type} (a : A) : Steady (ret a).
Proof. intros s. apply steady_refl. Qed.

Lemma Steady_fail {A : Type} (f : Failure) : Steady (@fail A f).
Proof. intros s. apply steady_refl. Qed.

Lemma Steady_get : Steady get.
Proof. intros s. apply steady_refl. Qed.

Lemma Steady_modify (f : State -> State) : (forall s, steady s (f s)) -> Steady (modify f).
Proof. intros H s. apply H. Qed.

Lemma Steady_bind_result {A B : Type} (R : A -> Prop) (m : M A) (k : A -> M B) :
  Steady m -> (forall s a s', m s = (Ok a, s') -> R a) ->
  (forall a, R a -> Steady (k a)) -> Steady (bind m k).
Proof.
  intros Hm HR Hk s. unfold bind. specialize (Hm s). specialize (HR s).
  destruct (m s) as [[a|f] s1]; cbn in *; [|exact Hm].
  eapply steady_trans; [exact Hm|]. apply Hk. eapply HR. reflexivity.
Qed.

Lemma Steady_bind {A B : Type} (m : M A) (k : A -> M B) :
  Steady m -> (forall a, Steady (k a)) -> Steady (bind m k).
Proof.
  intros Hm Hk. apply (Steady_bind_result (fun _ => True)); auto.
Qed.

Lemma Steady_exec (q : Pg.Stmt) : calm q = true -> Steady (exec q).
Proof.
  intros H s. rewrite exec_eq. cbn.
  split; [apply tlb_le_refl|]. split; [auto|]. split; [set_solver|]. split; [set_solver|].
  exists [q]. cbn. rewrite H. auto.
Qed.

Lemma Steady_read {A : Type} (field : option A) (what : string) : Steady (read field what).
Proof. destruct field; [apply Steady_ret|apply Steady_fail]. Qed.

Lemma Steady_foreach_row {R : Type} (rs : option Pg.RecordSet) (cb : R -> Pg.Row -> R)
    (rp : R) : Steady (foreach_row rs cb rp).
Proof. destruct rs; [apply Steady_ret|apply Steady_fail]. Qed.

Lemma Steady_for_each {A : Type} (l : list A) (body : A -> M unit) :
  (forall a, Steady (body a)) -> Steady (for_each l body).
Proof.
  intros H. induction l as [|a l IH]; cbn [for_each]; [apply Steady_ret|].
  apply Steady_bind; [apply H|intros _; exact IH].
Qed.

Ltac steady_step :=
  lazymatch goal with
  | |- Steady (bind _ _) => apply Steady_bind; [|intros ?]
  | |- Steady (ret _) => apply Steady_ret
  | |- Steady (fail _) => apply Steady_fail
  | |- Steady get => apply Steady_get
  | |- Steady (modify _) =>
      apply Steady_modify; intros; apply steady_same; reflexivity
  | |- Steady (exec _) => apply Steady_exec; reflexivity
  | |- Steady (read _ _) => apply Steady_read
  | |- Steady (foreach_row _ _ _) => apply Steady_foreach_row
  | |- Steady (for_each _ _) => apply Steady_for_each; intros ?
  | |- Steady (if ?b then _ else _) => destruct b
  | |- Steady (match ?x with _ => _ end) => destruct x
  end.

Ltac steady := repeat steady_step.

(** *** The identifiers read from a row *)

Lemma scan_digits_nonneg (s : string) : forall acc, 0 <= acc -> 0 <= fst (scan_digits s acc).
Proof.
  induction s as [|c r IH]; intros acc H; cbn [scan_digits]; [exact H|].
  destruct (isdigit c) eqn:E; [|exact H]. apply IH.
  assert (0 <= digit_val c); [|lia].
  unfold digit_val. unfold isdigit in E. apply andb_true_iff in E as [E _].
  apply Nat.leb_le in E. lia.
Qed.

Lemma strtoul_nonneg (s : string) : 0 <= fst (strtoul s).
Proof.
  unfold strtoul. destruct (scan_sign (skip_space s)) as [neg r].
  destruct r as [|c r]; [cbn; lia|]. destruct (isdigit c); [|cbn; lia].
  pose proof (scan_digits_nonneg (String c r) 0 ltac:(lia)) as H.
  destruct (scan_digits (String c r) 0) as [v rest]. cbn [fst] in *.
  unfold ULONG_MAX. destruct (_ <? v); [lia|]. destruct neg; [|exact H].
  apply Z.mod_pos_bound. lia.
Qed.

Definition uuid_nonneg (rp : Response) : Prop :=
  forall u, uuid rp = Some u -> 0 <= u.

Lemma create_atom_column_cb_uuid radix rp col :
  uuid_nonneg rp -> uuid_nonneg (create_atom_column_cb radix rp col).
Proof.
  intros H. destruct col as [colname colvalue]. unfold create_atom_column_cb.
  repeat match goal with
         | |- context [if ?b then _ else _] => destruct b
         end; try exact H; intros u; cbn; try apply H;
    intros [= <-]; apply strtoul_nonneg.
Qed.

Lemma create_atom_cb_uuid radix rows : forall rp,
  uuid_nonneg rp -> uuid_nonneg (fold_left (create_atom_cb radix) rows rp).
Proof.
  induction rows as [|row rows IH]; intros rp H; [exact H|]. cbn [fold_left]. apply IH.
  unfold create_atom_cb. revert rp H.
  induction row as [|col row IHr]; intros rp H; [exact H|]. cbn [fold_left].
  apply IHr, create_atom_column_cb_uuid, H.
Qed.

Section WithEnv.
Variable env : Env.

Lemma Steady_set_typemap dbval tname : Steady (set_typemap env dbval tname).
Proof. unfold set_typemap. steady. Qed.

Lemma Steady_type_rows rows : forall rp, Steady (type_rows env rows rp).
Proof.
  induction rows as [|row rows IH]; intros rp; cbn [type_rows]; steady.
  - apply Steady_set_typemap.
  - apply IH.
Qed.

Lemma Steady_register_type t : Steady (register_type env t).
Proof. unfold register_type. steady. apply Steady_set_typemap. Qed.

Lemma Steady_setup_typemap : Steady (setup_typemap env).
Proof.
  unfold setup_typemap. steady.
  - apply Steady_type_rows.
  - apply Steady_register_type.
Qed.

Lemma addAtom_wf (t : TLB) (h : Atom) (hint : Z) :
  0 <= hint -> tlb_wf t -> tlb_wf (snd (addAtom t h hint)) /\ 0 <= fst (addAtom t h hint).
Proof.
  intros Hh [Hn Hb]. unfold addAtom.
  destruct (tlb_find h (tlb_bindings t)) as [u|] eqn:E; cbn [fst snd].
  - split; [split; assumption|]. apply (Hb h u E).
  - assert (Hu : 0 <= (if negb (hint =? INVALID_UUID)
                             && bool_decide (tlb_rfind hint (tlb_bindings t) = None)
                          then hint else tlb_next t))
      by (destruct (_ && _); assumption).
    split; [|exact Hu]. split; cbn [tlb_next tlb_bindings]; [lia|].
    intros a v. cbn [tlb_find].
    destruct (atom_eqb h a); [intros [= <-]; exact Hu|apply Hb].
Qed.

Lemma Steady_tlb_addAtom h hint : 0 <= hint -> Steady (tlb_addAtom h hint).
Proof.
  intros Hh s. unfold tlb_addAtom. rewrite bind_get.
  pose proof (addAtom_le (tlbuf s) h hint) as H.
  pose proof (addAtom_wf (tlbuf s) h hint Hh) as Hw.
  destruct (addAtom (tlbuf s) h hint) as [u t]. cbn in *.
  split; [exact H|]. split; [intros W; apply (Hw W)|].
  split; [set_solver|]. split; [set_solver|]. exists []. rewrite app_nil_r. auto.
Qed.


Lemma Steady_add_id_to_cache u : Steady (add_id_to_cache u).
Proof.
  unfold add_id_to_cache. apply Steady_modify. intros s.
  split; [apply tlb_le_refl|]. split; [auto|].
  cbn [local_id_cache id_create_cache sent with_caches].
  split; [set_solver|]. split.
  - destruct (bool_decide (u ∈ id_create_cache s)) eqn:E.
    + intros x Hx. destruct (decide (x = u)); set_solver.
    + set_solver.
  - exists []. rewrite app_nil_r. auto.
Qed.

Lemma Steady_maybe_create_id u : Steady (maybe_create_id u).
Proof.
  unfold maybe_create_id. intros s. rewrite bind_get.
  destruct (bool_decide _); [apply steady_refl|].
  destruct (bool_decide _); [apply steady_refl|]. cbn.
  split; [apply tlb_le_refl|]. split; [auto|].
  split; [set_solver|]. split; [set_solver|]. exists []. rewrite app_nil_r. auto.
Qed.

Lemma Steady_store_atomtable_id at_ : Steady (store_atomtable_id at_).
Proof.
  revert at_. fix IH 1. intros [tab_id environ] s.
  cbn [store_atomtable_id]. rewrite bind_get.
  destruct (bool_decide _); [apply steady_refl|]. rewrite bind_modify.
  eapply steady_trans; [|apply Steady_bind; [|intros ?]];
    [apply steady_same; reflexivity| |steady].
  destruct environ as [env_|]; steady. apply IH.
Qed.

Lemma Steady_read_outlist fuel : forall p oset, Steady (read_outlist fuel p oset).
Proof.
  induction fuel as [|fuel IH]; intros p oset; cbn [read_outlist]; steady.
  destruct (strtoul (tail p)). apply IH.
Qed.

Lemma Steady_makeAtom rp u : Steady (makeAtom env rp u).
Proof.
  unfold makeAtom. steady; try apply Steady_read_outlist; apply Steady_add_id_to_cache.
Qed.

Lemma makeAtom_uuid rp u (s s' : State) (p : Pseudo) :
  makeAtom env rp u s = (Ok p, s') -> p_uuid p = u.
Proof.
  unfold makeAtom. rewrite bind_get. destruct (_ =? _); [discriminate|].
  intros H. repeat (apply bind_inv in H; destruct H as (? & ? & _ & H)).
  injection H as <- _. reflexivity.
Qed.

Lemma getAtom_uuid q hgt (s s' : State) (p : Pseudo) :
  getAtom env q hgt s = (Ok (Some p), s') -> 0 <= p_uuid p.
Proof.
  unfold getAtom. intros H.
  apply bind_inv in H. destruct H as (rs & s1 & _ & H).
  apply bind_inv in H. destruct H as (rp & s2 & E & H).
  apply bind_inv in H. destruct H as (u & s3 & Eu & H).
  destruct (u =? INVALID_UUID); [discriminate|].
  apply bind_inv in H. destruct H as (p' & s4 & Ep & H).
  injection H as <- _. rewrite (makeAtom_uuid _ _ _ _ _ Ep).
  destruct rs as [rows|]; [|discriminate]. injection E as <- _.
  destruct (uuid (fold_left _ _ _)) as [v|] eqn:Ev; [|discriminate].
  injection Eu as <- _.
  eapply create_atom_cb_uuid; [|exact Ev]. intros v' [= <-]. reflexivity.
Qed.

Lemma Steady_getAtom q hgt : calm q = true -> Steady (getAtom env q hgt).
Proof.
  intros H. unfold getAtom. apply Steady_bind; [apply Steady_exec, H|intros rs].
  steady. apply Steady_makeAtom.
Qed.

Lemma Steady_doGetNode t str : Steady (doGetNode env t str).
Proof.
  unfold doGetNode.
  apply Steady_bind; [apply Steady_setup_typemap|intros ?].
  apply Steady_bind; [apply Steady_get|intros s0].
  destruct (_ <=? _); [apply Steady_fail|].
  eapply Steady_bind_result with (R := fun p => forall p', p = Some p' -> 0 <= p_uuid p').
  - apply Steady_getAtom. reflexivity.
  - intros s1 r s' E p' ->. exact (getAtom_uuid _ _ _ _ _ E).
  - intros [p|] Hp; steady. apply Steady_tlb_addAtom, Hp. reflexivity.
Qed.

Lemma Steady_get_uuid h : Steady (get_uuid env h).
Proof.
  induction h as [t name|t out IH] using Atom_nested_ind; cbn [get_uuid].
  - steady; try apply Steady_doGetNode; apply Steady_tlb_addAtom; reflexivity.
  - apply Steady_bind; [apply Steady_get|intros s0].
    destruct (negb _); [apply Steady_ret|].
    apply Steady_bind.
    2:{ intros []; steady. apply Steady_tlb_addAtom. reflexivity. }
    apply Steady_bind; [apply Steady_setup_typemap|intros ?].
    apply Steady_bind; [apply Steady_get|intros s1].
    apply Steady_bind.
    { match goal with |- Steady (?f _ _ out) =>
        assert (H : forall b str, Steady (f b str out)); [|apply H] end.
      induction IH as [|x out Hx _ IHout]; intros b str; steady.
      - exact Hx.
      - apply IHout. }
    intros str.
    eapply Steady_bind_result with (R := fun p => forall p', p = Some p' -> 0 <= p_uuid p').
    + apply Steady_getAtom. reflexivity.
    + intros s2 r s' E p' ->. exact (getAtom_uuid _ _ _ _ _ E).
    + intros [p|] Hp; steady. apply Steady_tlb_addAtom, Hp. reflexivity.
Qed.

Lemma Steady_oset_elements l : forall b str, Steady (oset_elements env b str l).
Proof.
  induction l as [|h l IH]; intros b str; cbn [oset_elements]; steady.
  - apply Steady_get_uuid.
  - apply IH.
Qed.

Lemma Steady_oset_to_string l : Steady (oset_to_string env l).
Proof. unfold oset_to_string. steady. apply Steady_oset_elements. Qed.

Lemma Steady_first_time_columns cols h aheight :
  Steady (first_time_columns env cols h aheight).
Proof. unfold first_time_columns. steady. apply Steady_oset_to_string. Qed.

Lemma Steady_tv_columns cols tv : Steady (tv_columns env cols tv).
Proof. unfold tv_columns. steady. Qed.

End WithEnv.

(** *** Runs that may send any statement *)

(** From [s] to [s'] the buffer keeps its bindings and the caches
    their identifiers. *)
Definition grows (s s' : State) : Prop :=
  tlb_le (tlbuf s) (tlbuf s')
  /\ (tlb_wf (tlbuf s) -> tlb_wf (tlbuf s'))
  /\ local_id_cache s ⊆ local_id_cache s'
  /\ local_id_cache s ∪ id_create_cache s ⊆ local_id_cache s' ∪ id_create_cache s'.

Lemma steady_grows (s s' : State) : steady s s' -> grows s s'.
Proof. intros (T & W & L & U & _). exact (conj T (conj W (conj L U))). Qed.

Lemma grows_refl (s : State) : grows s s.
Proof. apply steady_grows, steady_refl. Qed.

Lemma grows_trans (s1 s2 s3 : State) : grows s1 s2 -> grows s2 s3 -> grows s1 s3.
Proof.
  intros (T1 & W1 & L1 & U1) (T2 & W2 & L2 & U2).
  split; [eapply tlb_le_trans; eassumption|]. split; [auto|]. split; set_solver.
Qed.

Lemma same_ids_grows (s s' : State) : same_ids s s' -> grows s s'.
Proof.
  intros (T & L & C & _). unfold grows. rewrite T, L, C.
  split; [apply tlb_le_refl|]. split; [auto|]. split; set_solver.
Qed.

Lemma grows_exec (q : Pg.Stmt) (s : State) : grows s (snd (exec q s)).
Proof.
  rewrite exec_eq. cbn. split; [apply tlb_le_refl|]. split; [auto|]. split; set_solver.
Qed.

Definition Growing {A : Type} (m : M A) : Prop := forall s, grows s (snd (m s)).

Lemma Growing_Steady {A : Type} (m : M A) : Steady m -> Growing m.
Proof. intros H s. apply steady_grows, H. Qed.

Lemma Growing_ret {A : Type} (a : A) : Growing (ret a).
Proof. intros s. apply grows_refl. Qed.

Lemma Growing_exec (q : Pg.Stmt) : Growing (exec q).
Proof. intros s. apply grows_exec. Qed.

Lemma Growing_bind {A B : Type} (m : M A) (k : A -> M B) :
  Growing m -> (forall a, Growing (k a)) -> Growing (bind m k).
Proof.
  intros Hm Hk s. unfold bind. specialize (Hm s).
  destruct (m s) as [[a|f] s1]; cbn in *; [|exact Hm].
  eapply grows_trans; [exact Hm|apply Hk].
Qed.

Section Stores.
Variable env : Env.

Lemma Steady_storeValue pap : Steady (storeValue env pap).
Proof.
  induction pap as [v|v|v IH] using QuietRuns.Value_nested_ind; cbn [storeValue]; steady.
  match goal with |- Steady (?f _ _ v) =>
    assert (H : forall b str, Steady (f b str v)); [|apply H] end.
  induction IH as [|x v Hx _ IHv]; intros b str; steady.
  - exact Hx.
  - apply IHv.
Qed.

Lemma Steady_link_elements l : forall b str, Steady (link_elements env b str l).
Proof.
  induction l as [|h l IH]; intros b str; cbn [link_elements]; steady.
  - apply Steady_storeValue.
  - apply IH.
Qed.

Lemma Steady_link_to_string l : Steady (link_to_string env l).
Proof. unfold link_to_string. steady. apply Steady_link_elements. Qed.

Lemma Steady_each_vuid {A : Type} (body : Z -> M A) :
  (forall u, Steady (body u)) ->
  forall fuel p acc, Steady (each_vuid fuel p body acc).
Proof.
  intros H. induction fuel as [|fuel IH]; intros p acc; cbn [each_vuid]; steady.
  - apply H.
  - apply IH.
Qed.

Lemma Steady_deleteValue fuel : forall u, Steady (deleteValue env fuel u).
Proof.
  induction fuel as [|fuel IH]; intros u; cbn [deleteValue]; steady.
  apply Steady_each_vuid, IH.
Qed.

Lemma Steady_deleteValuation fuel key atom : Steady (deleteValuation env fuel key atom).
Proof.
  unfold deleteValuation. steady; try apply Steady_get_uuid.
  apply Steady_each_vuid, Steady_deleteValue.
Qed.

Lemma Steady_storeValuation fuel key atom pap :
  Steady (storeValuation env fuel key atom pap).
Proof.
  unfold storeValuation. steady; try apply Steady_deleteValuation;
    try apply Steady_get_uuid.
  apply Steady_link_to_string.
Qed.

Lemma Steady_store_atom_values fuel atom : Steady (store_atom_values env fuel atom).
Proof. unfold store_atom_values. steady. apply Steady_storeValuation. Qed.

Lemma Growing_execute_with_retry h qry : Growing (execute_with_retry env h qry).
Proof.
  unfold execute_with_retry. apply Growing_bind; [apply Growing_exec|intros [rows|]].
  - apply Growing_ret.
  - apply Growing_bind.
    + destruct (getAtomTable env h);
        [apply Growing_Steady, Steady_store_atomtable_id|apply Growing_ret].
    + intros _. apply Growing_bind; [apply Growing_exec|intros _; apply Growing_ret].
Qed.

Lemma Growing_do_store_single_atom h aheight :
  Growing (do_store_single_atom env h aheight).
Proof.
  unfold do_store_single_atom.
  apply Growing_bind; [apply Growing_Steady, Steady_setup_typemap|intros _].
  apply Growing_bind;
    [apply Growing_Steady, Steady_tlb_addAtom; reflexivity|intros uuid].
  apply Growing_bind; [apply Growing_Steady, Steady_maybe_create_id|intros owns].
  apply Growing_bind.
  { apply Growing_Steady, Steady_modify. intros s. apply steady_same; reflexivity. }
  intros _. apply Growing_bind.
  { destruct (negb owns);
      [apply Growing_ret|apply Growing_Steady, Steady_first_time_columns]. }
  intros cols. apply Growing_bind; [apply Growing_Steady, Steady_tv_columns|intros cols'].
  apply Growing_bind; [apply Growing_execute_with_retry|intros _].
  apply Growing_bind; [apply Growing_Steady, Steady_add_id_to_cache|intros _].
  apply Growing_Steady, Steady_modify. intros s. apply steady_same; reflexivity.
Qed.

Lemma Growing_do_store_atom fuel h : Growing (do_store_atom env fuel h).
Proof.
  induction h as [t name|t out IH] using Atom_nested_ind; cbn [do_store_atom].
  - apply Growing_bind; [apply Growing_do_store_single_atom|intros _].
    apply Growing_bind; [apply Growing_Steady, Steady_store_atom_values|intros _].
    apply Growing_ret.
  - apply Growing_bind.
    { match goal with |- Growing (?f out 0) =>
        assert (H : forall n, Growing (f out n)); [|apply H] end.
      induction IH as [|x out Hx _ IHout]; intros n; [apply Growing_ret|].
      apply Growing_bind; [exact Hx|intros heig; apply IHout]. }
    intros lheight.
    apply Growing_bind; [apply Growing_do_store_single_atom|intros _].
    apply Growing_bind; [apply Growing_Steady, Steady_store_atom_values|intros _].
    apply Growing_ret.
Qed.

End Stores.
End StepFrames.

Module CLibProofs.
Import CLib.

Lemma digit_char_val d : 0 <= d < 10 -> digit_val (digit_char d) = d.
Proof.
  intros H. unfold digit_val, digit_char.
  rewrite nat_ascii_embedding by lia. lia.
Qed.

Lemma digit_char_isdigit d : 0 <= d < 10 -> isdigit (digit_char d) = true.
Proof.
  intros H. unfold isdigit, digit_char.
  rewrite nat_ascii_embedding by lia.
  apply andb_true_iff. split; apply Nat.leb_le; lia.
Qed.

Lemma all_digits_app a b : all_digits (a ++ b) = all_digits a && all_digits b.
Proof. induction a as [|c a IH]; simpl; [reflexivity|]. rewrite IH, andb_assoc. reflexivity. Qed.

Lemma string_length_app a b : String.length (a ++ b) = (String.length a + String.length b)%nat.
Proof. induction a as [|c a IH]; simpl; [reflexivity|]. rewrite IH. reflexivity. Qed.

Lemma append_cons x (a b : string) : String x a ++ b = String x (a ++ b).
Proof. reflexivity. Qed.

Lemma append_nil_l (b : string) : EmptyString ++ b = b.
Proof. reflexivity. Qed.

Lemma string_app_assoc (a b c : string) : (a ++ b) ++ c = a ++ (b ++ c).
Proof.
  induction a as [|x a IH]; [reflexivity|].
  rewrite !append_cons, IH. reflexivity.
Qed.

Lemma string_app_nil_r (a : string) : a ++ EmptyString = a.
Proof.
  induction a as [|x a IH]; [reflexivity|].
  rewrite append_cons, IH. reflexivity.
Qed.

Definition stops (rest : string) : Prop :=
  match rest with
  | EmptyString => True
  | String c _ => isdigit c = false
  end.

Lemma scan_digits_app s rest acc :
  all_digits s = true -> stops rest ->
  scan_digits (s ++ rest) acc = (digits_value s acc, rest).
Proof.
  revert acc. induction s as [|c s IH]; simpl; intros acc Hd Hs.
  - destruct rest as [|c r]; simpl in *; [reflexivity|]. rewrite Hs. reflexivity.
  - apply andb_true_iff in Hd as [Hc Hd]. rewrite Hc. apply IH; assumption.
Qed.

Lemma digits_value_app a b acc :
  digits_value (a ++ b) acc = digits_value b (digits_value a acc).
Proof. revert acc. induction a as [|c a IH]; simpl; intros; [reflexivity|]. apply IH. Qed.

Lemma digits_fuel_spec fuel : forall n acc,
  0 <= n < 10 ^ Z.of_nat fuel ->
  exists ds, digits_fuel fuel n acc = ds ++ acc
    /\ all_digits ds = true
    /\ (forall a, digits_value ds a = a * 10 ^ Z.of_nat (String.length ds) + n)
    /\ (0 < fuel -> ds <> EmptyString)%nat.
Proof.
  induction fuel as [|f IH]; intros n acc Hn.
  - simpl in *. assert (n = 0) by lia. subst. exists EmptyString. simpl.
    repeat split; intros; lia.
  - cbn [digits_fuel]. destruct (Z.ltb_spec n 10) as [Hlt|Hge].
    + exists (String (digit_char (n mod 10)) EmptyString). simpl.
      rewrite digit_char_isdigit by (apply Z.mod_pos_bound; lia).
      repeat split; [|intros _ E; discriminate E].
      intros a. rewrite digit_char_val by (apply Z.mod_pos_bound; lia).
      rewrite Z.mod_small by lia. lia.
    + destruct (IH (n / 10) (String (digit_char (n mod 10)) acc)) as (ds & E & Hd & Hv & _).
      { split; [apply Z.div_pos; lia|].
        apply Z.div_lt_upper_bound; [lia|].
        rewrite Nat2Z.inj_succ, Z.pow_succ_r in Hn by lia. lia. }
      exists (ds ++ String (digit_char (n mod 10)) EmptyString).
      rewrite E, string_app_assoc. simpl. split; [reflexivity|].
      rewrite all_digits_app, Hd. simpl.
      rewrite digit_char_isdigit by (apply Z.mod_pos_bound; lia).
      repeat split.
      * intros a. rewrite digits_value_app, Hv. simpl.
        rewrite digit_char_val by (apply Z.mod_pos_bound; lia).
        rewrite string_length_app. simpl.
        rewrite Nat2Z.inj_add, Z.pow_add_r by lia. simpl (Z.of_nat 1).
        rewrite Z.pow_1_r. pose proof (Z.div_mod n 10). lia.
      * intros _ E'. destruct ds; discriminate E'.
Qed.

Lemma to_string_u_spec n :
  0 <= n ->
  all_digits (to_string_u n) = true
  /\ (forall a, digits_value (to_string_u n) a
                = a * 10 ^ Z.of_nat (String.length (to_string_u n)) + n)
  /\ to_string_u n <> EmptyString.
Proof.
  intros Hn. unfold to_string_u.
  destruct (digits_fuel_spec (S (Z.to_nat (Z.log2 n))) n EmptyString)
    as (ds & E & Hd & Hv & Hne).
  - split; [lia|].
    destruct (Z.eq_dec n 0) as [->|Hnz]; [simpl; lia|].
    pose proof (Z.log2_spec n ltac:(lia)) as [_ Hlt].
    eapply Z.lt_le_trans; [exact Hlt|].
    rewrite Nat2Z.inj_succ, Z2Nat.id by apply Z.log2_nonneg.
    apply Z.pow_le_mono_l. lia.
  - rewrite E, string_app_nil_r. repeat split; auto. apply Hne. lia.
Qed.

Lemma scan_to_string_u n rest :
  0 <= n -> stops rest -> scan_digits (to_string_u n ++ rest) 0 = (n, rest).
Proof.
  intros Hn Hs. destruct (to_string_u_spec n Hn) as (Hd & Hv & _).
  rewrite scan_digits_app by assumption. rewrite Hv. reflexivity.
Qed.
End CLibProofs.

Module DoubleProofs.
Import CLib Double CLibProofs.

Lemma fixed_digits_spec w : forall k, 0 <= k ->
  String.length (fixed_digits w k) = w
  /\ all_digits (fixed_digits w k) = true
  /\ forall a, digits_value (fixed_digits w k) a = a * 10 ^ Z.of_nat w + k mod 10 ^ Z.of_nat w.
Proof.
  induction w as [|w IH]; intros k Hk.
  - simpl. repeat split. intros a. rewrite Z.mod_1_r. lia.
  - cbn [fixed_digits].
    destruct (IH (k / 10) ltac:(apply Z.div_pos; lia)) as (Hl & Hd & Hv).
    rewrite string_length_app, all_digits_app, Hl, Hd. simpl.
    rewrite digit_char_isdigit by (apply Z.mod_pos_bound; lia).
    repeat split; [lia|].
    intros a. rewrite digits_value_app, Hv. simpl.
    rewrite digit_char_val by (apply Z.mod_pos_bound; lia).
    rewrite Nat2Z.inj_succ, Z.pow_succ_r by lia.
    rewrite Z.rem_mul_r by lia. lia.
Qed.

Lemma round_half_even_bound a b :
  0 < b -> Z.abs (2 * a - 2 * round_half_even a b * b) <= b.
Proof.
  intros Hb. unfold round_half_even.
  pose proof (Z.div_mod a b ltac:(lia)) as E.
  pose proof (Z.mod_pos_bound a b Hb) as Hr.
  remember (a / b) as q eqn:Hq. remember (a mod b) as r eqn:Hr'.
  clear Hq Hr'. subst a.
  assert (E0 : 2 * (b * q + r) - 2 * q * b = 2 * r) by ring.
  assert (E1 : 2 * (b * q + r) - 2 * (q + 1) * b = 2 * r - 2 * b) by ring.
  destruct (Z.ltb_spec (2 * r) b); [rewrite E0; lia|].
  destruct (Z.ltb_spec b (2 * r)); [rewrite E1; lia|].
  destruct (Z.even q); [rewrite E0|rewrite E1]; lia.
Qed.

Lemma round_half_even_nonneg a b : 0 <= a -> 0 < b -> 0 <= round_half_even a b.
Proof.
  intros Ha Hb. unfold round_half_even.
  pose proof (Z.div_pos a b Ha Hb).
  destruct (_ <? _); [lia|]. destruct (_ <? _); [lia|]. destruct (Z.even _); lia.
Qed.
End DoubleProofs.

Module CodecFormat.
Import CLib Double Atomspace Storage Codec CLibProofs DoubleProofs Examples.

Fixpoint rest_join (l : list string) : string :=
  match l with
  | [] => EmptyString
  | x :: l' => ", " ++ x ++ rest_join l'
  end.

Lemma append_elements_true l : forall str,
  append_elements true str l = str ++ rest_join l.
Proof.
  induction l as [|x l IH]; intros str; simpl.
  - rewrite string_app_nil_r. reflexivity.
  - rewrite IH, !string_app_assoc. reflexivity.
Qed.

Lemma join_cons x l : Pg.join ", " (x :: l) = x ++ rest_join l.
Proof.
  revert x. induction l as [|y l IH]; intros x.
  - simpl. rewrite string_app_nil_r. reflexivity.
  - change (Pg.join ", " (x :: y :: l)) with (x ++ ", " ++ Pg.join ", " (y :: l)).
    rewrite IH. reflexivity.
Qed.

Lemma array_literal_join l :
  array_literal l = "'{" ++ Pg.join ", " l ++ "}'".
Proof.
  unfold array_literal. destruct l as [|x l]; [reflexivity|].
  simpl append_elements. rewrite append_elements_true, join_cons.
  rewrite !string_app_assoc. reflexivity.
Qed.

(** C9, as amended.  The encoder writes the elements between ['{]
    and [}'], separated by a comma and a space, each as
    [std::to_string] renders it.  A finite element is written in
    fixed notation: a minus sign when it is negative, the integer
    part, the radix character of the current locale and exactly six
    digits after it, which are those of the nearest millionth.  An
    infinite element is written [inf] or [-inf], and an element
    that is not a number [nan] or [-nan] as its sign bit says:
    these have no radix character and no digits. *)
Theorem float_to_string_six_decimals (env : Env) (fvle : list double) :
  float_to_string env fvle
  = "'{" ++ Pg.join ", " (List.map (Double.to_string (radix env)) fvle) ++ "}'"
  /\ (forall neg m e, 0 <= m ->
       exists n frac,
         Double.to_string (radix env) (DFin neg m e)
         = sign_prefix neg ++ to_string_u (n / 10 ^ 6) ++ String (radix env) frac
         /\ String.length frac = 6%nat
         /\ all_digits frac = true
         /\ digits_value frac 0 = n mod 10 ^ 6
         /\ 0 <= n
         /\ (if 0 <=? e then n = m * 2 ^ e * 10 ^ 6
             else Z.abs (2 * (m * 10 ^ 6) - 2 * n * 2 ^ (- e)) <= 2 ^ (- e)))
  /\ Double.to_string (radix env) (DInf false) = "inf"
  /\ Double.to_string (radix env) (DInf true) = "-inf"
  /\ Double.to_string (radix env) (DNaN false) = "nan"
  /\ Double.to_string (radix env) (DNaN true) = "-nan".
Proof.
  split; [apply array_literal_join|].
  split; [|repeat split].
  intros neg m e Hm.
  exists (millionths m e), (fixed_digits 6 (millionths m e mod 10 ^ 6)).
  assert (Hn : 0 <= millionths m e).
  { unfold millionths. destruct (Z.leb_spec 0 e).
    - apply Z.mul_nonneg_nonneg; [apply Z.mul_nonneg_nonneg; [lia|]|lia].
      apply Z.pow_nonneg. lia.
    - apply round_half_even_nonneg; [lia|]. apply Z.pow_pos_nonneg; lia. }
  destruct (fixed_digits_spec 6 (millionths m e mod 10 ^ 6)) as (Hl & Hd & Hv).
  { apply Z.mod_pos_bound. lia. }
  split; [reflexivity|]. split; [exact Hl|]. split; [exact Hd|].
  split; [rewrite Hv, Z.mod_mod by lia; reflexivity|].
  split; [exact Hn|].
  unfold millionths. destruct (Z.leb_spec 0 e); [reflexivity|].
  apply round_half_even_bound. apply Z.pow_pos_nonneg; lia.
Qed.

Lemma float_to_string_six_decimals_witness :
  0 <= 6004799503160661
  /\ float_to_string c_locale [third; DInf true; DNaN true; DNaN false]
     = "'{0.333333, -inf, -nan, nan}'"
  /\ exists n frac,
       Double.to_string "." (DFin false 6004799503160661 (-54))
       = sign_prefix false ++ to_string_u (n / 10 ^ 6) ++ String "." frac
       /\ String.length frac = 6%nat
       /\ all_digits frac = true
       /\ digits_value frac 0 = n mod 10 ^ 6
       /\ 0 <= n
       /\ Z.abs (2 * (6004799503160661 * 10 ^ 6) - 2 * n * 2 ^ 54) <= 2 ^ 54.
Proof.
  split; [lia|]. split; [reflexivity|].
  exact (proj1 (proj2 (float_to_string_six_decimals c_locale []))
           false 6004799503160661 (-54) ltac:(lia)).
Defined.

(** C9, as the spec words it, fails: a third is written with six
    digits, not twelve, and the radix character follows the locale. *)
Lemma float_to_string_twelve_digits_counterexample :
  float_to_string c_locale [third] = "'{0.333333}'"
  /\ array_literal (List.map twelve_significant_digits [third]) = "'{0.333333333333}'"
  /\ float_to_string c_locale [third]
     <> array_literal (List.map twelve_significant_digits [third])
  /\ float_to_string comma_locale [half] = "'{0,500000}'"
  /\ float_to_string comma_locale [half] <> float_to_string c_locale [half].
Proof.
  split; [reflexivity|]. split; [reflexivity|].
  split; [intros E; vm_compute in E; discriminate E|].
  split; [reflexivity|]. intros E; vm_compute in E; discriminate E.
Qed.
End CodecFormat.

Module SizeLimits.
Import CLib Double Atomspace Storage Response Codec TypeMap IdCache AtomStore Examples.

Lemma length_append (a b : string) :
  String.length (a ++ b) = (String.length a + String.length b)%nat.
Proof.
  induction a as [|c a IH]; [reflexivity|].
  change (String c a ++ b) with (String c (a ++ b)). simpl. rewrite IH. reflexivity.
Qed.

Lemma qname_length (nm : string) :
  Z.of_nat (String.length (" $ocp$" ++ nm ++ "$ocp$ ")) = Z.of_nat (String.length nm) + 12.
Proof. rewrite !length_append. simpl. lia. Qed.

Lemma first_time_columns_node env cols t nm aheight s :
  first_time_columns env cols (Node t nm) aheight s
  = if 2688 <? Z.of_nat (String.length nm)
    then (Err (IOException node_name_error), s)
    else (Ok (STMTI (STMT (STMTI (STMT cols "space"
                                   match getAtomTable env (Node t nm) with
                                   | Some _ => "1" | None => "0" end)
                                "type" (storing_at s t))
                          "name" (" $ocp$" ++ nm ++ "$ocp$ "))
                   "height" 0), s).
Proof.
  unfold first_time_columns, bind, get. cbn [isNode getName getType].
  rewrite qname_length.
  destruct (Z.ltb_spec 2688 (Z.of_nat (String.length nm)));
    destruct (Z.ltb_spec 2700 (Z.of_nat (String.length nm) + 12)); try lia; reflexivity.
Qed.

Lemma first_time_columns_link env cols t out aheight s :
  330 < Z.of_nat (length out) ->
  fst (first_time_columns env cols (Link t out) aheight s)
  = Err (IOException link_size_error).
Proof.
  intros H. unfold first_time_columns, bind, get, modify. cbn [isNode isLink].
  unfold getArity. cbn [getOutgoingSet].
  destruct (Z.ltb_spec 330 (Z.of_nat (length out))); [reflexivity|lia].
Qed.
End SizeLimits.

Module RetryProofs.
Import StorageFacts.
Import CLib Double Atomspace Storage Response Codec TypeMap IdCache AtomStore Examples.

(** The rows [store_atomtable_id] writes for a table: its own after
    those of the tables it is nested in, up to the first table the
    cache already holds. *)
Fixpoint space_inserts (at_ : AtomTable) (cache : gset Z) : list Pg.Stmt :=
  match at_ with
  | MkAtomTable tab_id environ =>
      if bool_decide (tab_id ∈ cache) then []
      else
        match environ with
        | Some env_ => space_inserts env_ ({[ tab_id ]} ∪ cache)
        | None => []
        end
        ++ [Pg.Insert "Spaces"
              [("space", to_string_d (to_long tab_id));
               ("parent", to_string_d (to_long match environ with
                                               | Some env_ => get_uuid_of_table env_
                                               | None => 1
                                               end))]]
  end.

Lemma store_atomtable_id_sent (at_ : AtomTable) :
  forall s, exists s',
    store_atomtable_id at_ s = (Ok tt, s')
    /\ sent s' = (sent s ++ space_inserts at_ (table_id_cache s))%list
    /\ table_id_cache s ⊆ table_id_cache s'
    /\ get_uuid_of_table at_ ∈ table_id_cache s'.
Proof.
  revert at_.
  fix IH 1. intros [tab_id environ] s.
  cbn [store_atomtable_id space_inserts get_uuid_of_table]. rewrite bind_get.
  destruct (bool_decide (tab_id ∈ table_id_cache s)) eqn:Hin.
  - exists s. unfold ret. rewrite app_nil_r. apply bool_decide_eq_true_1 in Hin. auto.
  - rewrite bind_modify.
    destruct environ as [env_|].
    + match goal with |- context [bind (bind (store_atomtable_id env_) _) _ ?s0] =>
        destruct (IH env_ s0) as (s1 & E & Hs & Hsub & _) end.
      rewrite (bind_ok _ _ _ s1 (get_uuid_of_table env_));
        [|rewrite (bind_ok _ _ _ _ _ E); reflexivity].
      rewrite bind_exec. eexists. split; [reflexivity|].
      cbn in Hs, Hsub |- *. rewrite Hs, app_assoc.
      split; [reflexivity|]. split; set_solver.
    + rewrite bind_ret, bind_exec. eexists. split; [reflexivity|].
      cbn. split; [reflexivity|]. split; set_solver.
Qed.

Definition is_spaces_insert (q : Pg.Stmt) : bool :=
  match q with
  | Pg.Insert table _ => String.eqb table "Spaces"
  | _ => false
  end.

Lemma space_inserts_spaces (at_ : AtomTable) :
  forall cache, forallb is_spaces_insert (space_inserts at_ cache) = true.
Proof.
  revert at_. fix IH 1. intros [tab_id environ] cache.
  cbn [space_inserts]. destruct (bool_decide _); [reflexivity|].
  rewrite forallb_app. destruct environ as [env_|]; [rewrite IH|]; reflexivity.
Qed.

(** X4. [store_atomtable_id] returns normally whatever the database
    answers.  It sends INSERTs into Spaces and nothing else: a row
    for each table from the given one outwards until a table that
    the cache knows, the outermost row first.  The identifier of the
    table is in the cache afterwards, so that a second call sends
    nothing. *)
Theorem store_atomtable_id_once (at_ : AtomTable) (s : State) :
  fst (store_atomtable_id at_ s) = Ok tt
  /\ sent (snd (store_atomtable_id at_ s))
     = (sent s ++ space_inserts at_ (table_id_cache s))%list
  /\ forallb is_spaces_insert (space_inserts at_ (table_id_cache s)) = true
  /\ get_uuid_of_table at_ ∈ table_id_cache (snd (store_atomtable_id at_ s))
  /\ store_atomtable_id at_ (snd (store_atomtable_id at_ s))
     = (Ok tt, snd (store_atomtable_id at_ s)).
Proof.
  destruct (store_atomtable_id_sent at_ s) as (s1 & E & Hs & _ & Hin).
  rewrite E. cbn [fst snd]. repeat split; try assumption.
  - apply space_inserts_spaces.
  - destruct at_ as [tab_id environ]. cbn [store_atomtable_id get_uuid_of_table] in *.
    rewrite bind_get. rewrite bool_decide_eq_true_2; [reflexivity|exact Hin].
Qed.

Definition retry_log (env : Env) (h : Atom) (qry : Pg.Stmt) (s : State) : list Pg.Stmt :=
  match fst (Pg.exec qry (db s)) with
  | Some _ => [qry]
  | None =>
      ([qry]
       ++ match getAtomTable env h with
          | Some at_ => space_inserts at_ (table_id_cache s)
          | None => []
          end
       ++ [qry])%list
  end.

Lemma execute_with_retry_sent (env : Env) (h : Atom) (qry : Pg.Stmt) (s : State) :
  exists s', execute_with_retry env h qry s = (Ok tt, s')
             /\ sent s' = (sent s ++ retry_log env h qry s)%list.
Proof.
  unfold execute_with_retry, retry_log. rewrite bind_exec.
  destruct (Pg.exec qry (db s)) as [[rows|] d] eqn:E; cbn [fst snd].
  - eexists. split; [reflexivity|]. reflexivity.
  - destruct (getAtomTable env h) as [at_|].
    + match goal with |- context [bind (store_atomtable_id at_) _ ?s0] =>
        destruct (store_atomtable_id_sent at_ s0) as (s1 & E1 & Hs & _) end.
      rewrite !(bind_ok _ _ _ _ _ E1), !bind_exec. cbn in Hs.
      eexists. split; [reflexivity|]. cbn. rewrite Hs, <- !app_assoc. reflexivity.
    + rewrite !bind_ret, !bind_exec. eexists. split; [reflexivity|].
      cbn. rewrite <- !app_assoc. reflexivity.
Qed.

(** X2. [execute_with_retry], the end of [do_store_single_atom],
    always returns normally.  When the first execution gives a
    record set the statement is sent once.  When it gives none,
    whatever made it fail, the rows of the atom's table and of the
    tables around it that the cache does not hold yet are sent to
    Spaces and the statement is sent a second time, and no more;
    what the second execution gives is not looked at. *)
Theorem execute_with_retry_on_any_failure (env : Env) (h : Atom) (qry : Pg.Stmt)
    (s : State) :
  fst (execute_with_retry env h qry s) = Ok tt
  /\ sent (snd (execute_with_retry env h qry s))
     = match fst (Pg.exec qry (db s)) with
       | Some _ => (sent s ++ [qry])%list
       | None =>
           (sent s ++ [qry]
            ++ match getAtomTable env h with
               | Some at_ => space_inserts at_ (table_id_cache s)
               | None => []
               end
            ++ [qry])%list
       end.
Proof.
  destruct (execute_with_retry_sent env h qry s) as (s' & E & Hs).
  rewrite E. cbn [fst snd]. split; [reflexivity|].
  rewrite Hs. unfold retry_log.
  destruct (fst (Pg.exec qry (db s))); reflexivity.
Qed.

(** The INSERT composed for the node named [a$ocp$b] in a fresh
    session: the name closes its own dollar quoting. *)
Definition unterminated_insert : Pg.Stmt :=
  Pg.Insert "Atoms"
    [("uuid", "1"); ("space", "1"); ("type", "8");
     ("name", " $ocp$a$ocp$b$ocp$ "); ("height", "0");
     ("tv_type", "10"); ("stv_mean", "         0.5");
     ("stv_confidence", "         0.9"); ("stv_count", "        7200")].

(** A run of it.  Space 1 is in the Spaces table from the start
    and the INSERT of the node fails for another reason; the code
    writes the space again, sends the INSERT a second time, returns
    normally and records the atom as stored, with no row for it in
    the database. *)
Lemma retry_with_persisted_space :
  Pg.Spaces (db fresh) !! 1 = Some 1
  /\ fst (do_store_single_atom c_locale (Node 8 "a$ocp$b") 0 fresh) = Ok tt
  /\ skipn 15 (sent (snd (do_store_single_atom c_locale (Node 8 "a$ocp$b") 0 fresh)))
     = [unterminated_insert;
        Pg.Insert "Spaces" [("space", "1"); ("parent", "1")];
        unterminated_insert]
  /\ Pg.Atoms (db (snd (do_store_single_atom c_locale (Node 8 "a$ocp$b") 0 fresh))) = ∅
  /\ 1 ∈ Storage.local_id_cache
           (snd (do_store_single_atom c_locale (Node 8 "a$ocp$b") 0 fresh)).
Proof.
  split; [|split; [|split; [|split]]].
  - vm_compute. reflexivity.
  - vm_compute. reflexivity.
  - vm_compute. reflexivity.
  - vm_compute. reflexivity.
  - apply (bool_decide_unpack _). vm_compute. exact I.
Qed.
End RetryProofs.

(** ** The height stored with an atom *)

Module HeightProofs.
Import CLib Double Atomspace Storage Response Codec TypeMap IdCache AtomStore Examples.
Import AtomFacts StorageFacts Frame QuietRuns.

(** The height as the specification defines it: 0 for a node, and
    for a link one more than the largest height in its outgoing
    set. *)
Fixpoint height (h : Atom) : Z :=
  match h with
  | Node _ _ => 0
  | Link _ out => 1 + fold_right Z.max 0 (List.map height out)
  end.

Lemma height_nonneg (h : Atom) : 0 <= height h.
Proof.
  destruct h as [t name|t out]; cbn [height]; [lia|].
  assert (0 <= fold_right Z.max 0 (List.map height out)); [|lia].
  induction out as [|x out IH]; cbn; lia.
Qed.

Lemma max_heights_nonneg (l : list Atom) : 0 <= fold_right Z.max 0 (List.map height l).
Proof. induction l as [|x l IH]; cbn; lia. Qed.

Lemma height_child (a : Atom) (l : list Atom) :
  In a l -> height a <= fold_right Z.max 0 (List.map height l).
Proof.
  induction l as [|x l IH]; cbn; [tauto|]. intros [->|H]; [lia|]. specialize (IH H). lia.
Qed.

Lemma to_int_small (v : Z) : - 2 ^ 31 <= v < 2 ^ 31 -> to_int v = v.
Proof. intros H. unfold to_int. rewrite Z.mod_small; lia. Qed.

(** [get_height] computes in [int], so it gives the height of the
    atoms whose height an [int] holds. *)
Lemma get_height_spec (h : Atom) : height h < 2 ^ 31 -> get_height h = height h.
Proof.
  induction h as [t name|t out IH] using Atom_nested_ind; intros Hh;
    cbn [get_height height]; [reflexivity|].
  cbn [height] in Hh. pose proof (max_heights_nonneg out) as Hm.
  assert (Hc : Forall (fun x => get_height x = height x) out).
  { apply List.Forall_forall. intros x Hx.
    rewrite List.Forall_forall in IH. apply (IH x Hx).
    pose proof (height_child x out Hx). lia. }
  match goal with |- to_int (?f out 0 + 1) = _ =>
    assert (H : forall m, 0 <= m ->
                          f out m = Z.max m (fold_right Z.max 0 (List.map height out))) end.
  { clear IH Hh Hm. induction Hc as [|x out Hx _ IHout]; intros m Hm; cbn [List.map fold_right].
    - lia.
    - rewrite Hx. pose proof (height_nonneg x).
      destruct (Z.ltb_spec m (height x)); rewrite IHout; lia. }
  rewrite H; [|lia]. rewrite to_int_small; lia.
Qed.

(** An atom of the outgoing set of [h], or of the outgoing set of
    such an atom, and so on. *)
Inductive Below : Atom -> Atom -> Prop :=
| Below_child (a : Atom) (t : Z) (out : list Atom) :
    In a out -> Below a (Link t out)
| Below_deeper (a b : Atom) (t : Z) (out : list Atom) :
    In b out -> Below a b -> Below a (Link t out).

(** What [written P] asks of a statement: it is not one of the
    statements of [create_tables], and when it is an INSERT into
    Atoms, its [uuid] column is the identifier of an atom that [P]
    holds of, its [height] column is the height of that atom, and
    it has a [tv_type] column. *)
Definition written (P : Atom -> Prop) (t : TLB) (q : Pg.Stmt) : Prop :=
  PgFacts.plain_stmt q = true
  /\ (is_atoms_insert q = true ->
      exists cols a u,
        q = Pg.Insert "Atoms" cols
        /\ P a
        /\ tlb_find a (tlb_bindings t) = Some u
        /\ Pg.assoc "uuid" cols = Some (to_string_u u)
        /\ Pg.assoc "height" cols = Some (to_string_u (height a))
        /\ In "tv_type" (List.map fst cols)).

Lemma written_mono P t t' q : tlb_le t t' -> written P t q -> written P t' q.
Proof.
  intros Ht [Hp H]. split; [exact Hp|]. intros Hq.
  destruct (H Hq) as (cols & a & u & E & Pa & Hu & Hc).
  exists cols, a, u. repeat split; try tauto. apply Ht, Hu.
Qed.

Lemma written_quiet P t q : quiet t q -> written P t q.
Proof. unfold quiet. intros [H Hp]. split; [exact Hp|]. intros Hq. congruence. Qed.

Lemma written_impl (P P' : Atom -> Prop) t q :
  (forall a, P a -> P' a) -> written P t q -> written P' t q.
Proof.
  intros HP [Hp H]. split; [exact Hp|]. intros Hq.
  destruct (H Hq) as (cols & a & u & E & Pa & Hu).
  exists cols, a, u. repeat split; try tauto. apply HP, Pa.
Qed.

Lemma assoc_app_Some k v (l l' : list (string * string)) :
  Pg.assoc k l = Some v -> Pg.assoc k (l ++ l') = Some v.
Proof.
  induction l as [|[k' v'] l IH]; cbn; [discriminate|].
  destruct (String.eqb k k'); auto.
Qed.

Section WithEnv.
Variable env : Env.

Lemma first_time_columns_result (x : string) (h : Atom) (n : Z) (s s' : State)
    (cols : list (string * string)) :
  first_time_columns env [("uuid", x)] h n s = (Ok cols, s') ->
  Pg.assoc "uuid" cols = Some x
  /\ Pg.assoc "height" cols
     = Some (to_string_u (if isNode h then 0 else n mod 2 ^ 32)).
Proof.
  unfold first_time_columns. rewrite bind_get.
  destruct h as [t name|t out]; cbn [isNode isLink].
  - destruct (_ <? _); [discriminate|]. intros [= <- <-]. split; reflexivity.
  - rewrite bind_modify. destruct (_ <? _); [discriminate|].
    intros H. apply bind_inv in H. destruct H as (ostr & s1 & _ & [= <- <-]).
    split; reflexivity.
Qed.

Lemma tv_columns_result (cols cols' : list (string * string)) tv (s s' : State) k v :
  tv_columns env cols tv s = (Ok cols', s') ->
  Pg.assoc k cols = Some v -> Pg.assoc k cols' = Some v.
Proof.
  unfold tv_columns, STMTF, STMTI, STMT. intros H Hk.
  destruct tv as [tv|].
  - repeat match type of H with
           | (if ?b then _ else _) _ = _ => destruct b
           end; try discriminate; injection H as <- <-;
      repeat apply assoc_app_Some; exact Hk.
  - repeat match type of H with
           | (if ?b then _ else _) _ = _ => destruct b
           end; discriminate.
Qed.

Lemma in_fst_app (k : string) (l l' : list (string * string)) :
  In k (List.map fst l) -> In k (List.map fst (l ++ l')).
Proof. intros H. rewrite List.map_app. apply in_or_app. left. exact H. Qed.

Lemma tv_columns_names (cols cols' : list (string * string)) tv (s s' : State) :
  tv_columns env cols tv s = (Ok cols', s') -> In "tv_type" (List.map fst cols').
Proof.
  unfold tv_columns, STMTF, STMTI, STMT. intros H.
  assert (Hin : In "tv_type"
                  (List.map fst (cols ++ [("tv_type",
                                           to_string_u (match tv with
                                                        | Some tv => getTVType tv
                                                        | None => 0
                                                        end mod 2 ^ 32))]))).
  { rewrite List.map_app. apply in_or_app. right. left. reflexivity. }
  destruct tv as [tv|].
  - repeat match type of H with
           | (if ?b then _ else _) _ = _ => destruct b
           end; try discriminate; injection H as <- <-;
      do 3 apply in_fst_app; exact Hin.
  - repeat match type of H with
           | (if ?b then _ else _) _ = _ => destruct b
           end; discriminate.
Qed.

Lemma Run_tlb_addAtom Q (P : TLB -> Prop) (h : Atom) (hint : Z) :
  Run Q P (tlb_addAtom h hint) (fun u t => tlb_find h (tlb_bindings t) = Some u).
Proof.
  intros s _. unfold tlb_addAtom. rewrite bind_get.
  pose proof (addAtom_le (tlbuf s) h hint) as Hle.
  pose proof (addAtom_bound (tlbuf s) h hint) as Hb.
  destruct (addAtom (tlbuf s) h hint) as [u t]. cbn in *. split.
  - apply Grows_tlb; [exact Hle|reflexivity|reflexivity].
  - intros a [= <-]. exact Hb.
Qed.

Lemma Run_execute_with_retry Q (P : TLB -> Prop) (h : Atom) (qry : Pg.Stmt) :
  (forall t t' q, tlb_le t t' -> Q t q -> Q t' q) ->
  (forall t q, quiet t q -> Q t q) -> stable P ->
  (forall t, P t -> Q t qry) ->
  Run Q P (execute_with_retry env h qry) (fun _ t => P t).
Proof.
  intros Qm Qq HP Hq. unfold execute_with_retry.
  eapply Run_bind; [exact Qm|apply Run_exec, Hq|]. intros [rows|].
  - apply Run_ret_frame.
  - eapply Run_bind; [exact Qm| |intros ?].
    + apply Quiet_frame; [exact Qq|exact HP|].
      destruct (getAtomTable env h); [apply Quiet_store_atomtable_id|apply Quiet_ret].
    + eapply Run_bind; [exact Qm|apply Run_exec, Hq|]. intros ?.
      apply Run_ret_frame.
Qed.

(** The statement of [do_store_single_atom] for [h], when it is an
    INSERT, carries the identifier of [h] and the height passed,
    which for a node is not looked at. *)
Lemma Run_do_store_single_atom (h : Atom) (n : Z) :
  (isNode h = false -> n = height h) -> height h < 2 ^ 32 ->
  Run (written (eq h)) (fun _ => True) (do_store_single_atom env h n)
      (fun _ _ => True).
Proof.
  intros Hn Hh. unfold do_store_single_atom.
  pose proof (@written_mono (eq h)) as Qm.
  pose proof (@written_quiet (eq h)) as Qq.
  eapply Run_bind; [exact Qm| |intros ?].
  { apply Quiet_frame; [exact Qq|apply stable_True|apply Quiet_setup_typemap]. }
  eapply Run_bind; [exact Qm|apply Run_tlb_addAtom|intros uuid].
  pose proof (stable_bound h uuid) as Hst.
  eapply Run_bind; [exact Qm| |intros owns_lock].
  { apply Quiet_frame; [exact Qq|exact Hst|apply Quiet_maybe_create_id]. }
  eapply Run_bind; [exact Qm| |intros ?].
  { apply Quiet_frame; [exact Qq|exact Hst|]. quiet. }
  cbn beta.
  destruct owns_lock; cbn [negb].
  - (* insert mode *)
    eapply Run_bind; [exact Qm| |intros cols].
    { apply Run_result; [apply Quiet_frame; [exact Qq|exact Hst|]|].
      - apply Quiet_first_time_columns.
      - intros s0 c0 s0' E. exact (first_time_columns_result _ _ _ _ _ _ E). }
    cbn beta.
    eapply Run_bind with (R := fun cols' t =>
        tlb_find h (tlb_bindings t) = Some uuid
        /\ Pg.assoc "uuid" cols' = Some (to_string_u uuid)
        /\ Pg.assoc "height" cols' = Some (to_string_u (height h))
        /\ In "tv_type" (List.map fst cols'));
      [exact Qm| |intros cols'].
    { intros s [Hu [Hc1 Hc2]]. split.
      - eapply Grows_weaken; [exact Qq|apply Quiet_tv_columns].
      - intros c0 E.
        assert (E' : tv_columns env cols (getTruthValue env h) s
                     = (Ok c0, snd (tv_columns env cols (getTruthValue env h) s))).
        { destruct (tv_columns env cols (getTruthValue env h) s). cbn in *. congruence. }
        split; [|split; [|split; [|eapply tv_columns_names; exact E']]].
        + pose proof (Quiet_tv_columns env cols (getTruthValue env h) s) as [G _].
          apply G, Hu.
        + eapply tv_columns_result; eassumption.
        + eapply tv_columns_result; [exact E'|]. rewrite Hc2. f_equal. f_equal.
          destruct h as [t name|t out]; cbn [isNode] in *; [reflexivity|].
          rewrite <- (Hn eq_refl). pose proof (height_nonneg (Link t out)).
          apply Z.mod_small. specialize (Hn eq_refl). lia. }
    eapply Run_bind; [exact Qm| |intros ?].
    { apply Run_execute_with_retry with
        (P := fun t => tlb_find h (tlb_bindings t) = Some uuid
                       /\ Pg.assoc "uuid" cols' = Some (to_string_u uuid)
                       /\ Pg.assoc "height" cols' = Some (to_string_u (height h))
                       /\ In "tv_type" (List.map fst cols'));
        [exact Qm|exact Qq| |].
      - intros t t' Ht [H1 H2]. split; [apply Ht, H1|exact H2].
      - intros t (H1 & H2 & H3 & H4). split; [reflexivity|]. intros _.
        exists cols', h, uuid. auto 10. }
    apply Quiet_any; [exact Qq|]. quiet. apply Quiet_add_id_to_cache.
  - (* update mode *)
    rewrite bind_ret_l.
    eapply Run_bind; [exact Qm| |intros cols'].
    { apply Quiet_frame; [exact Qq|exact Hst|apply Quiet_tv_columns]. }
    eapply Run_bind; [exact Qm| |intros ?].
    { apply Run_execute_with_retry; [exact Qm|exact Qq|exact Hst|].
      intros t _. apply written_quiet. split; reflexivity. }
    apply Quiet_any; [exact Qq|]. quiet. apply Quiet_add_id_to_cache.
Qed.

(** The loop of [do_store_atom] over the outgoing set. *)
Definition store_children (fuel : nat) : list Atom -> Z -> M Z :=
  fix loop (l : list Atom) (lheight : Z) : M Z :=
    match l with
    | [] => ret lheight
    | ho :: l' =>
        bind (do_store_atom env fuel ho)
             (fun heig => loop l' (if lheight <? heig then heig else lheight))
    end.

Lemma do_store_atom_link (fuel : nat) (t : Z) (out : list Atom) :
  do_store_atom env fuel (Link t out)
  = bind (store_children fuel out 0)
      (fun lheight =>
         bind (do_store_single_atom env (Link t out) (to_int (lheight + 1)))
           (fun _ => bind (store_atom_values env fuel (Link t out))
                       (fun _ => ret (to_int (lheight + 1))))).
Proof. reflexivity. Qed.

Definition upto (h a : Atom) : Prop := a = h \/ Below a h.

Lemma Run_store_children (fuel : nat) (h : Atom) (l : list Atom) :
  Forall (fun x => height x < 2 ^ 31 ->
                   Run (written (upto x)) (fun _ => True) (do_store_atom env fuel x)
                       (fun n _ => n = height x)) l ->
  Forall (fun x => height x < 2 ^ 31) l ->
  (forall x a, In x l -> upto x a -> Below a h) ->
  forall lheight, 0 <= lheight ->
    Run (written (fun a => Below a h)) (fun _ => True) (store_children fuel l lheight)
        (fun n _ => n = Z.max lheight (fold_right Z.max 0 (List.map height l))).
Proof.
  pose proof (@written_mono (fun a => Below a h)) as Qm.
  intros IH Hh Hb. induction IH as [|x l Hx _ IHl]; intros lheight Hl;
    cbn [List.map fold_right];
    [change (store_children fuel [] lheight) with (@ret Z lheight)
    |change (store_children fuel (x :: l) lheight)
       with (bind (do_store_atom env fuel x)
               (fun heig => store_children fuel l
                              (if lheight <? heig then heig else lheight)))].
  - intros s _. split; [apply Grows_refl|]. cbn. intros r [= <-]. lia.
  - apply Forall_cons in Hh. destruct Hh as [Hhx Hh].
    eapply Run_bind_pure with (R0 := fun heig => heig = height x);
      [exact Qm| |intros heig ->].
    + eapply Run_weaken; [|apply Hx, Hhx].
      intros t q. apply written_impl. intros a. apply Hb. left. reflexivity.
    + pose proof (height_nonneg x).
      eapply Run_conseq;
        [apply IHl; [exact Hh|intros y a Hy; apply Hb; right; exact Hy|]
        |auto|].
      * destruct (_ <? _); lia.
      * cbn beta. intros a _ ->. destruct (Z.ltb_spec lheight (height x)); lia.
Qed.

Lemma Run_do_store_atom (fuel : nat) (h : Atom) :
  height h < 2 ^ 31 ->
  Run (written (upto h)) (fun _ => True) (do_store_atom env fuel h)
      (fun n _ => n = height h).
Proof.
  induction h as [t name|t out IH] using Atom_nested_ind; intros Hh.
  - pose proof (@written_mono (upto (Node t name))) as Qm.
    cbn [do_store_atom]. eapply Run_bind; [exact Qm| |intros ?].
    { eapply Run_weaken; [|apply Run_do_store_single_atom; [discriminate|lia]].
      intros t0 q. apply written_impl. intros a <-. left. reflexivity. }
    eapply Run_bind; [exact Qm| |intros ?].
    { apply Quiet_any; [apply written_quiet|apply Quiet_store_atom_values]. }
    intros s _. split; [apply Grows_refl|]. cbn. intros r [= <-]. reflexivity.
  - pose proof (@written_mono (upto (Link t out))) as Qm.
    pose proof (max_heights_nonneg out) as Hm.
    rewrite do_store_atom_link.
    eapply Run_bind_pure
      with (R0 := fun lheight =>
                    lheight = Z.max 0 (fold_right Z.max 0 (List.map height out)));
      [exact Qm| |intros lheight ->].
    { eapply Run_weaken; [|apply (Run_store_children fuel (Link t out) out IH)].
      - intros t0 q. apply written_impl. intros a Ha. right. exact Ha.
      - apply List.Forall_forall. intros x Hx. pose proof (height_child x out Hx).
        cbn [height] in Hh. lia.
      - intros x a Hx [->|Ha]; [apply Below_child, Hx|eapply Below_deeper; eassumption].
      - lia. }
    assert (E : to_int (Z.max 0 (fold_right Z.max 0 (List.map height out)) + 1)
                = height (Link t out)).
    { cbn [height] in *. rewrite to_int_small; lia. }
    rewrite E.
    eapply Run_bind; [exact Qm| |intros ?].
    { eapply Run_weaken; [|apply Run_do_store_single_atom; [intros _; reflexivity|lia]].
      intros t0 q. apply written_impl. intros a <-. left. reflexivity. }
    eapply Run_bind; [exact Qm| |intros ?].
    { apply Quiet_any; [apply written_quiet|apply Quiet_store_atom_values]. }
    intros s _. split; [apply Grows_refl|]. cbn. intros r [= <-]. reflexivity.
Qed.

End WithEnv.

(** X3. The heights are [int]s in the code.  For an atom [h] whose
    height an [int] holds, whatever the state [do_store_atom] starts
    from and whether or not it fails on the way, every INSERT into
    Atoms it sends carries in its [uuid] column the identifier the
    buffer holds for [h] or for an atom below [h], and in its
    [height] column the height of that atom: 0 for a node, one more
    than the largest height of the outgoing set for a link.  When
    the call returns, it returns the height of [h], which is what
    [get_height] computes. *)
Theorem do_store_atom_heights (env : Env) (fuel : nat) (h : Atom) (s : State) :
  height h < 2 ^ 31 ->
  (forall n, fst (do_store_atom env fuel h s) = Ok n -> n = height h /\ n = get_height h)
  /\ exists l,
       sent (snd (do_store_atom env fuel h s)) = (sent s ++ l)%list
       /\ Forall (written (upto h) (tlbuf (snd (do_store_atom env fuel h s)))) l.
Proof.
  intros Hh. destruct (Run_do_store_atom env fuel h Hh s I) as [[_ G] Hr]. split.
  - intros n E. rewrite (get_height_spec h Hh). split; apply (Hr n E).
  - destruct G as (l & E & F & _). exists l. split; assumption.
Qed.

Definition two_level : Atom := Link 9 [Node 8 "a"; Link 9 [Node 8 "b"]].

Lemma do_store_atom_heights_witness :
  height two_level < 2 ^ 31
  /\ fst (do_store_atom c_locale 1 two_level fresh) = Ok 2
  /\ ((forall n, fst (do_store_atom c_locale 1 two_level fresh) = Ok n ->
                 n = height two_level /\ n = get_height two_level)
      /\ exists l,
           sent (snd (do_store_atom c_locale 1 two_level fresh)) = (sent fresh ++ l)%list
           /\ Forall (written (upto two_level)
                        (tlbuf (snd (do_store_atom c_locale 1 two_level fresh)))) l).
Proof.
  split; [vm_compute; reflexivity|]. split; [vm_compute; reflexivity|].
  apply (do_store_atom_heights c_locale 1 two_level fresh). vm_compute. reflexivity.
Defined.
End HeightProofs.

(** ** The identifiers and the rows of stored values *)

Module ValueStore.
Import CLib Double Atomspace Storage Response Codec Examples.
Import StorageFacts QuietRuns.

(** The number of values in a value: itself and, for a link value,
    those of its elements. *)
Fixpoint count_values (pap : Value) : Z :=
  match pap with
  | LinkValue l => 1 + fold_right Z.add 0 (List.map count_values l)
  | _ => 1
  end.

Definition count_all (l : list Value) : Z := fold_right Z.add 0 (List.map count_values l).

(** The identifiers of the elements of a link value, when the first
    of them is given [u]. *)
Fixpoint child_vuids (u : Z) (l : list Value) : list Z :=
  match l with
  | [] => []
  | x :: l' => u :: child_vuids (u + count_values x) l'
  end.

Lemma count_values_pos (pap : Value) : 0 < count_values pap.
Proof.
  induction pap as [v|v|v IH] using Value_nested_ind; cbn [count_values]; try lia.
  assert (0 <= fold_right Z.add 0 (List.map count_values v)); [|lia].
  induction IH as [|x l Hx _ IHl]; cbn; lia.
Qed.

Lemma count_all_nonneg (l : list Value) : 0 <= count_all l.
Proof.
  unfold count_all. induction l as [|x l IH]; cbn; [lia|].
  pose proof (count_values_pos x). lia.
Qed.

Section WithEnv.
Variable env : Env.

Definition value_row (u : Z) (pap : Value) (col text : string) : Pg.Stmt :=
  Pg.Insert "Values"
    [("vuid", to_string_u u);
     ("type", to_string_u (value_type env pap mod 2 ^ 32));
     (col, text)].

(** The INSERTs of [storeValue] for a value that is given the
    identifier [u], in the order they are sent: the rows of the
    elements of a link value, each with those of its own elements
    before it, and then the row of the value. *)
Fixpoint value_rows (u : Z) (pap : Value) : list Pg.Stmt :=
  match pap with
  | FloatValue v => [value_row u pap "floatvalue" (float_to_string env v)]
  | StringValue v => [value_row u pap "stringvalue" (string_to_string v)]
  | LinkValue l =>
      ((fix rows (u' : Z) (l : list Value) : list Pg.Stmt :=
          match l with
          | [] => []
          | x :: l' => value_rows u' x ++ rows (u' + count_values x) l'
          end) (u + 1) l
       ++ [value_row u pap "linkvalue"
             (array_literal (List.map to_string_u (child_vuids (u + 1) l)))])%list
  end.

Definition element_rows : Z -> list Value -> list Pg.Stmt :=
  fix rows (u' : Z) (l : list Value) : list Pg.Stmt :=
    match l with
    | [] => []
    | x :: l' => (value_rows u' x ++ rows (u' + count_values x) l')%list
    end.

(** The loop of [link_to_string] inside [storeValue]. *)
Definition store_elements : bool -> string -> list Value -> M string :=
  fix link_to_string (not_first : bool) (str : string) (l : list Value) : M string :=
    match l with
    | [] => ret str
    | pap' :: l' =>
        let str := if not_first then str ++ ", " else str in
        bind (storeValue env pap')
             (fun vuid' => link_to_string true (str ++ to_string_u vuid') l')
    end.

Lemma storeValue_eq (pap : Value) (s : State) :
  storeValue env pap s
  = bind (match pap with
          | FloatValue fvp =>
              ret (STMT (STMTI (STMT [] "vuid" (to_string_u (next_valid s))) "type"
                           (value_type env pap)) "floatvalue" (float_to_string env fvp))
          | StringValue svp =>
              ret (STMT (STMTI (STMT [] "vuid" (to_string_u (next_valid s))) "type"
                           (value_type env pap)) "stringvalue" (string_to_string svp))
          | LinkValue lvp =>
              bind (store_elements false "'{" lvp)
                   (fun str =>
                      ret (STMT (STMTI (STMT [] "vuid" (to_string_u (next_valid s))) "type"
                                   (value_type env pap)) "linkvalue" (str ++ "}'")))
          end)
         (fun cols => bind (exec (Pg.Insert "Values" cols))
                           (fun _ => ret (next_valid s)))
         (with_next_valid (to_u64 (next_valid s + 1)) s).
Proof. destruct pap; reflexivity. Qed.

Lemma storeValue_run (pap : Value) :
  forall s, 0 <= next_valid s -> next_valid s + count_values pap < 2 ^ 64 ->
  exists s',
    storeValue env pap s = (Ok (next_valid s), s')
    /\ next_valid s' = next_valid s + count_values pap
    /\ sent s' = (sent s ++ value_rows (next_valid s) pap)%list
    /\ tlbuf s' = tlbuf s.
Proof.
  induction pap as [v|v|v IH] using Value_nested_ind; intros s H0 Hlt;
    rewrite storeValue_eq; cbn [count_values] in *.
  - rewrite bind_ret, bind_exec. eexists. split; [reflexivity|]. cbn.
    unfold to_u64. rewrite Z.mod_small by lia. auto.
  - rewrite bind_ret, bind_exec. eexists. split; [reflexivity|]. cbn.
    unfold to_u64. rewrite Z.mod_small by lia. auto.
  - fold (count_all v) in Hlt.
    assert (Hl : forall b str s1,
               0 <= next_valid s1 -> next_valid s1 + count_all v < 2 ^ 64 ->
               exists s2,
                 store_elements b str v s1
                 = (Ok (append_elements b str
                          (List.map to_string_u (child_vuids (next_valid s1) v))), s2)
                 /\ next_valid s2 = next_valid s1 + count_all v
                 /\ sent s2 = (sent s1 ++ element_rows (next_valid s1) v)%list
                 /\ tlbuf s2 = tlbuf s1).
    { clear s H0 Hlt. induction IH as [|x l Hx _ IHl]; intros b str s1 H0 Hlt.
      - exists s1. cbn. rewrite app_nil_r. unfold count_all. cbn. split; [reflexivity|].
        split; [lia|auto].
      - unfold count_all in Hlt. cbn [List.map fold_right] in Hlt.
        fold (count_all l) in Hlt.
        pose proof (count_all_nonneg l). pose proof (count_values_pos x).
        destruct (Hx s1 H0 ltac:(lia)) as (s2 & E2 & N2 & S2 & T2).
        destruct (IHl true ((if b then str ++ ", " else str) ++ to_string_u (next_valid s1))
                    s2 ltac:(lia) ltac:(lia)) as (s3 & E3 & N3 & S3 & T3).
        exists s3.
        change (store_elements b str (x :: l))
          with (bind (storeValue env x)
                  (fun vuid' => store_elements true
                     ((if b then str ++ ", " else str) ++ to_string_u vuid') l)).
        rewrite (bind_ok _ _ _ _ _ E2), E3, N2.
        split; [reflexivity|]. unfold count_all. cbn [List.map fold_right].
        fold (count_all l). split; [lia|]. split; [|congruence].
        rewrite S3, S2, N2. cbn [element_rows]. rewrite app_assoc. reflexivity. }
    pose proof (count_all_nonneg v).
    assert (Em : to_u64 (next_valid s + 1) = next_valid s + 1)
      by (apply Z.mod_small; lia).
    destruct (Hl false "'{" (with_next_valid (to_u64 (next_valid s + 1)) s))
      as (s2 & E2 & N2 & S2 & T2).
    { cbn. rewrite Em. lia. }
    { cbn. rewrite Em. lia. }
    rewrite (bind_ok _ _ _ s2 _ (bind_ok _ _ _ _ _ E2)).
    rewrite bind_exec. eexists. split; [reflexivity|].
    cbn [sent next_valid tlbuf with_db with_next_valid fst snd] in N2, S2, T2 |- *.
    rewrite Em in *.
    fold (count_all v). split; [lia|]. split; [|exact T2].
    rewrite S2, <- app_assoc. reflexivity.
Qed.

End WithEnv.

(** X5. [storeValue] returns normally whatever the database
    answers.  The identifier it returns is the counter at entry; the
    counter advances by the number of values stored, one for the
    value and one for each value nested in it, so that the elements
    of a link value get the identifiers that follow its own.  The
    statements sent are the INSERTs into Values of the nested
    values, each after those of its own elements, and the row of the
    value itself comes last. *)
Theorem storeValue_vuids (env : Env) (pap : Value) (s : State) :
  0 <= next_valid s -> next_valid s + count_values pap < 2 ^ 64 ->
  fst (storeValue env pap s) = Ok (next_valid s)
  /\ next_valid (snd (storeValue env pap s)) = next_valid s + count_values pap
  /\ sent (snd (storeValue env pap s)) = (sent s ++ value_rows env (next_valid s) pap)%list.
Proof.
  intros H0 Hlt. destruct (storeValue_run env pap s H0 Hlt) as (s' & E & N & S & _).
  rewrite E. auto.
Qed.

Definition nested_value : Value :=
  LinkValue [FloatValue [half]; LinkValue [StringValue ["a"]]].

Lemma storeValue_vuids_witness :
  value_rows c_locale 1 nested_value
  = [Pg.Insert "Values" [("vuid", "2"); ("type", "2"); ("floatvalue", "'{0.500000}'")];
     Pg.Insert "Values" [("vuid", "4"); ("type", "3"); ("stringvalue", "'{a}'")];
     Pg.Insert "Values" [("vuid", "3"); ("type", "4"); ("linkvalue", "'{4}'")];
     Pg.Insert "Values" [("vuid", "1"); ("type", "4"); ("linkvalue", "'{2, 3}'")]]
  /\ fst (storeValue c_locale nested_value fresh) = Ok (next_valid fresh)
  /\ next_valid (snd (storeValue c_locale nested_value fresh))
     = next_valid fresh + count_values nested_value
  /\ sent (snd (storeValue c_locale nested_value fresh))
     = (sent fresh ++ value_rows c_locale (next_valid fresh) nested_value)%list.
Proof.
  split; [vm_compute; reflexivity|].
  apply (storeValue_vuids c_locale nested_value fresh); vm_compute; congruence.
Defined.
End ValueStore.

(** ** One INSERT, then UPDATEs, in one thread *)

Module StoreOnce.
Import CLib Double Atomspace Storage Response Codec TypeMap IdCache AtomStore Examples.
Import AtomFacts StorageFacts Frame QuietRuns IdFrame FailureKinds RetryProofs StepFrames.

Section WithEnv.
Variable env : Env.

(** [do_store_single_atom] from the call of [maybe_create_id] on. *)
Definition store_tail (h : Atom) (aheight uuid : Z) : M unit :=
  bind (maybe_create_id uuid) (fun owns_lock =>
    let update := negb owns_lock in
    let cols := if update then [] else STMT [] "uuid" (to_string_u uuid) in
    bind (modify (count_store (aheight =? 0) update)) (fun _ =>
    bind (if update then ret cols else first_time_columns env cols h aheight) (fun cols =>
    bind (tv_columns env cols (getTruthValue env h)) (fun cols =>
    let qry := if update then Pg.UpdateAtoms cols (to_string_u uuid)
               else Pg.Insert "Atoms" cols in
    bind (execute_with_retry env h qry) (fun _ =>
    bind (add_id_to_cache uuid) (fun _ =>
      modify (fun s => with_counters (max_height s) (store_count s + 1) (load_count s)
                         (num_node_inserts s) (num_node_updates s)
                         (num_link_inserts s) (num_link_updates s) s))))))).

Lemma do_store_single_atom_eq (h : Atom) (aheight : Z) :
  do_store_single_atom env h aheight
  = bind (setup_typemap env) (fun _ =>
      bind (tlb_addAtom h INVALID_UUID) (fun uuid => store_tail h aheight uuid)).
Proof. reflexivity. Qed.

Lemma tlb_addAtom_bound (h : Atom) (hint u : Z) (s : State) :
  tlb_find h (tlb_bindings (tlbuf s)) = Some u ->
  tlb_addAtom h hint s = (Ok u, with_tlbuf (tlbuf s) s).
Proof.
  intros H. unfold tlb_addAtom. rewrite bind_get. unfold addAtom. rewrite H.
  reflexivity.
Qed.

Lemma tlb_addAtom_ok (h : Atom) (hint : Z) (s : State) :
  exists u s', tlb_addAtom h hint s = (Ok u, s')
               /\ tlb_find h (tlb_bindings (tlbuf s')) = Some u
               /\ local_id_cache s' = local_id_cache s
               /\ id_create_cache s' = id_create_cache s
               /\ sent s' = sent s
               /\ type_map_was_loaded s' = type_map_was_loaded s.
Proof.
  unfold tlb_addAtom. rewrite bind_get.
  pose proof (addAtom_bound (tlbuf s) h hint) as Hb.
  destruct (addAtom (tlbuf s) h hint) as [u t]. cbn in Hb.
  exists u. eexists. split; [reflexivity|]. cbn. auto.
Qed.

Lemma Quiet_execute_with_retry (h : Atom) (qry : Pg.Stmt) :
  is_atoms_insert qry = false -> PgFacts.plain_stmt qry = true ->
  Quiet (execute_with_retry env h qry).
Proof.
  intros H Hp. unfold execute_with_retry.
  apply Quiet_bind; [apply Quiet_exec; assumption|intros [rows|]]; quiet.
  - apply Quiet_store_atomtable_id.
  - apply Quiet_exec; assumption.
Qed.

(** The tail in update mode. *)
Definition update_tail (h : Atom) (aheight uuid : Z) : M unit :=
  bind (modify (count_store (aheight =? 0) true)) (fun _ =>
  bind (tv_columns env [] (getTruthValue env h)) (fun cols =>
  bind (execute_with_retry env h (Pg.UpdateAtoms cols (to_string_u uuid))) (fun _ =>
  bind (add_id_to_cache uuid) (fun _ =>
    modify (fun s => with_counters (max_height s) (store_count s + 1) (load_count s)
                       (num_node_inserts s) (num_node_updates s)
                       (num_link_inserts s) (num_link_updates s) s))))).

Lemma maybe_create_id_known (uuid : Z) (s : State) :
  uuid ∈ local_id_cache s -> maybe_create_id uuid s = (Ok false, s).
Proof.
  intros H. unfold maybe_create_id. rewrite bind_get.
  rewrite bool_decide_eq_true_2 by exact H. reflexivity.
Qed.

Lemma maybe_create_id_pending (uuid : Z) (s : State) :
  uuid ∉ local_id_cache s -> uuid ∈ id_create_cache s ->
  maybe_create_id uuid s = (Err Deadlock, s).
Proof.
  intros H1 H2. unfold maybe_create_id. rewrite bind_get.
  rewrite bool_decide_eq_false_2 by exact H1.
  rewrite bool_decide_eq_true_2 by exact H2. reflexivity.
Qed.

Lemma maybe_create_id_new (uuid : Z) (s : State) :
  uuid ∉ local_id_cache s -> uuid ∉ id_create_cache s ->
  maybe_create_id uuid s
  = (Ok true, with_caches (local_id_cache s) ({[ uuid ]} ∪ id_create_cache s)
                (table_id_cache s) (local_id_cache_is_inited s) s).
Proof.
  intros H1 H2. unfold maybe_create_id. rewrite bind_get.
  rewrite bool_decide_eq_false_2 by exact H1.
  rewrite bool_decide_eq_false_2 by exact H2. reflexivity.
Qed.

Lemma store_tail_update (h : Atom) (aheight uuid : Z) (s : State) :
  uuid ∈ local_id_cache s -> store_tail h aheight uuid s = update_tail h aheight uuid s.
Proof.
  intros H. unfold store_tail. rewrite (bind_ok _ _ _ _ _ (maybe_create_id_known _ _ H)).
  reflexivity.
Qed.

Lemma update_tail_run (h : Atom) (aheight uuid : Z) (s : State) :
  exists l, sent (snd (update_tail h aheight uuid s)) = (sent s ++ l)%list
            /\ Forall (fun q => is_atoms_insert q = false) l
            /\ (fst (update_tail h aheight uuid s) = Ok tt ->
                exists cols, In (Pg.UpdateAtoms cols (to_string_u uuid)) l).
Proof.
  unfold update_tail. rewrite bind_modify.
  set (s0 := count_store (aheight =? 0) true s).
  assert (Hs0 : sent s0 = sent s) by reflexivity.
  destruct (tv_columns env [] (getTruthValue env h) s0) as [[cols|f] s1] eqn:E1.
  - pose proof (Quiet_tv_columns env [] (getTruthValue env h) s0) as [_ (l1 & El1 & _)].
    rewrite E1 in El1. cbn in El1.
    assert (S1 : sent s1 = sent s0).
    { unfold tv_columns in E1.
      repeat match type of E1 with
             | context [match ?x with _ => _ end] => destruct x
             end; try discriminate; injection E1 as _ <-; reflexivity. }
    rewrite (bind_ok _ _ _ _ _ E1).
    destruct (execute_with_retry_sent env h (Pg.UpdateAtoms cols (to_string_u uuid)) s1)
      as (s2 & E2 & S2).
    rewrite (bind_ok _ _ _ _ _ E2). unfold add_id_to_cache. rewrite bind_modify.
    cbn [modify fst snd sent with_counters with_caches].
    exists (retry_log env h (Pg.UpdateAtoms cols (to_string_u uuid)) s1).
    rewrite S2, S1, Hs0. split; [reflexivity|]. split.
    + pose proof (Quiet_execute_with_retry h (Pg.UpdateAtoms cols (to_string_u uuid))
                    eq_refl eq_refl s1) as [_ (l & El & Fl & _)].
      rewrite E2 in El. cbn in El. rewrite S2 in El. apply app_inv_head in El.
      rewrite El. exact (quiet_no_insert _ _ Fl).
    + intros _. exists cols. unfold retry_log.
      destruct (fst (Pg.exec _ _)); cbn; auto.
  - rewrite (bind_err _ _ _ _ _ E1). cbn.
    assert (S1 : sent s1 = sent s0).
    { unfold tv_columns in E1.
      repeat match type of E1 with
             | context [match ?x with _ => _ end] => destruct x
             end; try discriminate; injection E1 as _ <-; reflexivity. }
    exists []. rewrite app_nil_r, S1, Hs0. split; [reflexivity|].
    split; [constructor|discriminate].
Qed.

Lemma Quiet_tlb_le {A : Type} (m : M A) (s s' : State) (r : Result A) :
  Quiet m -> m s = (r, s') -> tlb_le (tlbuf s) (tlbuf s').
Proof. intros H E. destruct (H s) as [Hle _]. rewrite E in Hle. exact Hle. Qed.

Lemma Keeps_same_ids {A : Type} (m : M A) (s s' : State) (r : Result A) :
  Keeps m -> m s = (r, s') -> same_ids s s'.
Proof. intros H E. specialize (H s). rewrite E in H. exact H. Qed.

(** Once the identifier of [h] is in [local_id_cache], a store of
    [h] sends no INSERT into Atoms, and when it returns it has
    sent an UPDATE of the row of that identifier. *)
Lemma store_again_updates (h : Atom) (aheight u : Z) (s : State) :
  tlb_find h (tlb_bindings (tlbuf s)) = Some u -> u ∈ local_id_cache s ->
  exists l,
    sent (snd (do_store_single_atom env h aheight s)) = (sent s ++ l)%list
    /\ Forall (fun q => is_atoms_insert q = false) l
    /\ (fst (do_store_single_atom env h aheight s) = Ok tt ->
        exists cols, In (Pg.UpdateAtoms cols (to_string_u u)) l).
Proof.
  intros Hb Hc. rewrite do_store_single_atom_eq.
  destruct (setup_typemap env s) as [[[]|f] sa] eqn:E.
  - pose proof (Keeps_same_ids _ _ _ _ (Keeps_setup_typemap env) E) as (Ht & Hl & _).
    pose proof (Quiet_setup_typemap env s) as [_ (l1 & El1 & Fl1 & _)].
    rewrite E in El1, Fl1. cbn in El1, Fl1. apply quiet_no_insert in Fl1.
    rewrite (bind_ok _ _ _ _ _ E).
    rewrite <- Ht in Hb. rewrite (bind_ok _ _ _ _ _ (tlb_addAtom_bound h _ u sa Hb)).
    rewrite store_tail_update by (cbn; rewrite Hl; exact Hc).
    destruct (update_tail_run h aheight u (with_tlbuf (tlbuf sa) sa)) as (l2 & El2 & Fl2 & Hu).
    exists (l1 ++ l2)%list. rewrite El2. cbn [sent with_tlbuf]. rewrite El1, app_assoc.
    split; [reflexivity|]. split; [apply Forall_app; split; assumption|].
    intros Hok. destruct (Hu Hok) as (cols & Hin). exists cols.
    apply in_or_app. right. exact Hin.
  - rewrite (bind_err _ _ _ _ _ E). cbn.
    pose proof (Quiet_setup_typemap env s) as [_ (l1 & El1 & Fl1 & _)].
    rewrite E in El1, Fl1. apply quiet_no_insert in Fl1.
    exists l1. split; [exact El1|]. split; [exact Fl1|discriminate].
Qed.

(** A store that returns leaves the identifier of the atom in
    [local_id_cache] and out of [id_create_cache]. *)
Lemma stored_is_cached (h : Atom) (aheight : Z) (s s' : State) :
  do_store_single_atom env h aheight s = (Ok tt, s') ->
  exists u, tlb_find h (tlb_bindings (tlbuf s')) = Some u
            /\ u ∈ local_id_cache s' /\ u ∉ id_create_cache s'.
Proof.
  rewrite do_store_single_atom_eq. intros H.
  apply bind_inv in H. destruct H as ([] & sa & _ & H).
  apply bind_inv in H. destruct H as (u & sb & Eb & H).
  destruct (tlb_addAtom_ok h INVALID_UUID sa) as (u' & sb' & Eb' & Hb & _).
  rewrite Eb in Eb'. injection Eb' as <- <-.
  unfold store_tail in H.
  apply bind_inv in H. destruct H as (owns & sc & Ec & H).
  apply bind_inv in H. destruct H as ([] & sd & Ed & H).
  apply bind_inv in H. destruct H as (cols & se & Ee & H).
  apply bind_inv in H. destruct H as (cols' & sf & Ef & H).
  apply bind_inv in H. destruct H as ([] & sg & Eg & H).
  apply bind_inv in H. destruct H as ([] & sh & Eh & H).
  exists u.
  pose proof (Quiet_tlb_le _ _ _ _ (Quiet_maybe_create_id u) Ec) as L1.
  injection Ed as <-.
  assert (L2 : tlb_le (tlbuf (count_store (aheight =? 0) (negb owns) sc)) (tlbuf se)).
  { destruct owns; cbn [negb] in Ee.
    - exact (Quiet_tlb_le _ _ _ _ (Quiet_first_time_columns env _ _ _) Ee).
    - injection Ee as _ <-. apply tlb_le_refl. }
  pose proof (Quiet_tlb_le _ _ _ _ (Quiet_tv_columns env _ _) Ef) as L3.
  pose proof (Keeps_same_ids _ _ _ _ (Keeps_execute_with_retry env _ _) Eg) as (L4 & _).
  unfold add_id_to_cache in Eh. injection Eh as <-. injection H as <-.
  cbn. split; [|split].
  - rewrite L4. apply L3, L2, L1, Hb.
  - set_solver.
  - destruct (bool_decide (u ∈ id_create_cache sg)) eqn:Hd.
    + set_solver.
    + apply bool_decide_eq_false_1 in Hd. exact Hd.
Qed.

(** Whether the atom is beyond the size that a first store
    accepts, and the message raised for it. *)
Definition too_large (h : Atom) : bool :=
  match h with
  | Node _ name => 2688 <? Z.of_nat (String.length name)
  | Link _ out => 330 <? Z.of_nat (length out)
  end.

Definition size_error (h : Atom) : string :=
  if isNode h then node_name_error else link_size_error.

Lemma first_time_columns_too_large (cols : list (string * string)) (h : Atom)
    (aheight : Z) (s : State) :
  too_large h = true ->
  exists s', first_time_columns env cols h aheight s = (Err (IOException (size_error h)), s')
             /\ same_ids s s' /\ type_map_was_loaded s' = type_map_was_loaded s.
Proof.
  intros H. destruct h as [t name|t out]; cbn [too_large size_error isNode] in *.
  - rewrite SizeLimits.first_time_columns_node, H. exists s. split; [reflexivity|].
    split; [apply same_ids_refl|reflexivity].
  - unfold first_time_columns. rewrite bind_get. cbn [isNode isLink]. rewrite bind_modify.
    unfold getArity. cbn [getOutgoingSet]. rewrite H. eexists. split; [reflexivity|].
    split; [repeat split|reflexivity].
Qed.

Lemma update_tail_failure (h : Atom) (aheight uuid : Z) (s : State) :
  fst (update_tail h aheight uuid s) <> Err (IOException (size_error h)).
Proof.
  unfold update_tail. rewrite bind_modify.
  set (s0 := count_store (aheight =? 0) true s).
  destruct (tv_columns env [] (getTruthValue env h) s0) as [[cols|f] s1] eqn:E1.
  - rewrite (bind_ok _ _ _ _ _ E1).
    destruct (execute_with_retry_sent env h (Pg.UpdateAtoms cols (to_string_u uuid)) s1)
      as (s2 & E2 & _).
    rewrite (bind_ok _ _ _ _ _ E2). discriminate.
  - rewrite (bind_err _ _ _ _ _ E1). cbn. intros [= ->].
    unfold tv_columns, size_error, node_name_error, link_size_error in E1.
    repeat match type of E1 with
           | context [match ?x with _ => _ end] => destruct x
           end; discriminate.
Qed.

Lemma first_failure_leaves_pending (h : Atom) (aheight : Z) (s : State) :
  too_large h = true ->
  fst (do_store_single_atom env h aheight s) = Err (IOException (size_error h)) ->
  exists u,
    tlb_find h (tlb_bindings (tlbuf (snd (do_store_single_atom env h aheight s)))) = Some u
    /\ u ∉ local_id_cache (snd (do_store_single_atom env h aheight s))
    /\ u ∈ id_create_cache (snd (do_store_single_atom env h aheight s))
    /\ type_map_was_loaded (snd (do_store_single_atom env h aheight s)) = true.
Proof.
  intros Hl. rewrite do_store_single_atom_eq.
  destruct (setup_typemap env s) as [[[]|f] sa] eqn:E.
  2:{ rewrite (bind_err _ _ _ _ _ E). cbn. intros [= ->].
      destruct (Fails_setup_typemap env _ _ _ E) as (w & Hw). discriminate Hw. }
  rewrite (bind_ok _ _ _ _ _ E).
  pose proof (setup_typemap_loaded env _ _ E) as Hld.
  destruct (tlb_addAtom_ok h INVALID_UUID sa) as (u & sb & Eb & Hb & Hlc & Hcc & _ & Hld').
  rewrite (bind_ok _ _ _ _ _ Eb).
  destruct (decide (u ∈ local_id_cache sb)) as [Hin|Hnin].
  { rewrite store_tail_update by exact Hin. intros H.
    exfalso. exact (update_tail_failure _ _ _ _ H). }
  destruct (decide (u ∈ id_create_cache sb)) as [Hin'|Hnin'].
  { unfold store_tail.
    rewrite (bind_err _ _ _ _ _ (maybe_create_id_pending _ _ Hnin Hin')). discriminate. }
  unfold store_tail. rewrite (bind_ok _ _ _ _ _ (maybe_create_id_new _ _ Hnin Hnin')).
  cbn [negb]. rewrite bind_modify.
  match goal with |- context [bind (first_time_columns env ?c h aheight) _ ?s0] =>
    destruct (first_time_columns_too_large c h aheight s0 Hl)
      as (se & Ee & (Ht & Hl1 & Hc1 & _) & Hld1) end.
  rewrite (bind_err _ _ _ _ _ Ee). cbn [fst snd]. intros _. exists u.
  cbn in Ht, Hl1, Hc1, Hld1. rewrite Ht, Hl1, Hc1, Hld1.
  split; [exact Hb|]. split; [exact Hnin|]. split; [set_solver|congruence].
Qed.

End WithEnv.

(** X7. An atom too large for a first store cannot be stored later
    in the session either.  When a call of [do_store_single_atom]
    for it has raised the size error, the identifier stays in
    [id_create_cache]; in a further call for the same atom
    [maybe_create_id] finds it there and locks [id_create_mutex],
    which its own [create_lock] holds, so that the call does not
    return. *)
Theorem failed_first_store_blocks (env : Env) (h : Atom) (aheight aheight' : Z)
    (s : State) :
  too_large h = true ->
  fst (do_store_single_atom env h aheight s) = Err (IOException (size_error h)) ->
  fst (do_store_single_atom env h aheight' (snd (do_store_single_atom env h aheight s)))
  = Err Deadlock.
Proof.
  intros Hl H.
  destruct (first_failure_leaves_pending env h aheight s Hl H) as (u & Hb & Hn & Hc & Hld).
  rewrite do_store_single_atom_eq.
  rewrite (bind_ok _ _ _ _ _ (setup_typemap_again env _ Hld)).
  rewrite (bind_ok _ _ _ _ _ (tlb_addAtom_bound h _ u _ Hb)).
  unfold store_tail. erewrite bind_err; [reflexivity|].
  apply maybe_create_id_pending; cbn; assumption.
Qed.

Lemma failed_first_store_blocks_witness :
  fst (do_store_single_atom c_locale (Node 8 (name_of_length 2689)) 0
         (snd (do_store_single_atom c_locale (Node 8 (name_of_length 2689)) 0 fresh)))
  = Err Deadlock.
Proof.
  apply (failed_first_store_blocks c_locale (Node 8 (name_of_length 2689)) 0 0 fresh);
    vm_compute; reflexivity.
Defined.

(** A further call on the storage object: of
    [do_store_single_atom], or of [do_store_atom], which stores the
    atoms of the outgoing set first and the values of each atom
    with it. *)
Inductive Store : Type :=
| Single (h : Atom) (aheight : Z)
| Whole (fuel : nat) (h : Atom).

Definition store (env : Env) (o : Store) (s : State) : State :=
  match o with
  | Single h aheight => snd (do_store_single_atom env h aheight s)
  | Whole fuel h => snd (do_store_atom env fuel h s)
  end.

(** The state after the calls of a list, made one after the other,
    whether they return or not. *)
Definition after (env : Env) (calls : list Store) (s : State) : State :=
  fold_left (fun s o => store env o s) calls s.

Lemma grows_after (env : Env) (calls : list Store) : forall s, grows s (after env calls s).
Proof.
  induction calls as [|o calls IH]; intros s; [apply grows_refl|].
  cbn [after fold_left]. eapply grows_trans; [|apply IH].
  destruct o as [h aheight|fuel h]; cbn [store].
  - apply Growing_do_store_single_atom.
  - apply Growing_do_store_atom.
Qed.

(** X6. In one thread an atom is inserted once.  After a call of
    [do_store_single_atom] for [h] that returned, and whatever calls
    of [do_store_single_atom] and of [do_store_atom] are made
    then, for any atoms and whether they return or not, a call for
    [h] sends no INSERT into Atoms, whether it fails or not, and
    when it returns it has sent an UPDATE of the row that carries
    the identifier of [h].  The calls in between are stores:
    [get_ids], which empties [local_id_cache] the first time it is
    called, is not one of them. *)
Theorem insert_once_then_update (env : Env) (h : Atom) (aheight aheight' : Z)
    (s s1 : State) (later : list Store) :
  do_store_single_atom env h aheight s = (Ok tt, s1) ->
  exists u l,
    tlb_find h (tlb_bindings (tlbuf (after env later s1))) = Some u
    /\ sent (snd (do_store_single_atom env h aheight' (after env later s1)))
       = (sent (after env later s1) ++ l)%list
    /\ Forall (fun q => is_atoms_insert q = false) l
    /\ (fst (do_store_single_atom env h aheight' (after env later s1)) = Ok tt ->
        exists cols, In (Pg.UpdateAtoms cols (to_string_u u)) l).
Proof.
  intros H. destruct (stored_is_cached env h aheight s s1 H) as (u & Hb & Hc & _).
  destruct (grows_after env later s1) as (T & _ & L & _).
  apply T in Hb. apply L in Hc.
  destruct (store_again_updates env h aheight' u _ Hb Hc) as (l & Hl).
  exists u, l. split; [exact Hb|exact Hl].
Qed.

Definition between : list Store :=
  [Single (Node 8 "b") 0; Whole 1 (Link 9 [Node 8 "a"; Node 8 "c"]);
   Single (Node 8 (name_of_length 2689)) 0; Single (Node 8 "a") 0].

Lemma insert_once_then_update_witness :
  length (List.filter is_atoms_insert
            (sent (after c_locale between
                     (snd (do_store_single_atom c_locale (Node 8 "a") 0 fresh))))) = 4%nat
  /\ exists u l,
    tlb_find (Node 8 "a")
      (tlb_bindings
         (tlbuf (after c_locale between
                   (snd (do_store_single_atom c_locale (Node 8 "a") 0 fresh)))))
    = Some u
    /\ sent (snd (do_store_single_atom c_locale (Node 8 "a") 0
                    (after c_locale between
                       (snd (do_store_single_atom c_locale (Node 8 "a") 0 fresh)))))
       = (sent (after c_locale between
                  (snd (do_store_single_atom c_locale (Node 8 "a") 0 fresh))) ++ l)%list
    /\ Forall (fun q => is_atoms_insert q = false) l
    /\ (fst (do_store_single_atom c_locale (Node 8 "a") 0
               (after c_locale between
                  (snd (do_store_single_atom c_locale (Node 8 "a") 0 fresh)))) = Ok tt ->
        exists cols, In (Pg.UpdateAtoms cols (to_string_u u)) l).
Proof.
  split; [vm_compute; reflexivity|].
  apply (insert_once_then_update c_locale (Node 8 "a") 0 0 fresh _ between).
  vm_compute. reflexivity.
Defined.
End StoreOnce.

(** ** The size limits of a first store *)

Module StoreLimits.
Import CLib Double Atomspace Storage Response Codec TypeMap IdCache AtomStore Examples.
Import AtomFacts StorageFacts Frame QuietRuns IdFrame FailureKinds RetryProofs StoreOnce.

(** A failure that is not one of the two size errors. *)
Definition other (f : Failure) : Prop :=
  f <> IOException node_name_error /\ f <> IOException link_size_error.

Lemma undefined_other (f : Failure) : undefined f -> other f.
Proof. intros (w & ->). split; discriminate. Qed.

Lemma Fails_weaken {A : Type} (P Q : Failure -> Prop) (m : M A) :
  (forall f, P f -> Q f) -> Fails P m -> Fails Q m.
Proof. intros H Hm s f s' E. apply H. eapply Hm, E. Qed.

Lemma Fails_read {A : Type} (field : option A) (what : string) :
  Fails other (read field what).
Proof.
  destruct field; [apply Fails_ret|]. apply Fails_fail. split; discriminate.
Qed.

Lemma Fails_foreach_row {R : Type} (rs : option Pg.RecordSet) (cb : R -> Pg.Row -> R)
    (rp : R) : Fails other (foreach_row rs cb rp).
Proof.
  destruct rs; [apply Fails_ret|]. apply Fails_fail. split; discriminate.
Qed.

Ltac others_step :=
  lazymatch goal with
  | |- Fails _ (bind _ _) => apply Fails_bind; [|intros ?]
  | |- Fails _ (ret _) => apply Fails_ret
  | |- Fails _ (fail _) =>
      apply Fails_fail; unfold other, node_name_error, link_size_error;
      split; discriminate
  | |- Fails _ get => apply Fails_get
  | |- Fails _ (modify _) => apply Fails_modify
  | |- Fails _ (exec _) => apply Fails_exec
  | |- Fails _ (read _ _) => apply Fails_read
  | |- Fails _ (foreach_row _ _ _) => apply Fails_foreach_row
  | |- Fails _ (if ?b then _ else _) => destruct b
  | |- Fails _ (match ?x with _ => _ end) => destruct x
  end.

Ltac others := repeat others_step.

Section WithEnv.
Variable env : Env.

Lemma Fails_setup_typemap_other : Fails other (setup_typemap env).
Proof. eapply Fails_weaken; [apply undefined_other|apply Fails_setup_typemap]. Qed.

Lemma Fails_tlb_addAtom h hint : Fails other (tlb_addAtom h hint).
Proof.
  intros s f s'. unfold tlb_addAtom. rewrite bind_get.
  destruct (addAtom (tlbuf s) h hint). discriminate.
Qed.

Lemma Fails_read_outlist fuel : forall p oset, Fails other (read_outlist fuel p oset).
Proof.
  induction fuel as [|fuel IH]; intros p oset; cbn [read_outlist]; others.
  destruct (strtoul (tail p)). apply IH.
Qed.

Lemma Fails_makeAtom rp u : Fails other (makeAtom env rp u).
Proof.
  unfold makeAtom, add_id_to_cache. others; apply Fails_read_outlist.
Qed.

Lemma Fails_getAtom q hgt : Fails other (getAtom env q hgt).
Proof. unfold getAtom. others. apply Fails_makeAtom. Qed.

Lemma Fails_doGetNode t str : Fails other (doGetNode env t str).
Proof.
  unfold doGetNode. others; try apply Fails_setup_typemap_other;
    try apply Fails_getAtom; apply Fails_tlb_addAtom.
Qed.

Lemma Fails_get_uuid h : Fails other (get_uuid env h).
Proof.
  induction h as [t name|t out IH] using Atom_nested_ind; cbn [get_uuid]; others;
    try apply Fails_doGetNode; try apply Fails_tlb_addAtom;
    try apply Fails_setup_typemap_other; try apply Fails_getAtom.
  match goal with |- Fails _ (?f _ _ out) =>
    assert (H : forall b str, Fails other (f b str out)); [|apply H] end.
  induction IH as [|x out Hx _ IHout]; intros b str; others.
  - exact Hx.
  - apply IHout.
Qed.

Lemma Fails_oset_elements l : forall b str, Fails other (oset_elements env b str l).
Proof.
  induction l as [|h l IH]; intros b str; cbn [oset_elements]; others.
  - apply Fails_get_uuid.
  - apply IH.
Qed.

Lemma Fails_oset_to_string l : Fails other (oset_to_string env l).
Proof. unfold oset_to_string. others. apply Fails_oset_elements. Qed.

Lemma Fails_tv_columns cols tv : Fails other (tv_columns env cols tv).
Proof. unfold tv_columns. others. Qed.

Lemma Fails_store_atomtable_id at_ : Fails other (store_atomtable_id at_).
Proof.
  revert at_. fix IH 1. intros [tab_id environ].
  cbn [store_atomtable_id]. others. apply IH.
Qed.

Lemma Fails_execute_with_retry h qry : Fails other (execute_with_retry env h qry).
Proof. unfold execute_with_retry. others. apply Fails_store_atomtable_id. Qed.

Lemma other_size_error (h : Atom) (f : Failure) :
  other f -> f <> IOException (size_error h).
Proof. intros [H1 H2]. unfold size_error. destruct (isNode h); assumption. Qed.

(** The columns of a first store raise the size error only for
    an atom that is too large. *)
Lemma first_time_columns_size cols h aheight (s s' : State) :
  first_time_columns env cols h aheight s = (Err (IOException (size_error h)), s') ->
  too_large h = true.
Proof.
  destruct h as [t name|t out]; cbn [too_large].
  - rewrite SizeLimits.first_time_columns_node.
    destruct (_ <? _); [reflexivity|discriminate].
  - unfold first_time_columns. rewrite bind_get. cbn [isNode isLink]. rewrite bind_modify.
    unfold getArity. cbn [getOutgoingSet].
    destruct (_ <? _); [reflexivity|]. intros H. exfalso.
    match type of H with bind ?m ?k ?s0 = _ =>
      destruct (m s0) as [[ostr|f] s1] eqn:E end.
    + rewrite (bind_ok _ _ _ _ _ E) in H. discriminate H.
    + rewrite (bind_err _ _ _ _ _ E) in H. injection H as -> _.
      apply (other_size_error (Link t out) _ (Fails_oset_to_string _ _ _ _ E)).
      reflexivity.
Qed.

Lemma first_time_columns_refused (cols : list (string * string)) (h : Atom)
    (aheight : Z) (s : State) :
  too_large h = true ->
  exists s', first_time_columns env cols h aheight s
             = (Err (IOException (size_error h)), s')
             /\ sent s' = sent s /\ db s' = db s
             /\ id_create_cache s' = id_create_cache s.
Proof.
  intros H. destruct h as [t name|t out]; cbn [too_large size_error isNode] in *.
  - rewrite SizeLimits.first_time_columns_node, H. exists s. auto.
  - unfold first_time_columns. rewrite bind_get. cbn [isNode isLink]. rewrite bind_modify.
    unfold getArity. cbn [getOutgoingSet]. rewrite H. eexists. split; [reflexivity|].
    auto.
Qed.

(** The tail of the call in insert mode, from the columns on. *)
Definition insert_tail (h : Atom) (aheight uuid : Z) : M unit :=
  bind (modify (count_store (aheight =? 0) false)) (fun _ =>
  bind (first_time_columns env (STMT [] "uuid" (to_string_u uuid)) h aheight) (fun cols =>
  bind (tv_columns env cols (getTruthValue env h)) (fun cols =>
  bind (execute_with_retry env h (Pg.Insert "Atoms" cols)) (fun _ =>
  bind (add_id_to_cache uuid) (fun _ =>
    modify (fun s => with_counters (max_height s) (store_count s + 1) (load_count s)
                       (num_node_inserts s) (num_node_updates s)
                       (num_link_inserts s) (num_link_updates s) s)))))).

Lemma insert_tail_size h aheight uuid (s : State) :
  fst (insert_tail h aheight uuid s) = Err (IOException (size_error h)) ->
  too_large h = true.
Proof.
  unfold insert_tail. rewrite bind_modify.
  match goal with |- context [bind (first_time_columns env ?c h aheight) _ ?s0] =>
    destruct (first_time_columns env c h aheight s0) as [[cols|f] s1] eqn:E1 end.
  2:{ rewrite (bind_err _ _ _ _ _ E1). cbn [fst]. intros [= ->].
      apply (first_time_columns_size _ _ _ _ _ E1). }
  rewrite (bind_ok _ _ _ _ _ E1).
  destruct (tv_columns env cols (getTruthValue env h) s1) as [[cols'|f] s2] eqn:E2.
  2:{ rewrite (bind_err _ _ _ _ _ E2). cbn [fst]. intros [= ->]. exfalso.
      apply (other_size_error h _ (Fails_tv_columns _ _ _ _ _ E2)). reflexivity. }
  rewrite (bind_ok _ _ _ _ _ E2).
  destruct (execute_with_retry_sent env h (Pg.Insert "Atoms" cols') s2) as (s3 & E3 & _).
  rewrite (bind_ok _ _ _ _ _ E3). discriminate.
Qed.

End WithEnv.

(** X1. A call of [do_store_single_atom] raises the size error
    exactly when [setup_typemap] has returned, the atom is too
    large, a node with a name of more than 2688 bytes (the test
    against 2700 is made on the name with its twelve bytes of dollar
    quoting) or a link of more than 330 atoms, and the identifier of
    the atom, the one that the buffer holds for it or gives it, is
    in neither of the two caches, so that the call is in insert
    mode: an atom that the cache holds is updated whatever its
    size.  A call that raises the error sends no statement after
    those of [setup_typemap], leaves the tables as [setup_typemap]
    left them, and leaves the identifier in [id_create_cache]. *)
Theorem first_store_size_limits (env : Env) (h : Atom) (aheight : Z) (s : State) :
  (fst (do_store_single_atom env h aheight s) = Err (IOException (size_error h))
   <-> fst (setup_typemap env s) = Ok tt
       /\ too_large h = true
       /\ fst (addAtom (tlbuf s) h INVALID_UUID) ∉ local_id_cache s
       /\ fst (addAtom (tlbuf s) h INVALID_UUID) ∉ id_create_cache s)
  /\ (fst (do_store_single_atom env h aheight s) = Err (IOException (size_error h)) ->
      sent (snd (do_store_single_atom env h aheight s)) = sent (snd (setup_typemap env s))
      /\ db (snd (do_store_single_atom env h aheight s)) = db (snd (setup_typemap env s))
      /\ fst (addAtom (tlbuf s) h INVALID_UUID)
         ∈ id_create_cache (snd (do_store_single_atom env h aheight s))).
Proof.
  rewrite do_store_single_atom_eq.
  destruct (setup_typemap env s) as [[[]|f] sa] eqn:E.
  2:{ rewrite (bind_err _ _ _ _ _ E). cbn [fst snd]. split; [split|].
      - intros [= ->]. destruct (Fails_setup_typemap env _ _ _ E) as (w & Hw).
        unfold size_error in Hw. destruct (isNode h); discriminate Hw.
      - intros [H _]. discriminate H.
      - intros [= ->]. destruct (Fails_setup_typemap env _ _ _ E) as (w & Hw).
        unfold size_error in Hw. destruct (isNode h); discriminate Hw. }
  rewrite (bind_ok _ _ _ _ _ E). cbn [fst snd].
  pose proof (Keeps_same_ids _ _ _ _ (Keeps_setup_typemap env) E) as (Ht & Hl & Hc & _).
  rewrite <- Ht, <- Hl, <- Hc.
  assert (Eb : tlb_addAtom h INVALID_UUID sa
               = (Ok (fst (addAtom (tlbuf sa) h INVALID_UUID)),
                  with_tlbuf (snd (addAtom (tlbuf sa) h INVALID_UUID)) sa)).
  { unfold tlb_addAtom. rewrite bind_get.
    destruct (addAtom (tlbuf sa) h INVALID_UUID) as [u t]. reflexivity. }
  rewrite (bind_ok _ _ _ _ _ Eb).
  set (u := fst (addAtom (tlbuf sa) h INVALID_UUID)) in *.
  set (sb := with_tlbuf (snd (addAtom (tlbuf sa) h INVALID_UUID)) sa) in *.
  change (local_id_cache sa) with (local_id_cache sb).
  change (id_create_cache sa) with (id_create_cache sb).
  destruct (decide (u ∈ local_id_cache sb)) as [Hin|Hnin].
  { rewrite store_tail_update by exact Hin. split; [split|].
    - intros H. exfalso. exact (update_tail_failure _ _ _ _ _ H).
    - intros (_ & _ & H & _). contradiction.
    - intros H. exfalso. exact (update_tail_failure _ _ _ _ _ H). }
  destruct (decide (u ∈ id_create_cache sb)) as [Hin'|Hnin'].
  { unfold store_tail. rewrite (bind_err _ _ _ _ _ (maybe_create_id_pending _ _ Hnin Hin')).
    cbn [fst snd]. split; [split|].
    - discriminate.
    - intros (_ & _ & _ & H). contradiction.
    - discriminate. }
  assert (Etail : store_tail env h aheight u sb
                  = insert_tail env h aheight u
                      (with_caches (local_id_cache sb) ({[u]} ∪ id_create_cache sb)
                         (table_id_cache sb) (local_id_cache_is_inited sb) sb)).
  { unfold store_tail. rewrite (bind_ok _ _ _ _ _ (maybe_create_id_new _ _ Hnin Hnin')).
    reflexivity. }
  rewrite Etail.
  destruct (too_large h) eqn:Hl'.
  - unfold insert_tail. rewrite bind_modify.
    match goal with |- context [bind (first_time_columns env ?c h aheight) _ ?s0] =>
      destruct (first_time_columns_refused env c h aheight s0 Hl')
        as (se & Ee & S1 & D1 & C1) end.
    rewrite (bind_err _ _ _ _ _ Ee). cbn [fst snd].
    split; [split; [intros _; auto|reflexivity]|]. intros _.
    rewrite S1, D1, C1. cbn. split; [reflexivity|]. split; [reflexivity|]. set_solver.
  - split; [split|].
    + intros H. apply insert_tail_size in H. congruence.
    + intros (_ & H & _). discriminate H.
    + intros H. apply insert_tail_size in H. congruence.
Qed.

Lemma first_store_size_limits_examples :
  String.length (name_of_length 2689) = 2689%nat
  /\ fst (do_store_single_atom c_locale (Node 8 (name_of_length 2689)) 0 fresh)
     = Err (IOException node_name_error)
  /\ fst (do_store_single_atom c_locale (Node 8 (name_of_length 2688)) 0 fresh) = Ok tt
  /\ fst (do_store_single_atom c_locale (Link 9 (repeat (Node 8 "a") 331)) 1 fresh)
     = Err (IOException link_size_error)
  /\ Pg.Atoms (db (snd (do_store_single_atom c_locale (Node 8 (name_of_length 2689)) 0
                          fresh))) = ∅.
Proof. repeat split; vm_compute; reflexivity. Qed.

End StoreLimits.

(** ** Reading lists of identifiers and of strings *)

Module Decode.
Import CLib Double Atomspace Storage Response Codec AtomStore Examples.
Import StorageFacts CLibProofs.

Lemma isdigit_plain (c : ascii) :
  isdigit c = true ->
  isspace c = false /\ Ascii.eqb c "-" = false /\ Ascii.eqb c "+" = false
  /\ Ascii.eqb c "," = false /\ Ascii.eqb c "}" = false.
Proof.
  destruct c as [[] [] [] [] [] [] [] []]; vm_compute; intros H;
    try discriminate H; repeat split.
Qed.

Lemma digits_head (ds : string) :
  all_digits ds = true -> ds <> EmptyString ->
  exists c r, ds = String c r /\ isdigit c = true /\ all_digits r = true.
Proof.
  destruct ds as [|c r]; [congruence|]. cbn. intros H _.
  apply andb_true_iff in H. exists c, r. tauto.
Qed.

Lemma strtol_digits (ds rest : string) :
  all_digits ds = true -> ds <> EmptyString -> stops rest ->
  strtol (ds ++ rest) = (Z.max LONG_MIN (Z.min LONG_MAX (digits_value ds 0)), rest).
Proof.
  intros Hd Hne Hs. destruct (digits_head ds Hd Hne) as (c & r & -> & Hc & Hr).
  destruct (isdigit_plain c Hc) as (Hsp & Hm & Hp & _).
  unfold strtol. rewrite append_cons. cbn [skip_space]. rewrite Hsp.
  assert (Hsign : scan_sign (String c (r ++ rest)) = (false, String c (r ++ rest))).
  { unfold scan_sign. destruct c as [[] [] [] [] [] [] [] []]; try reflexivity;
      vm_compute in Hm, Hp; discriminate. }
  rewrite Hsign, Hc. rewrite <- append_cons.
  rewrite scan_digits_app by assumption. reflexivity.
Qed.

Lemma strtoul_digits (ds rest : string) :
  all_digits ds = true -> ds <> EmptyString -> stops rest ->
  strtoul (ds ++ rest) = (Z.min ULONG_MAX (digits_value ds 0), rest).
Proof.
  intros Hd Hne Hs. destruct (digits_head ds Hd Hne) as (c & r & -> & Hc & Hr).
  destruct (isdigit_plain c Hc) as (Hsp & Hm & Hp & _).
  unfold strtoul. rewrite append_cons. cbn [skip_space]. rewrite Hsp.
  assert (Hsign : scan_sign (String c (r ++ rest)) = (false, String c (r ++ rest))).
  { unfold scan_sign. destruct c as [[] [] [] [] [] [] [] []]; try reflexivity;
      vm_compute in Hm, Hp; discriminate. }
  rewrite Hsign, Hc. rewrite <- append_cons.
  rewrite scan_digits_app by assumption. f_equal.
  destruct (Z.ltb_spec ULONG_MAX (digits_value (String c r) 0)); lia.
Qed.

Lemma strtol_to_string_u (n : Z) (rest : string) :
  0 <= n -> stops rest -> strtol (to_string_u n ++ rest) = (Z.min LONG_MAX n, rest).
Proof.
  intros Hn Hs. destruct (to_string_u_spec n Hn) as (Hd & Hv & Hne).
  rewrite strtol_digits by assumption. rewrite Hv. f_equal.
  unfold LONG_MIN, LONG_MAX. lia.
Qed.

Lemma strtoul_to_string_u (n : Z) (rest : string) :
  0 <= n -> stops rest -> strtoul (to_string_u n ++ rest) = (Z.min ULONG_MAX n, rest).
Proof.
  intros Hn Hs. destruct (to_string_u_spec n Hn) as (Hd & Hv & Hne).
  rewrite strtoul_digits by assumption. rewrite Hv. f_equal.
Qed.

Lemma strchr_digits (ds rest : string) (c : ascii) :
  all_digits ds = true -> isdigit c = false -> strchr (ds ++ rest) c = strchr rest c.
Proof.
  intros Hd Hc. induction ds as [|a ds IH]; [reflexivity|].
  cbn in Hd. apply andb_true_iff in Hd as [Ha Hd].
  rewrite append_cons. cbn [strchr].
  destruct (Ascii.eqb_spec a c) as [->|_]; [congruence|]. apply IH, Hd.
Qed.

Lemma at_end_digits (ds rest : string) :
  all_digits ds = true -> ds <> EmptyString -> at_end (ds ++ rest) = false.
Proof.
  intros Hd Hne. destruct (digits_head ds Hd Hne) as (c & r & -> & Hc & _).
  rewrite append_cons. cbn. apply (isdigit_plain c Hc).
Qed.

(** What the loops over a list of value identifiers make of an
    identifier written in decimal: [atoi] gives an [int]. *)
Definition vuid_read (v : Z) : Z := to_u64 (to_int (Z.min LONG_MAX v)).

Definition ids_text (l : list Z) : string := Pg.join "," (List.map to_string_u l).

Lemma vuid_read_small (v : Z) :
  0 <= v < 2 ^ 64 -> (vuid_read v = v <-> v < 2 ^ 31 \/ v = 2 ^ 64 - 1).
Proof.
  intros Hv. unfold vuid_read, to_u64, to_int, LONG_MAX.
  destruct (Z.lt_ge_cases v (2 ^ 31)) as [Hlt|Hge].
  - rewrite Z.min_r by lia.
    rewrite (Z.mod_small (v + 2 ^ 31)) by lia. rewrite Z.mod_small by lia. lia.
  - destruct (Z.lt_ge_cases v (2 ^ 63 - 1)) as [Hlt|Hge'].
    + rewrite Z.min_r by lia.
      pose proof (Z.mod_pos_bound (v + 2 ^ 31) (2 ^ 32) ltac:(lia)) as Hb.
      pose proof (Z.div_mod (v + 2 ^ 31) (2 ^ 32) ltac:(lia)) as Hdm.
      assert (Hq : 1 <= (v + 2 ^ 31) / 2 ^ 32).
      { apply Z.div_le_lower_bound; lia. }
      destruct (Z.lt_ge_cases ((v + 2 ^ 31) mod 2 ^ 32 - 2 ^ 31) 0) as [Hneg|Hpos].
      * assert (E : ((v + 2 ^ 31) mod 2 ^ 32 - 2 ^ 31) mod 2 ^ 64
                    = (v + 2 ^ 31) mod 2 ^ 32 - 2 ^ 31 + 2 ^ 64).
        { symmetry. apply Z.mod_unique with (q := -1); lia. }
        rewrite E. lia.
      * rewrite (Z.mod_small (_ - _)) by lia. nia.
    + rewrite Z.min_l by lia.
      change (((2 ^ 63 - 1 + 2 ^ 31) mod 2 ^ 32 - 2 ^ 31) mod 2 ^ 64) with (2 ^ 64 - 1).
      lia.
Qed.

Section Loops.
Variable env : Env.
Context {A : Type}.
Variable body : Z -> M A.

Lemma each_vuid_end (fuel : nat) (acc : list A) (s : State) :
  (0 < fuel)%nat -> each_vuid fuel (Some "}") body acc s = (Ok acc, s).
Proof. destruct fuel; [lia|]. reflexivity. Qed.

Lemma each_vuid_step (fuel : nat) (x : Z) (rest : string) (acc : list A) (s : State) :
  0 <= x -> stops rest ->
  each_vuid (S fuel) (Some (to_string_u x ++ rest)) body acc s
  = bind (body (vuid_read x))
      (fun a => each_vuid fuel (option_map tail (strchr rest ",")) body (acc ++ [a])) s.
Proof.
  intros Hx Hs. destruct (to_string_u_spec x Hx) as (Hd & _ & Hne).
  cbn [each_vuid]. rewrite at_end_digits by assumption.
  unfold atoi. rewrite strtol_to_string_u by assumption. cbn [fst].
  rewrite strchr_digits by (assumption || reflexivity). reflexivity.
Qed.

Lemma each_vuid_join (l : list Z) :
  forall fuel acc s,
    Forall (fun v => 0 <= v) l -> (length l < fuel)%nat ->
    each_vuid fuel (Some (ids_text l ++ "}")) body acc s
    = bind (map_m body (List.map vuid_read l)) (fun r => ret (acc ++ r)%list) s.
Proof.
  induction l as [|x l IH]; intros fuel acc s Hl Hf.
  - rewrite each_vuid_end by exact Hf. cbn. rewrite app_nil_r. reflexivity.
  - apply Forall_cons in Hl. destruct Hl as [Hx Hl].
    destruct fuel as [|fuel]; [cbn in Hf; lia|].
    cbn [List.map map_m]. unfold ids_text.
    destruct l as [|y l].
    + cbn [List.map Pg.join]. rewrite each_vuid_step by (assumption || reflexivity).
      cbn [strchr Ascii.eqb option_map]. rewrite bind_assoc. apply bind_ext.
      intros a s1. destruct fuel; [cbn in Hf; lia|]. reflexivity.
    + change (Pg.join "," (List.map to_string_u (x :: y :: l)))
        with (to_string_u x ++ "," ++ ids_text (y :: l)).
      rewrite !string_app_assoc.
      rewrite each_vuid_step by (assumption || reflexivity).
      rewrite append_cons. cbn [strchr option_map tail].
      change (Ascii.eqb "," ",") with true. cbn [option_map tail].
      rewrite bind_assoc. apply bind_ext. intros a s1.
      rewrite IH by (assumption || (cbn in Hf |- *; lia)).
      rewrite bind_assoc. apply bind_ext. intros r s2.
      cbn. rewrite <- app_assoc. reflexivity.
Qed.

End Loops.

Lemma to_string_u_length (v : Z) : 0 <= v -> (1 <= String.length (to_string_u v))%nat.
Proof.
  intros Hv. destruct (to_string_u_spec v Hv) as (_ & _ & Hne).
  destruct (to_string_u v); [congruence|cbn; lia].
Qed.

Lemma ids_text_length (l : list Z) :
  Forall (fun v => 0 <= v) l -> (length l <= String.length (ids_text l ++ "}"))%nat.
Proof.
  induction l as [|x l IH]; intros Hl; [cbn; lia|].
  apply Forall_cons in Hl. destruct Hl as [Hx Hl]. specialize (IH Hl).
  pose proof (to_string_u_length x Hx). unfold ids_text in *. cbn [List.map].
  destruct l as [|y l].
  - change (Pg.join "," [to_string_u x]) with (to_string_u x).
    rewrite string_length_app. change (String.length "}") with 1%nat.
    change (List.length [x]) with 1%nat. lia.
  - change (Pg.join "," (to_string_u x :: List.map to_string_u (y :: l)))
      with (to_string_u x ++ "," ++ Pg.join "," (List.map to_string_u (y :: l))).
    rewrite !string_app_assoc, string_length_app, append_cons.
    change (String.length (String "," ?r)) with (S (String.length r)).
    change (List.length (x :: y :: l)) with (S (List.length (y :: l))).
    cbn [String.length]. rewrite append_nil_l. lia.
Qed.

(** X8. The link branch of [doUnpackValue].  From the text
    [{u1,u2,...,un}] of a [linkvalue] column it fetches, in this
    order, the values of the identifiers that [atoi] reads, and
    returns them as a link value.  An identifier is read as it was
    written when it is below 2^31; above, [atoi] gives its low 32
    bits as an [int], or -1 when [strtol] saturates, and only
    2^64 - 1 comes back intact. *)
Theorem doUnpackValue_link (env : Env) (getV : Z -> M Value) (rp : Response)
    (l : list Z) (s : State) :
  vtype rp = Some (LINK_VALUE (cs env)) ->
  LINK_VALUE (cs env) <> STRING_VALUE (cs env) ->
  LINK_VALUE (cs env) <> FLOAT_VALUE (cs env) ->
  lnkval rp = Some (String "{" (ids_text l ++ "}")) ->
  Forall (fun v => 0 <= v < 2 ^ 64) l ->
  doUnpackValue env getV rp s
  = bind (map_m getV (List.map vuid_read l)) (fun vs => ret (LinkValue vs)) s
  /\ Forall (fun v => vuid_read v = v <-> v < 2 ^ 31 \/ v = 2 ^ 64 - 1) l.
Proof.
  intros Hvt Hs Hf Hl Hr. split.
  - assert (Hr' : Forall (fun v => 0 <= v) l).
    { eapply Forall_impl; [exact Hr|]. cbn. intros; lia. }
    unfold doUnpackValue. rewrite Hvt. cbn [read]. rewrite bind_ret.
    rewrite (proj2 (Z.eqb_neq _ _) Hs), (proj2 (Z.eqb_neq _ _) Hf), Z.eqb_refl.
    rewrite Hl. cbn [read]. rewrite bind_ret. cbn [skip_brace].
    erewrite bind_cong; [|apply each_vuid_join; [exact Hr'|]].
    + rewrite bind_assoc. apply bind_ext. intros vs s1. reflexivity.
    + pose proof (ids_text_length l Hr'). unfold scan_fuel. lia.
  - eapply Forall_impl; [exact Hr|]. intros v Hv. apply vuid_read_small, Hv.
Qed.

Definition link_row (l : list Z) : Response :=
  set_value_fields (Some 4) None None (Some (String "{" (ids_text l ++ "}"))) None
    new_response.

Lemma doUnpackValue_link_witness :
  doUnpackValue c_locale (fun u => ret (FloatValue [of_Z u])) (link_row [2; 4294967301]) fresh
  = (Ok (LinkValue [FloatValue [of_Z 2]; FloatValue [of_Z 5]]), fresh).
Proof.
  destruct (doUnpackValue_link c_locale (fun u => ret (FloatValue [of_Z u]))
              (link_row [2; 4294967301]) [2; 4294967301] fresh) as [E _].
  - reflexivity.
  - vm_compute. discriminate.
  - vm_compute. discriminate.
  - reflexivity.
  - repeat constructor; vm_compute; congruence.
  - rewrite E. reflexivity.
Defined.

Lemma read_outlist_join (l : list Z) :
  forall fuel c0 acc s,
    l <> [] -> Ascii.eqb c0 "}" = false ->
    Forall (fun v => 0 <= v < 2 ^ 64) l -> (length l < fuel)%nat ->
    read_outlist fuel (String c0 (ids_text l ++ "}")) acc s = (Ok (acc ++ l)%list, s).
Proof.
  induction l as [|x l IH]; intros fuel c0 acc s Hne Hc Hl Hf; [congruence|].
  apply Forall_cons in Hl. destruct Hl as [Hx Hl].
  destruct fuel as [|fuel]; [cbn in Hf; lia|].
  cbn [read_outlist at_end tail]. rewrite Hc. unfold ids_text. cbn [List.map].
  destruct l as [|y l].
  - change (Pg.join "," (to_string_u x :: List.map to_string_u [])) with (to_string_u x).
    rewrite strtoul_to_string_u by (lia || reflexivity).
    destruct fuel as [|fuel]; [cbn in Hf; lia|]. cbn [read_outlist at_end Ascii.eqb].
    unfold ULONG_MAX. rewrite Z.min_r by lia. reflexivity.
  - change (Pg.join "," (to_string_u x :: List.map to_string_u (y :: l)))
      with (to_string_u x ++ "," ++ ids_text (y :: l)).
    rewrite !string_app_assoc.
    rewrite strtoul_to_string_u by (lia || reflexivity).
    rewrite append_cons, append_nil_l.
    rewrite IH; [|congruence|reflexivity|exact Hl|cbn in Hf |- *; lia].
    unfold ULONG_MAX. rewrite Z.min_r by lia. rewrite <- app_assoc. reflexivity.
Qed.

(** X9. The loop of [makeAtom] over the [outgoing] column of a
    link.  From the text [{u1,u2,...,un}] of a list that is not
    empty it reads the identifiers as they were written, over the
    whole 64-bit range.  From the text [{}] of an empty outgoing set
    it reads one identifier, 0: [strtoul] is called before the
    closing brace is looked at. *)
Theorem read_outlist_decodes (l : list Z) (s : State) :
  Forall (fun v => 0 <= v < 2 ^ 64) l ->
  read_outlist (scan_fuel (String "{" (ids_text l ++ "}")))
               (String "{" (ids_text l ++ "}")) [] s
  = (Ok (match l with [] => [0] | _ => l end), s).
Proof.
  intros Hl. destruct l as [|x l]; [reflexivity|].
  rewrite read_outlist_join; [reflexivity|congruence|reflexivity|exact Hl|].
  assert (Hl' : Forall (fun v => 0 <= v) (x :: l)).
  { eapply Forall_impl; [exact Hl|]. cbn. intros; lia. }
  pose proof (ids_text_length (x :: l) Hl'). unfold scan_fuel. cbn [String.length]. lia.
Qed.

Lemma read_outlist_decodes_witness :
  read_outlist (scan_fuel "{7,18446744073709551615}") "{7,18446744073709551615}" [] fresh
  = (Ok [7; 18446744073709551615], fresh).
Proof.
  apply (read_outlist_decodes [7; 18446744073709551615] fresh).
  repeat constructor; vm_compute; congruence.
Defined.
End Decode.

(** ** Reading a list of strings *)

Module DecodeStrings.
Import CLib Double Atomspace Storage Response Codec Examples.
Import StorageFacts CLibProofs.

(** Whether [c] does not occur in [e]. *)
Fixpoint free_of (c : ascii) (e : string) : bool :=
  match e with
  | EmptyString => true
  | String a r => negb (Ascii.eqb a c) && free_of c r
  end.

(** An element that the loop reads as it is written: it holds no
    comma, closing brace or double quote. *)
Definition plain (e : string) : bool :=
  free_of "," e && free_of "}" e && free_of dquote e.

(** The text of an element in the array text, bare or between
    double quotes. *)
Definition elem_text (eq : string * bool) : string :=
  if snd eq then String dquote (fst eq ++ String dquote EmptyString) else fst eq.

Definition strings_text (l : list (string * bool)) : string :=
  Pg.join "," (List.map elem_text l).

Definition readable (eq : string * bool) : bool :=
  plain (fst eq) && (snd eq || negb (String.eqb (fst eq) EmptyString)).

Lemma free_of_app c a b : free_of c (a ++ b) = free_of c a && free_of c b.
Proof.
  induction a as [|x a IH]; [reflexivity|]. rewrite append_cons. cbn [free_of].
  rewrite IH, andb_assoc. reflexivity.
Qed.

Lemma strchr_free c a b : free_of c a = true -> strchr (a ++ b) c = strchr b c.
Proof.
  induction a as [|x a IH]; [reflexivity|]. rewrite append_cons. cbn [free_of strchr].
  intros H. apply andb_true_iff in H as [Hx Ha].
  apply negb_true_iff in Hx. rewrite Hx. apply IH, Ha.
Qed.

Lemma before_free c a b : free_of c a = true -> before (a ++ String c b) c = a.
Proof.
  induction a as [|x a IH].
  - intros _. rewrite append_nil_l. cbn [before]. rewrite Ascii.eqb_refl. reflexivity.
  - rewrite append_cons. cbn [free_of before]. intros H.
    apply andb_true_iff in H as [Hx Ha]. apply negb_true_iff in Hx.
    rewrite Hx, IH by exact Ha. reflexivity.
Qed.

Lemma remove_last_app (a : string) (c : ascii) : remove_last (a ++ String c EmptyString) = a.
Proof.
  induction a as [|x a IH]; [reflexivity|]. rewrite append_cons.
  destruct (a ++ String c EmptyString) as [|y r] eqn:E.
  - destruct a; discriminate E.
  - change (remove_last (String x (String y r))) with (String x (remove_last (String y r))).
    rewrite IH. reflexivity.
Qed.

Lemma ends_with_app (a : string) (c : ascii) : ends_with c (a ++ String c EmptyString) = true.
Proof.
  induction a as [|x a IH]; [cbn; apply Ascii.eqb_refl|]. rewrite append_cons.
  destruct (a ++ String c EmptyString) as [|y r] eqn:E.
  - destruct a; discriminate E.
  - change (ends_with c (String x (String y r))) with (ends_with c (String y r)).
    exact IH.
Qed.

Lemma ends_with_free (a : string) (c : ascii) : free_of c a = true -> ends_with c a = false.
Proof.
  induction a as [|x a IH]; [reflexivity|]. cbn [free_of ends_with]. intros H.
  apply andb_true_iff in H as [Hx Ha]. apply negb_true_iff in Hx.
  destruct a; [exact Hx|apply IH, Ha].
Qed.

Lemma elem_text_free (c : ascii) (eq : string * bool) :
  free_of c (fst eq) = true -> Ascii.eqb dquote c = false -> free_of c (elem_text eq) = true.
Proof.
  intros H Hc. destruct eq as [e []]; unfold elem_text; cbn [fst snd] in *; [|exact H].
  cbn [free_of]. rewrite free_of_app, H, Hc. cbn. rewrite Hc. reflexivity.
Qed.

(** What the loop makes of the text of one element. *)
Definition wiped (elem : string) : string :=
  let elem' := if starts_with dquote elem then tail elem else elem in
  if ends_with dquote elem then remove_last elem' else elem'.

Lemma wiped_elem_text (eq : string * bool) :
  readable eq = true -> wiped (elem_text eq) = fst eq /\ elem_text eq <> EmptyString
                        /\ forall rest, at_end (elem_text eq ++ rest) = false.
Proof.
  unfold readable, plain. destruct eq as [e q]. cbn [fst snd].
  intros H. apply andb_true_iff in H as [H Hq].
  apply andb_true_iff in H as [H Hd]. apply andb_true_iff in H as [Hc Hb].
  destruct q; unfold elem_text, wiped; cbn [fst snd].
  - cbn [starts_with tail]. rewrite Ascii.eqb_refl.
    change (String dquote (e ++ String dquote "")) with ((String dquote e) ++ String dquote "").
    rewrite ends_with_app. rewrite remove_last_app. split; [reflexivity|].
    split; [discriminate|]. intros rest. reflexivity.
  - cbn in Hq. apply negb_true_iff in Hq. destruct e as [|x e]; [discriminate|].
    cbn [free_of] in Hd, Hb. apply andb_true_iff in Hd as [Hx Hd].
    apply andb_true_iff in Hb as [Hxb Hb].
    apply negb_true_iff in Hx. apply negb_true_iff in Hxb.
    cbn [starts_with]. rewrite Hx.
    rewrite ends_with_free by (cbn [free_of]; rewrite Hx, Hd; reflexivity).
    split; [reflexivity|]. split; [discriminate|]. intros rest.
    rewrite append_cons. cbn [at_end]. exact Hxb.
Qed.

Lemma readable_free (eq : string * bool) :
  readable eq = true ->
  free_of "," (elem_text eq) = true /\ free_of "}" (elem_text eq) = true.
Proof.
  unfold readable, plain. intros H. apply andb_true_iff in H as [H _].
  apply andb_true_iff in H as [H _]. apply andb_true_iff in H as [Hc Hb].
  split; apply elem_text_free; (assumption || reflexivity).
Qed.

Section Loop.
Variable env : Env.

Lemma unpack_strings_mid (fuel : nat) (at_start : bool) (eq : string * bool)
    (rest : string) (acc : list string) (s : State) :
  readable eq = true ->
  unpack_strings (S fuel) at_start (elem_text eq ++ String "," rest) acc s
  = unpack_strings fuel false rest (acc ++ [fst eq])%list s.
Proof.
  intros Hr. destruct (wiped_elem_text eq Hr) as (Hw & Hne & Hend).
  destruct (readable_free eq Hr) as (Hc & _).
  cbn [unpack_strings]. rewrite Hend.
  rewrite strchr_free by exact Hc. cbn [strchr]. change (Ascii.eqb "," ",") with true.
  cbn iota. rewrite before_free by exact Hc.
  fold (wiped (elem_text eq)). rewrite Hw.
  destruct (elem_text eq) as [|x r] eqn:E; [congruence|].
  rewrite bind_ret. reflexivity.
Qed.

Lemma unpack_strings_last (fuel : nat) (at_start : bool) (eq : string * bool)
    (acc : list string) (s : State) :
  readable eq = true ->
  unpack_strings (S (S fuel)) at_start (elem_text eq ++ "}") acc s
  = (Ok (acc ++ [fst eq])%list, s).
Proof.
  intros Hr. destruct (wiped_elem_text eq Hr) as (Hw & Hne & Hend).
  destruct (readable_free eq Hr) as (Hc & Hb).
  cbn [unpack_strings]. rewrite Hend.
  rewrite !(strchr_free ",") by exact Hc. cbn [strchr].
  change (Ascii.eqb "}" ",") with false. cbn iota.
  rewrite strchr_free by exact Hb. cbn [strchr]. change (Ascii.eqb "}" "}") with true.
  rewrite before_free by exact Hb.
  fold (wiped (elem_text eq)). rewrite Hw.
  destruct (elem_text eq) as [|x r] eqn:E; [congruence|].
  rewrite bind_ret. reflexivity.
Qed.

Lemma unpack_strings_join (l : list (string * bool)) :
  forall fuel at_start acc s,
    forallb readable l = true -> (length l < fuel)%nat ->
    unpack_strings fuel at_start (strings_text l ++ "}") acc s
    = (Ok (acc ++ List.map fst l)%list, s).
Proof.
  induction l as [|x l IH]; intros fuel at_start acc s Hl Hf.
  - destruct fuel; [lia|]. cbn. rewrite app_nil_r. reflexivity.
  - cbn [forallb] in Hl. apply andb_true_iff in Hl as [Hx Hl].
    destruct fuel as [|fuel]; [cbn in Hf; lia|].
    unfold strings_text. cbn [List.map]. destruct l as [|y l].
    + change (Pg.join "," (elem_text x :: List.map elem_text [])) with (elem_text x).
      destruct fuel as [|fuel]; [cbn in Hf; lia|].
      rewrite unpack_strings_last by exact Hx. reflexivity.
    + change (Pg.join "," (elem_text x :: List.map elem_text (y :: l)))
        with (elem_text x ++ "," ++ strings_text (y :: l)).
      rewrite !string_app_assoc, append_cons, append_nil_l.
      rewrite unpack_strings_mid by exact Hx.
      rewrite IH by (assumption || (cbn in Hf |- *; lia)).
      rewrite <- app_assoc. reflexivity.
Qed.

End Loop.

Lemma elem_text_length (eq : string * bool) :
  readable eq = true -> (1 <= String.length (elem_text eq))%nat.
Proof.
  intros Hr. destruct (wiped_elem_text eq Hr) as (_ & Hne & _).
  destruct (elem_text eq); [congruence|cbn; lia].
Qed.

Lemma strings_text_length (l : list (string * bool)) :
  forallb readable l = true -> (length l <= String.length (strings_text l ++ "}"))%nat.
Proof.
  induction l as [|x l IH]; intros Hl; [cbn; lia|].
  cbn [forallb] in Hl. apply andb_true_iff in Hl as [Hx Hl]. specialize (IH Hl).
  pose proof (elem_text_length x Hx). unfold strings_text in *. cbn [List.map].
  destruct l as [|y l].
  - change (Pg.join "," (elem_text x :: List.map elem_text [])) with (elem_text x).
    rewrite string_length_app. change (String.length "}") with 1%nat.
    change (List.length [x]) with 1%nat. lia.
  - change (Pg.join "," (elem_text x :: List.map elem_text (y :: l)))
      with (elem_text x ++ "," ++ Pg.join "," (List.map elem_text (y :: l))).
    rewrite !string_app_assoc, string_length_app, append_cons.
    change (List.length (x :: y :: l)) with (S (List.length (y :: l))).
    cbn [String.length]. rewrite append_nil_l. lia.
Qed.

(** X10. The string branch of [doUnpackValue].  From the text
    [{e1,e2,...,en}] of a [stringvalue] column, each element written
    bare or between double quotes, it returns the strings as they
    were written provided none of them holds a comma, a closing
    brace or a double quote, and none is written bare and empty.
    The empty list is read from [{}]. *)
Theorem doUnpackValue_strings (env : Env) (getV : Z -> M Value) (rp : Response)
    (l : list (string * bool)) (s : State) :
  vtype rp = Some (STRING_VALUE (cs env)) ->
  strval rp = Some (String "{" (strings_text l ++ "}")) ->
  forallb readable l = true ->
  doUnpackValue env getV rp s = (Ok (StringValue (List.map fst l)), s).
Proof.
  intros Hvt Hs Hl. unfold doUnpackValue. rewrite Hvt. cbn [read]. rewrite bind_ret.
  rewrite Z.eqb_refl, Hs. cbn [read]. rewrite bind_ret. cbn [skip_brace].
  erewrite bind_ok; [reflexivity|].
  rewrite unpack_strings_join; [reflexivity|exact Hl|].
  pose proof (strings_text_length l Hl). unfold scan_fuel. lia.
Qed.

Definition string_row (l : list (string * bool)) : Response :=
  set_value_fields (Some 3) None (Some (String "{" (strings_text l ++ "}"))) None None
    new_response.

Lemma doUnpackValue_strings_witness :
  strval (string_row [("ab", false); ("c d", true); ("", true)])
  = Some (String "{" ("ab," ++ String dquote ("c d" ++ String dquote ("," ++
            String dquote (String dquote "}")))))
  /\ doUnpackValue c_locale (fun _ => fail OutOfFuel)
       (string_row [("ab", false); ("c d", true); ("", true)]) fresh
     = (Ok (StringValue ["ab"; "c d"; ""]), fresh).
Proof.
  split; [reflexivity|].
  apply (doUnpackValue_strings c_locale (fun _ => fail OutOfFuel)
           (string_row [("ab", false); ("c d", true); ("", true)])
           [("ab", false); ("c d", true); ("", true)] fresh); reflexivity.
Defined.



End DecodeStrings.

(** ** The two directions of the type map *)

Module TypeMapProofs.
Import CLib Double Atomspace Storage Response Codec TypeMap Examples.
Import StorageFacts CLibProofs Decode.

Local Opaque Pg.exec.

Lemma index_of_nth (names : list string) :
  List.NoDup names ->
  forall (k : nat) (i : Z), (k < length names)%nat ->
    index_of (nth k names EmptyString) names i = Some (i + Z.of_nat k).
Proof.
  induction 1 as [|x names Hx Hnd IH]; intros k i Hk; [cbn in Hk; lia|].
  destruct k as [|k]; cbn [nth index_of].
  - rewrite String.eqb_refl. f_equal. lia.
  - cbn in Hk. destruct (String.eqb_spec x (nth k names EmptyString)) as [E|_].
    + exfalso. apply Hx. rewrite E. apply nth_In. lia.
    + rewrite IH by lia. f_equal. lia.
Qed.

Lemma getTypeOf_getTypeName (cs : ClassServer) (t : Z) :
  List.NoDup (type_names cs) -> 0 <= t < getNumberOfClasses cs ->
  getTypeOf cs (getTypeName cs t) = t.
Proof.
  unfold getNumberOfClasses, getTypeOf, getTypeName. intros Hnd Ht.
  rewrite (index_of_nth _ Hnd) by lia. cbn. lia.
Qed.

Lemma lowest_unused_spec (names : gmap Z string) (fuel : nat) :
  forall k, names !! lowest_unused fuel k names = None
            \/ lowest_unused fuel k names = k + Z.of_nat fuel.
Proof.
  induction fuel as [|fuel IH]; intros k; cbn [lowest_unused].
  - right. lia.
  - destruct (names !! k) eqn:E; [|left; exact E].
    destruct (IH (k + 1)) as [H|H]; [left; exact H|right; lia].
Qed.

Lemma atoi_code (c : Z) : 0 <= c < 2 ^ 15 -> to_u16 (atoi (to_string_d c)) = c.
Proof.
  intros Hc. unfold to_string_d. destruct (Z.ltb_spec c 0); [lia|].
  unfold atoi. rewrite <- (string_app_nil_r (to_string_u c)).
  rewrite strtol_to_string_u by (lia || exact I). cbn [fst].
  unfold to_u16, to_int, LONG_MAX. rewrite Z.min_r by lia.
  rewrite (Z.mod_small (c + 2 ^ 31)) by lia. rewrite Z.mod_small by lia. lia.
Qed.

Section WithEnv.
Variable env : Env.
Hypothesis names_distinct : List.NoDup (type_names (cs env)).

(** Every code that [storing_typemap] holds is a slot of the
    arrays, is mapped back by [loading_typemap], and has a name. *)
Definition consistent (s : State) : Prop :=
  forall t c, storing_typemap s !! t = Some c ->
              in_typemap c = true
              /\ loading_typemap s !! c = Some t
              /\ is_Some (db_typename s !! c).

Lemma set_typemap_run (d : Z) (name : string) (s s' : State) :
  set_typemap env d name s = (Ok tt, s') ->
  in_typemap d = true
  /\ loading_typemap s' = <[d := getTypeOf (cs env) name]> (loading_typemap s)
  /\ storing_typemap s' = <[getTypeOf (cs env) name := d]> (storing_typemap s)
  /\ db_typename s' = <[d := name]> (db_typename s)
  /\ db s' = db s /\ type_map_was_loaded s' = type_map_was_loaded s.
Proof.
  unfold set_typemap. destruct (in_typemap d) eqn:Hd; [|discriminate].
  destruct (in_typemap (getTypeOf (cs env) name)); [|discriminate].
  cbn [andb]. unfold modify. intros [= <-]. cbn. auto 10.
Qed.

Lemma set_typemap_consistent (d : Z) (name : string) (s s' : State) :
  set_typemap env d name s = (Ok tt, s') ->
  consistent s ->
  (forall t, storing_typemap s !! t = Some d -> t = getTypeOf (cs env) name) ->
  consistent s'.
Proof.
  intros E Hc Hfresh. destruct (set_typemap_run _ _ _ _ E) as (Hd & Hl & Hs & Hn & _).
  intros t c. rewrite Hl, Hs, Hn.
  destruct (decide (t = getTypeOf (cs env) name)) as [->|Hne].
  - rewrite lookup_insert_eq. intros [= <-]. rewrite !lookup_insert_eq. eauto.
  - rewrite lookup_insert_ne by congruence. intros Ht.
    assert (c <> d) by (intros ->; apply Hne, Hfresh, Ht).
    rewrite !lookup_insert_ne by congruence. apply Hc, Ht.
Qed.

Definition code_row (p : Z * string) : Pg.Row :=
  [("type", to_string_d (fst p)); ("typename", snd p)].

Lemma type_rows_consistent (codes : list (Z * string)) :
  forall (seen : list Z) (rp : Response) (s s' : State) (rp' : Response),
    type_rows env (List.map code_row codes) rp s = (Ok rp', s') ->
    consistent s ->
    (forall t c, storing_typemap s !! t = Some c -> In c seen) ->
    Forall (fun p => 0 <= fst p < 2 ^ 15) codes ->
    List.NoDup (seen ++ List.map fst codes) ->
    consistent s' /\ db s' = db s /\ type_map_was_loaded s' = type_map_was_loaded s.
Proof.
  induction codes as [|[c nm] codes IH]; intros seen rp s s' rp' E Hc Hseen Hr Hnd.
  - injection E as _ <-. auto.
  - cbn [List.map type_rows] in E. apply bind_inv in E. destruct E as ([] & s1 & E1 & E).
    apply Forall_cons in Hr. destruct Hr as [Hcr Hr]. cbn [fst] in Hcr.
    assert (Hit : itype (fold_left type_column_cb (code_row (c, nm)) rp) = c).
    { cbn. apply atoi_code, Hcr. }
    assert (Htn : tname (fold_left type_column_cb (code_row (c, nm)) rp) = nm)
      by reflexivity.
    rewrite Hit, Htn in E1.
    destruct (set_typemap_run _ _ _ _ E1) as (_ & _ & Hs1 & _ & Hdb & Hld).
    assert (Hnotin : ~ In c seen).
    { intros Hin. cbn [List.map fst] in Hnd. apply NoDup_remove_2 in Hnd.
      apply Hnd, in_or_app. left. exact Hin. }
    assert (Hc1 : consistent s1).
    { eapply set_typemap_consistent; [exact E1|exact Hc|].
      intros t Ht. exfalso. apply Hnotin, (Hseen t), Ht. }
    destruct (IH (seen ++ [c])%list _ _ _ _ E Hc1) as (Hc' & Hdb' & Hld').
    + intros t c'. rewrite Hs1.
      destruct (decide (t = getTypeOf (cs env) nm)) as [->|Hne].
      * rewrite lookup_insert_eq. intros [= <-]. apply in_or_app. right. left. reflexivity.
      * rewrite lookup_insert_ne by congruence. intros Ht. apply in_or_app. left.
        eapply Hseen, Ht.
    + exact Hr.
    + cbn [List.map fst] in Hnd. rewrite <- app_assoc. exact Hnd.
    + split; [exact Hc'|]. split; congruence.
Qed.

Lemma storing_at_unset (s : State) (t : Z) :
  consistent s -> (storing_at s t =? -1) = true -> storing_typemap s !! t = None.
Proof.
  unfold storing_at. intros Hc H. apply Z.eqb_eq in H.
  destruct (storing_typemap s !! t) as [c|] eqn:E; [|reflexivity].
  destruct (Hc t c E) as (Hin & _). cbn in H. subst c. discriminate Hin.
Qed.

Lemma register_type_consistent (t : Z) (s s' : State) :
  register_type env t s = (Ok tt, s') ->
  0 <= t < getNumberOfClasses (cs env) ->
  consistent s ->
  consistent s'
  /\ is_Some (storing_typemap s' !! t)
  /\ (forall t', is_Some (storing_typemap s !! t') -> is_Some (storing_typemap s' !! t')).
Proof.
  unfold register_type. rewrite bind_get.
  pose proof (lowest_unused_spec (db_typename s) (Z.to_nat TYPEMAP_SZ) 0) as HL.
  rewrite Z2Nat.id, Z.add_0_l in HL by (unfold TYPEMAP_SZ; lia).
  revert HL. generalize (lowest_unused (Z.to_nat TYPEMAP_SZ) 0 (db_typename s)).
  intros L HL E Ht Hc.
  destruct (storing_at s t =? -1) eqn:Hu.
  2:{ injection E as <-. split; [exact Hc|]. split; [|auto].
      unfold storing_at in Hu. destruct (storing_typemap s !! t); [eauto|].
      cbn in Hu. discriminate Hu. }
  pose proof (storing_at_unset s t Hc Hu) as Hnone.
  apply bind_inv in E. destruct E as ([] & s1 & E1 & E).
  rewrite bind_exec in E.
  match type of E with context [Pg.exec ?q ?d] => generalize dependent (Pg.exec q d) end.
  intros res E. injection E as <-.
  pose proof (getTypeOf_getTypeName (cs env) t names_distinct Ht) as Hrt.
  destruct (set_typemap_run _ _ _ _ E1) as (Hd & _ & Hs1 & _).
  rewrite Hrt in Hs1.
  assert (Hc1 : consistent s1).
  { eapply set_typemap_consistent; [exact E1|exact Hc|]. rewrite Hrt.
    intros t' Ht'. destruct (Hc t' _ Ht') as (_ & Hl & Hn).
    destruct (bool_decide (db_typename_at s t <> None)) eqn:Hb1; cbn [andb] in Ht', Hl, Hn.
    - destruct (negb (loading_at (cs env) s t =? t)) eqn:Hb2; cbn [andb] in Ht', Hl, Hn.
      + exfalso. destruct HL as [H|H].
        * rewrite H in Hn. destruct Hn as [? Hn]. discriminate Hn.
        * cbn [andb] in Hd. rewrite H in Hd. unfold in_typemap in Hd.
          rewrite Z.ltb_irrefl, andb_false_r in Hd. discriminate Hd.
      + apply negb_false_iff, Z.eqb_eq in Hb2. unfold loading_at in Hb2.
        rewrite Hl in Hb2. cbn in Hb2. exact Hb2.
    - exfalso. apply bool_decide_eq_false_1 in Hb1. apply Hb1.
      unfold db_typename_at. destruct Hn as [x Hn]. rewrite Hn. discriminate. }
  split; [|split].
  - intros t' c. cbn. apply Hc1.
  - cbn. rewrite Hs1, lookup_insert_eq. eauto.
  - intros t' Hs'. cbn. rewrite Hs1.
    destruct (decide (t' = t)) as [->|Hne];
      [rewrite lookup_insert_eq; eauto|rewrite lookup_insert_ne by congruence; exact Hs'].
Qed.

Lemma for_each_register (l : list Z) :
  forall s s',
    for_each l (register_type env) s = (Ok tt, s') ->
    Forall (fun t => 0 <= t < getNumberOfClasses (cs env)) l ->
    consistent s ->
    consistent s'
    /\ (forall t, In t l -> is_Some (storing_typemap s' !! t))
    /\ (forall t, is_Some (storing_typemap s !! t) -> is_Some (storing_typemap s' !! t)).
Proof.
  induction l as [|x l IH]; intros s s' E Hl Hc.
  - injection E as <-. split; [exact Hc|]. split; [intros t []|auto].
  - cbn [for_each] in E. apply bind_inv in E. destruct E as ([] & s1 & E1 & E).
    apply Forall_cons in Hl. destruct Hl as [Hx Hl].
    destruct (register_type_consistent x s s1 E1 Hx Hc) as (Hc1 & Hx1 & Hk1).
    destruct (IH s1 s' E Hl Hc1) as (Hc' & Hin' & Hk').
    split; [exact Hc'|]. split.
    + intros t [<-|Ht]; [apply Hk', Hx1|apply Hin', Ht].
    + intros t Ht. apply Hk', Hk1, Ht.
Qed.

Lemma types_upto_range (n : Z) : Forall (fun t => 0 <= t < n) (types_upto n).
Proof.
  unfold types_upto. apply List.Forall_forall. intros t Ht.
  apply in_map_iff in Ht as (k & <- & Hk). apply in_seq in Hk. lia.
Qed.

Lemma types_upto_all (n t : Z) : 0 <= t < n -> In t (types_upto n).
Proof.
  intros Ht. unfold types_upto. apply in_map_iff. exists (Z.to_nat t).
  split; [lia|]. apply in_seq. lia.
Qed.

Lemma setup_typemap_consistent (s s' : State) :
  PgFacts.standard (db s) ->
  type_map_was_loaded s = false ->
  Forall (fun p => 0 <= fst p < 2 ^ 15) (Pg.TypeCodes (db s)) ->
  List.NoDup (List.map fst (Pg.TypeCodes (db s))) ->
  setup_typemap env s = (Ok tt, s') ->
  consistent s'
  /\ forall t, 0 <= t < getNumberOfClasses (cs env) -> is_Some (storing_typemap s' !! t).
Proof.
  intros Hstd Hld Hr Hnd E. unfold setup_typemap in E. rewrite bind_get, Hld in E.
  rewrite bind_modify, bind_exec in E.
  change (db (with_typemap false ∅ ∅ ∅ s)) with (db s) in E.
  rewrite (PgFacts.exec_standard Pg.SelectTypeCodes _ Hstd eq_refl) in E.
  cbn [Pg.exec_std fst snd db with_typemap] in E.
  apply bind_inv in E. destruct E as ([] & s1 & E1 & E).
  apply bind_inv in E1. destruct E1 as (rp & s2 & E1 & E2).
  unfold ret in E2. apply pair_equal_spec in E2. destruct E2 as [_ <-].
  apply bind_inv in E. destruct E as ([] & s3 & E3 & E).
  unfold modify in E. apply pair_equal_spec in E. destruct E as [_ <-].
  destruct (type_rows_consistent (Pg.TypeCodes (db s)) [] _ _ _ _ E1) as (Hc2 & _).
  { intros t c. cbn. rewrite lookup_empty. discriminate. }
  { intros t c. cbn. rewrite lookup_empty. discriminate. }
  { exact Hr. }
  { exact Hnd. }
  destruct (for_each_register _ _ _ E3 (types_upto_range _) Hc2) as (Hc3 & Hin & _).
  split; [exact Hc3|]. intros t Ht. cbn. apply Hin, types_upto_all, Ht.
Qed.

End WithEnv.

(** X11. After [setup_typemap] has run, the two arrays are inverse
    to each other on the types of this process: [storing_typemap]
    holds for every type a code within the arrays, and
    [loading_typemap] maps that code back to the type.  This is for
    a registry whose type names are distinct and a TypeCodes table,
    under the column names the code uses, whose codes are distinct
    and between 0 and 32767. *)
Theorem setup_typemap_round_trip (env : Env) (s s' : State) (t : Z) :
  List.NoDup (type_names (cs env)) ->
  PgFacts.standard (db s) ->
  type_map_was_loaded s = false ->
  Forall (fun p => 0 <= fst p < 2 ^ 15) (Pg.TypeCodes (db s)) ->
  List.NoDup (List.map fst (Pg.TypeCodes (db s))) ->
  setup_typemap env s = (Ok tt, s') ->
  0 <= t < getNumberOfClasses (cs env) ->
  0 <= storing_at s' t < TYPEMAP_SZ
  /\ loading_at (cs env) s' (storing_at s' t) = t
  /\ type_map_was_loaded s' = true.
Proof.
  intros Hnames Hstd Hld Hr Hnd E Ht.
  destruct (setup_typemap_consistent env Hnames s s' Hstd Hld Hr Hnd E) as (Hc & Hall).
  destruct (Hall t Ht) as (c & Hs). destruct (Hc t c Hs) as (Hin & Hl & _).
  unfold storing_at, loading_at. rewrite Hs. cbn. rewrite Hl. cbn.
  unfold in_typemap in Hin. apply andb_true_iff in Hin as [H1 H2].
  split; [lia|]. split; [reflexivity|].
  exact (IdFrame.setup_typemap_loaded env s s' E).
Qed.

(** A database written by a build whose code 7 was another type. *)
Definition older_db : Pg.DB :=
  Pg.set_TypeCodes (fun _ => [(7, "Foo"); (0, "Notype"); (3, "ConceptNode")]) Pg.empty_db.

Lemma setup_typemap_round_trip_witness :
  storing_at (snd (setup_typemap c_locale (init_state older_db 1))) 7 = 9
  /\ storing_at (snd (setup_typemap c_locale (init_state older_db 1))) 8 = 3
  /\ (0 <= storing_at (snd (setup_typemap c_locale (init_state older_db 1))) 7 < TYPEMAP_SZ
      /\ loading_at (cs c_locale) (snd (setup_typemap c_locale (init_state older_db 1)))
           (storing_at (snd (setup_typemap c_locale (init_state older_db 1))) 7) = 7
      /\ type_map_was_loaded (snd (setup_typemap c_locale (init_state older_db 1))) = true).
Proof.
  split; [vm_compute; reflexivity|]. split; [vm_compute; reflexivity|].
  apply (setup_typemap_round_trip c_locale (init_state older_db 1)
           (snd (setup_typemap c_locale (init_state older_db 1))) 7).
  - repeat (constructor; [cbn; intuition discriminate|]). constructor.
  - reflexivity.
  - reflexivity.
  - repeat constructor; vm_compute; congruence.
  - repeat (constructor; [cbn; intuition lia|]). constructor.
  - vm_compute. reflexivity.
  - vm_compute. split; congruence.
Defined.
End TypeMapProofs.

(** ** The statements around a valuation *)

Module ValuationProofs.
Import CLib Double Atomspace Storage Response Codec Examples.
Import StorageFacts QuietRuns.

(** The statements that read and write the two value tables
    without opening or closing a transaction and without adding a
    row to Valuations. *)
Definition inner (q : Pg.Stmt) : bool :=
  match q with
  | Pg.SelectValues _ | Pg.SelectValuations _ _
  | Pg.DeleteValues _ | Pg.DeleteValuations _ _ => true
  | Pg.Insert table _ => String.eqb table "Values"
  | _ => false
  end.

(** What [m] adds to the log satisfies [P]. *)
Definition Sends {A : Type} (P : Pg.Stmt -> bool) (m : M A) : Prop :=
  forall s, exists l, sent (snd (m s)) = (sent s ++ l)%list /\ forallb P l = true.

Section Sends.
Variable P : Pg.Stmt -> bool.

Lemma Sends_ret {A : Type} (a : A) : Sends P (ret a).
Proof. intros s. exists []. cbn. rewrite app_nil_r. auto. Qed.

Lemma Sends_fail {A : Type} (f : Failure) : Sends P (@fail A f).
Proof. intros s. exists []. cbn. rewrite app_nil_r. auto. Qed.

Lemma Sends_get : Sends P get.
Proof. intros s. exists []. cbn. rewrite app_nil_r. auto. Qed.

Lemma Sends_modify (f : State -> State) :
  (forall s, sent (f s) = sent s) -> Sends P (modify f).
Proof. intros H s. exists []. cbn. rewrite app_nil_r, H. auto. Qed.

Lemma Sends_bind {A B : Type} (m : M A) (k : A -> M B) :
  Sends P m -> (forall a, Sends P (k a)) -> Sends P (bind m k).
Proof.
  intros Hm Hk s. unfold bind. destruct (Hm s) as (l1 & E1 & F1).
  destruct (m s) as [[a|f] s1]; cbn in *; [|eauto].
  destruct (Hk a s1) as (l2 & E2 & F2). exists (l1 ++ l2)%list.
  rewrite E2, E1, app_assoc, forallb_app, F1, F2. auto.
Qed.

Lemma Sends_exec (q : Pg.Stmt) : P q = true -> Sends P (exec q).
Proof.
  intros H s. rewrite exec_eq. exists [q]. cbn. rewrite H. auto.
Qed.

Lemma Sends_read {A : Type} (field : option A) (what : string) : Sends P (read field what).
Proof. destruct field; [apply Sends_ret|apply Sends_fail]. Qed.

Lemma Sends_foreach_row {R : Type} (rs : option Pg.RecordSet) (cb : R -> Pg.Row -> R)
    (rp : R) : Sends P (foreach_row rs cb rp).
Proof. destruct rs; [apply Sends_ret|apply Sends_fail]. Qed.

End Sends.

Ltac sends_step :=
  lazymatch goal with
  | |- Sends _ (bind _ _) => apply Sends_bind; [|intros ?]
  | |- Sends _ (ret _) => apply Sends_ret
  | |- Sends _ (fail _) => apply Sends_fail
  | |- Sends _ get => apply Sends_get
  | |- Sends _ (modify _) => apply Sends_modify; intros; reflexivity
  | |- Sends _ (exec _) => apply Sends_exec; reflexivity
  | |- Sends _ (read _ _) => apply Sends_read
  | |- Sends _ (foreach_row _ _ _) => apply Sends_foreach_row
  | |- Sends _ (if ?b then _ else _) => destruct b
  | |- Sends _ (match ?x with _ => _ end) => destruct x
  end.

Ltac sends := repeat sends_step.

Section WithEnv.
Variable env : Env.

Lemma Sends_storeValue pap : Sends inner (storeValue env pap).
Proof.
  induction pap as [v|v|v IH] using Value_nested_ind; cbn [storeValue]; sends.
  match goal with |- Sends _ (?f _ _ v) =>
    assert (H : forall b str, Sends inner (f b str v)); [|apply H] end.
  induction IH as [|x v Hx _ IHv]; intros b str; sends.
  - exact Hx.
  - apply IHv.
Qed.

Lemma Sends_link_elements l : forall b str, Sends inner (link_elements env b str l).
Proof.
  induction l as [|h l IH]; intros b str; cbn [link_elements]; sends.
  - apply Sends_storeValue.
  - apply IH.
Qed.

Lemma Sends_link_to_string l : Sends inner (link_to_string env l).
Proof. unfold link_to_string. sends. apply Sends_link_elements. Qed.

Lemma Sends_each_vuid {A : Type} (body : Z -> M A) :
  (forall u, Sends inner (body u)) ->
  forall fuel p acc, Sends inner (each_vuid fuel p body acc).
Proof.
  intros H. induction fuel as [|fuel IH]; intros p acc; cbn [each_vuid]; sends.
  - apply H.
  - apply IH.
Qed.

Lemma Sends_deleteValue fuel : forall u, Sends inner (deleteValue env fuel u).
Proof.
  induction fuel as [|fuel IH]; intros u; cbn [deleteValue]; sends.
  apply Sends_each_vuid, IH.
Qed.

Lemma Sends_deleteValuation fuel key atom : Sends inner (deleteValuation env fuel key atom).
Proof.
  unfold deleteValuation. sends. apply Sends_each_vuid, Sends_deleteValue.
Qed.

Lemma Sends_run {A : Type} (m : M A) (s s' : State) (r : Result A) :
  Sends inner m -> m s = (r, s') ->
  exists l, sent s' = (sent s ++ l)%list /\ forallb inner l = true.
Proof. intros H E. destruct (H s) as (l & El & Fl). rewrite E in El. eauto. Qed.

(** The columns of the row for a value, in [storeValuation]. *)
Definition value_column (pap : Value) : M (string * string) :=
  match pap with
  | FloatValue fvp => ret ("floatvalue", float_to_string env fvp)
  | StringValue svp => ret ("stringvalue", string_to_string svp)
  | LinkValue lvp => bind (link_to_string env lvp) (fun lstr => ret ("linkvalue", lstr))
  end.

Lemma Sends_value_column pap : Sends inner (value_column pap).
Proof. destruct pap; cbn [value_column]; sends. apply Sends_link_to_string. Qed.

Lemma storeValuation_eq (fuel : nat) (key atom : Atom) (pap : Value) (s : State) :
  storeValuation env fuel key atom pap s
  = bind (exec Pg.Begin) (fun _ =>
      bind (deleteValuation env fuel key atom) (fun _ =>
        bind (value_column pap) (fun col =>
          bind (exec (Pg.Insert "Valuations"
                        [("key", to_string_u (getUUID (tlbuf s) key));
                         ("atom", to_string_u (getUUID (tlbuf s) atom));
                         ("type", to_string_u (value_type env pap mod 2 ^ 32));
                         col]))
               (fun _ => bind (exec Pg.Commit) (fun _ => ret tt))))) s.
Proof.
  unfold storeValuation. rewrite bind_get. apply bind_ext. intros _ s1.
  apply bind_ext. intros _ s2. destruct pap; cbn [value_column].
  - rewrite !bind_ret. reflexivity.
  - rewrite !bind_ret. reflexivity.
  - rewrite !bind_assoc. apply bind_ext. intros lstr s3. rewrite !bind_ret. reflexivity.
Qed.

End WithEnv.

(** X12. [storeValuation] sends BEGIN first.  When it returns it
    has sent, after the statements that delete the old valuation
    and store the elements of a link value, one INSERT into
    Valuations for the pair of identifiers the buffer holds for the
    key and the atom, and then COMMIT.  When it fails, it has sent
    neither: the transaction it opened is left open. *)
Theorem storeValuation_transaction (env : Env) (fuel : nat) (key atom : Atom)
    (pap : Value) (s : State) :
  exists l,
    sent (snd (storeValuation env fuel key atom pap s)) = (sent s ++ Pg.Begin :: l)%list
    /\ match fst (storeValuation env fuel key atom pap s) with
       | Ok _ =>
           exists l' cols,
             l = (l' ++ [Pg.Insert "Valuations" cols; Pg.Commit])%list
             /\ forallb inner l' = true
             /\ Pg.assoc "key" cols = Some (to_string_u (getUUID (tlbuf s) key))
             /\ Pg.assoc "atom" cols = Some (to_string_u (getUUID (tlbuf s) atom))
       | Err _ => forallb inner l = true
       end.
Proof.
  rewrite storeValuation_eq. rewrite bind_exec.
  set (s1 := with_db _ _ s). assert (S1 : sent s1 = (sent s ++ [Pg.Begin])%list) by reflexivity.
  destruct (deleteValuation env fuel key atom s1) as [[[]|f] s2] eqn:E2.
  - destruct (Sends_run _ _ _ _ (Sends_deleteValuation env fuel key atom) E2)
      as (l2 & S2 & F2).
    rewrite (bind_ok _ _ _ _ _ E2).
    destruct (value_column env pap s2) as [[col|f] s3] eqn:E3.
    + destruct (Sends_run _ _ _ _ (Sends_value_column env pap) E3) as (l3 & S3 & F3).
      rewrite (bind_ok _ _ _ _ _ E3). rewrite !bind_exec. cbn [ret fst snd sent with_db].
      exists ((l2 ++ l3) ++ [Pg.Insert "Valuations"
                               [("key", to_string_u (getUUID (tlbuf s) key));
                                ("atom", to_string_u (getUUID (tlbuf s) atom));
                                ("type", to_string_u (value_type env pap mod 2 ^ 32));
                                col]; Pg.Commit])%list.
      split.
      * rewrite S3, S2, S1, <- !app_assoc. reflexivity.
      * eexists _, _. split; [reflexivity|]. rewrite forallb_app, F2, F3.
        repeat split.
    + destruct (Sends_run _ _ _ _ (Sends_value_column env pap) E3) as (l3 & S3 & F3).
      rewrite (bind_err _ _ _ _ _ E3). cbn [fst snd]. exists (l2 ++ l3)%list. split.
      * rewrite S3, S2, S1, <- !app_assoc. reflexivity.
      * rewrite forallb_app, F2, F3. reflexivity.
  - destruct (Sends_run _ _ _ _ (Sends_deleteValuation env fuel key atom) E2)
      as (l2 & S2 & F2).
    rewrite (bind_err _ _ _ _ _ E2). cbn [fst snd]. exists l2. split.
    + rewrite S2, S1, <- !app_assoc. reflexivity.
    + exact F2.
Qed.

(** X13. Deleting a valuation that is not there: when the
    Valuations table, under the column names the code uses, has no
    row for the pair, [deleteValuation] sends its SELECT and nothing
    else, leaves the database as it found it and returns normally.
    The code of link values is taken to be other than 0, the value
    [vtype] is given before the row is looked for. *)
Theorem deleteValuation_absent (env : Env) (fuel : nat) (key atom : Atom) (s : State) :
  LINK_VALUE (cs env) <> 0 ->
  PgFacts.standard (db s) ->
  Pg.Valuations (db s) !! (getUUID (tlbuf s) key, getUUID (tlbuf s) atom) = None ->
  deleteValuation env fuel key atom s
  = (Ok tt, with_db (db s)
              (sent s ++ [Pg.SelectValuations (getUUID (tlbuf s) key)
                                              (getUUID (tlbuf s) atom)]) s).
Proof.
  intros Hl Hstd Hnone. unfold deleteValuation. rewrite bind_get, bind_exec.
  rewrite (PgFacts.exec_standard (Pg.SelectValuations _ _) _ Hstd eq_refl).
  cbn [Pg.exec_std fst snd]. rewrite Hnone. cbn [foreach_row fold_left]. rewrite bind_ret.
  cbn [vtype set_value_fields read]. rewrite bind_ret.
  rewrite (proj2 (Z.eqb_neq 0 (LINK_VALUE (cs env)))) by congruence.
  rewrite bind_ret. reflexivity.
Qed.

Lemma deleteValuation_absent_witness :
  deleteValuation c_locale 1 (Node 8 "key") (Node 8 "a") fresh
  = (Ok tt, with_db (db fresh) (sent fresh ++ [Pg.SelectValuations 0 0]) fresh).
Proof.
  apply (deleteValuation_absent c_locale 1 (Node 8 "key") (Node 8 "a") fresh).
  - vm_compute. discriminate.
  - reflexivity.
  - reflexivity.
Defined.
End ValuationProofs.

(** ** Identifiers handed out after [init] *)

Module InitProofs.
Import CLib Double Atomspace Storage Response Codec TypeMap IdCache AtomStore Examples.
Import StorageFacts CLibProofs Decode PgFacts.



(** The largest key of a table, 0 for a table without rows. *)
Definition max_key {V : Type} (m : gmap Z V) : Z :=
  default 0 (Pg.max_of (List.map fst (map_to_list m))).



Lemma max_key_empty {V : Type} : max_key (∅ : gmap Z V) = 0.
Proof. unfold max_key. rewrite map_to_list_empty. reflexivity. Qed.









(** The URIs that [init] takes. *)
Definition known_uri (uri : string) : bool :=
  String.prefix "postgres" uri || String.prefix "odbc" uri || String.prefix "/" uri.

Lemma init_unknown_uri (uri : string) (up : bool) (s : State) :
  known_uri uri = false -> init uri up s = (Err (IOException "Unknown URI '%s'"), s).
Proof.
  unfold known_uri, init. intros H.
  apply orb_false_iff in H as [H H3]. apply orb_false_iff in H as [H1 H2].
  rewrite H2. destruct uri as [|c r]; [reflexivity|].
  destruct c as [[] [] [] [] [] [] [] []];
    first [rewrite H1; reflexivity|cbn in H3; destruct r; discriminate H3].
Qed.




End InitProofs.

(** ** The caches that [get_ids] fills *)

Module GetIdsProofs.
Import CLib Double Atomspace Storage Response Codec TypeMap IdCache AtomStore Examples.
Import StorageFacts CLibProofs Decode PgFacts InitProofs.











End GetIdsProofs.

(** ** Tables made by [create_tables], tables emptied by [kill_data] *)

Module TableProofs.
Import CLib Double Atomspace Storage Response Codec TypeMap IdCache AtomStore Examples.
Import AtomFacts StorageFacts Frame QuietRuns IdFrame PgFacts PgRows HeightProofs StoreOnce.

(** *** [create_tables] *)

Definition created_atom_columns : list string :=
  ["uuid"; "space"; "type"; "type_tv"; "stv_mean"; "stv_confidence";
   "stv_count"; "height"; "name"; "outgoing"].

(** The statements of [create_tables]. *)
Definition create_stmts : list Pg.Stmt :=
  [Pg.CreateTable "Spaces" ["space"; "parent"];
   Pg.InsertRow "Spaces" ["0"; "0"];
   Pg.InsertRow "Spaces" ["1"; "1"];
   Pg.CreateTable "Atoms" created_atom_columns;
   Pg.CreateTable "Valuations"
     ["key"; "atom"; "type"; "floatvalue"; "stringvalue"; "linkvalue"];
   Pg.CreateIndex "Valuations" "atom";
   Pg.CreateTable "Values" ["vuid"; "type"; "floatvalue"; "stringvalue"; "linkvalue"];
   Pg.CreateTable "TypeCodes" ["type"; "typename"]].

(** The five tables as [create_tables] declares them, with the two
    root spaces. *)
Definition created_db : Pg.DB :=
  {| Pg.Spaces := {[ 0 := 0; 1 := 1 ]}; Pg.Atoms := ∅; Pg.Valuations := ∅;
     Pg.Values := ∅; Pg.TypeCodes := [];
     Pg.Columns :=
       [("TypeCodes", ["type"; "typename"]);
        ("Values", ["vuid"; "type"; "floatvalue"; "stringvalue"; "linkvalue"]);
        ("Valuations", ["key"; "atom"; "type"; "floatvalue"; "stringvalue"; "linkvalue"]);
        ("Atoms", created_atom_columns);
        ("Spaces", ["space"; "parent"])] |}.

Lemma create_tables_run (s : State) :
  exists s',
    create_tables s = (Ok tt, s')
    /\ db s' = replay create_stmts (db s)
    /\ sent s' = (sent s ++ create_stmts)%list
    /\ tlbuf s' = tlbuf s /\ local_id_cache s' = local_id_cache s
    /\ id_create_cache s' = id_create_cache s
    /\ type_map_was_loaded s' = false.
Proof.
  unfold create_tables. rewrite !bind_exec. unfold modify. eexists. split; [reflexivity|].
  cbn [modify snd db sent tlbuf local_id_cache id_create_cache type_map_was_loaded
       with_typemap with_db].
  rewrite <- !app_assoc. repeat split.
Qed.

Lemma replay_create_stmts (d : Pg.DB) :
  Pg.Columns d = [] -> replay create_stmts d = created_db.
Proof.
  destruct d as [sp a vn v tc co]. cbn [Pg.Columns]. intros ->.
  vm_compute. reflexivity.
Qed.

(** The table of atoms has no row and is declared as
    [create_tables] declares it. *)
Definition as_created (d : Pg.DB) : Prop :=
  Pg.table_columns "Atoms" (Pg.Columns d) = Some created_atom_columns
  /\ Pg.Atoms d = ∅.

Lemma as_created_kept (P : Atom -> Prop) (t : TLB) (q : Pg.Stmt) (d : Pg.DB) :
  written P t q -> as_created d -> as_created (snd (Pg.exec q d)).
Proof.
  intros [Hp Hq] [Hc Ha]. split.
  - rewrite exec_plain_columns by exact Hp. exact Hc.
  - destruct (is_atoms_insert q) eqn:E.
    + destruct (Hq eq_refl) as (cols & a & u & -> & _ & _ & _ & _ & Hin).
      rewrite (insert_undeclared "Atoms" cols d created_atom_columns Pg.atom_columns
                 "tv_type" Hc eq_refl Hin eq_refl).
      exact Ha.
    + apply exec_no_atoms; assumption.
Qed.

(** X16. Atoms cannot be stored into tables made by
    [create_tables]: it declares the fourth column of Atoms as
    [type_tv], while every INSERT and UPDATE of
    [do_store_single_atom] names it [tv_type], so the server
    refuses each of them.  Whatever atom is stored afterwards, by
    however many calls, the table has no row; and the storage does
    not notice, a store of a node returns normally (the witness runs
    one). *)
Theorem create_tables_then_store (env : Env) (fuel : nat) (h : Atom) (s : State) :
  Pg.Columns (db s) = [] -> height h < 2 ^ 31 ->
  fst (create_tables s) = Ok tt
  /\ db (snd (create_tables s)) = created_db
  /\ forall s1,
       as_created (db s1) ->
       as_created (db (snd (do_store_atom env fuel h s1))).
Proof.
  intros Hc Hh. destruct (create_tables_run s) as (s' & E & Hd & _).
  rewrite E. cbn [fst snd]. split; [reflexivity|].
  split; [rewrite Hd; apply replay_create_stmts, Hc|].
  intros s1 H1. destruct (Run_do_store_atom env fuel h Hh s1 I) as [G _].
  apply (Grows_keeps as_created (written (upto h)) s1); [|exact G|exact H1].
  intros t q d. apply as_created_kept.
Qed.

Lemma create_tables_then_store_witness :
  fst (do_store_atom c_locale 1 (Node 8 "a")
         (snd (create_tables (init_state Pg.blank_db 1)))) = Ok 0
  /\ 1 ∈ local_id_cache (snd (do_store_atom c_locale 1 (Node 8 "a")
                                (snd (create_tables (init_state Pg.blank_db 1)))))
  /\ as_created (db (snd (create_tables (init_state Pg.blank_db 1))))
  /\ (fst (create_tables (init_state Pg.blank_db 1)) = Ok tt
      /\ db (snd (create_tables (init_state Pg.blank_db 1))) = created_db
      /\ forall s1,
           as_created (db s1) ->
           as_created (db (snd (do_store_atom c_locale 1 (Node 8 "a") s1)))).
Proof.
  split; [vm_compute; reflexivity|].
  split; [apply (bool_decide_unpack _); vm_compute; exact I|].
  split; [split; vm_compute; reflexivity|].
  apply (create_tables_then_store c_locale 1 (Node 8 "a") (init_state Pg.blank_db 1)).
  - reflexivity.
  - vm_compute. reflexivity.
Defined.

(** *** [kill_data] *)

Definition kill_stmts : list Pg.Stmt :=
  [Pg.DeleteFrom "Valuations"; Pg.DeleteFrom "Values"; Pg.DeleteFrom "Atoms";
   Pg.DeleteFrom "Spaces"; Pg.InsertRow "Spaces" ["0"; "0"];
   Pg.InsertRow "Spaces" ["1"; "1"]].

Lemma kill_data_run (s : State) :
  exists s',
    kill_data s = (Ok tt, s')
    /\ db s' = replay kill_stmts (db s)
    /\ sent s' = (sent s ++ kill_stmts)%list
    /\ tlbuf s' = tlbuf s /\ local_id_cache s' = local_id_cache s
    /\ id_create_cache s' = id_create_cache s
    /\ table_id_cache s' = table_id_cache s
    /\ local_id_cache_is_inited s' = local_id_cache_is_inited s
    /\ next_valid s' = next_valid s.
Proof.
  unfold kill_data. rewrite !bind_exec. unfold ret. eexists. split; [reflexivity|].
  cbn [db sent tlbuf local_id_cache id_create_cache table_id_cache
       local_id_cache_is_inited next_valid with_db].
  rewrite <- !app_assoc. repeat split.
Qed.

Lemma replay_kill_stmts (d : Pg.DB) :
  standard d ->
  replay kill_stmts d = Pg.set_TypeCodes (fun _ => Pg.TypeCodes d) Pg.empty_db.
Proof.
  destruct d as [sp a vn v tc co]. unfold standard. cbn [Pg.Columns]. intros ->.
  vm_compute. reflexivity.
Qed.

Section WithEnv.
Variable env : Env.

Lemma Quiet_update_tail (h : Atom) (aheight uuid : Z) :
  Quiet (update_tail env h aheight uuid).
Proof.
  unfold update_tail. quiet.
  - apply Quiet_tv_columns.
  - apply Quiet_execute_with_retry; reflexivity.
  - apply Quiet_add_id_to_cache.
Qed.

(** A store of an atom whose identifier is in [local_id_cache]
    sends no INSERT into Atoms and creates no table. *)
Lemma store_again_quiet (h : Atom) (aheight u : Z) (s : State) :
  tlb_find h (tlb_bindings (tlbuf s)) = Some u -> u ∈ local_id_cache s ->
  Grows quiet s (snd (do_store_single_atom env h aheight s)).
Proof.
  intros Hb Hc. rewrite do_store_single_atom_eq.
  pose proof (Quiet_setup_typemap env s) as G1.
  destruct (setup_typemap env s) as [[[]|f] sa] eqn:E; cbn [snd] in G1.
  - pose proof (Keeps_same_ids _ _ _ _ (Keeps_setup_typemap env) E) as (Ht & Hl & _).
    rewrite (bind_ok _ _ _ _ _ E).
    rewrite <- Ht in Hb. rewrite (bind_ok _ _ _ _ _ (tlb_addAtom_bound h _ u sa Hb)).
    rewrite store_tail_update by (cbn; rewrite Hl; exact Hc).
    eapply Grows_trans; [intros; assumption|exact G1|].
    eapply Grows_trans; [intros; assumption| |apply Quiet_update_tail].
    apply Grows_same; reflexivity.
  - rewrite (bind_err _ _ _ _ _ E). exact G1.
Qed.
End WithEnv.

(** X17. [kill_data] empties the four tables of rows and puts the
    two root spaces back, but leaves the caches of the storage
    object as they were.  So an atom that this object has stored
    before is not written again by a store after [kill_data]: its
    identifier is still in [local_id_cache], the store sends an
    UPDATE of a row that is gone, and the table of atoms stays
    without rows. *)
Theorem kill_data_keeps_caches (env : Env) (h : Atom) (aheight u : Z) (s : State) :
  standard (db s) ->
  tlb_find h (tlb_bindings (tlbuf s)) = Some u -> u ∈ local_id_cache s ->
  exists s',
    kill_data s = (Ok tt, s')
    /\ db s' = Pg.set_TypeCodes (fun _ => Pg.TypeCodes (db s)) Pg.empty_db
    /\ local_id_cache s' = local_id_cache s /\ tlbuf s' = tlbuf s
    /\ Pg.Atoms (db (snd (do_store_single_atom env h aheight s'))) = ∅.
Proof.
  intros Hstd Hb Hc.
  destruct (kill_data_run s) as (s1 & E & Hd & _ & Ht & Hl & _).
  exists s1. split; [exact E|].
  assert (Hd1 : db s1 = Pg.set_TypeCodes (fun _ => Pg.TypeCodes (db s)) Pg.empty_db)
    by (rewrite Hd; apply replay_kill_stmts, Hstd).
  split; [exact Hd1|]. split; [exact Hl|]. split; [exact Ht|].
  rewrite <- Ht in Hb. rewrite <- Hl in Hc.
  pose proof (store_again_quiet env h aheight u s1 Hb Hc) as G.
  apply (Grows_keeps (fun d => Pg.Atoms d = ∅) quiet s1); [|exact G|rewrite Hd1; reflexivity].
  intros t q d [Hq Hp]. apply exec_no_atoms; assumption.
Qed.

Lemma kill_data_keeps_caches_witness :
  is_Some (Pg.Atoms (db (snd (do_store_single_atom c_locale (Node 8 "a") 0 fresh))) !! 1)
  /\ exists s',
      kill_data (snd (do_store_single_atom c_locale (Node 8 "a") 0 fresh)) = (Ok tt, s')
      /\ db s' = Pg.set_TypeCodes
                   (fun _ => Pg.TypeCodes
                               (db (snd (do_store_single_atom c_locale (Node 8 "a") 0 fresh))))
                   Pg.empty_db
      /\ local_id_cache s'
         = local_id_cache (snd (do_store_single_atom c_locale (Node 8 "a") 0 fresh))
      /\ tlbuf s' = tlbuf (snd (do_store_single_atom c_locale (Node 8 "a") 0 fresh))
      /\ Pg.Atoms (db (snd (do_store_single_atom c_locale (Node 8 "a") 0 s'))) = ∅.
Proof.
  split; [apply (bool_decide_unpack _); vm_compute; exact I|].
  apply (kill_data_keeps_caches c_locale (Node 8 "a") 0 1
           (snd (do_store_single_atom c_locale (Node 8 "a") 0 fresh))).
  - vm_compute. reflexivity.
  - vm_compute. reflexivity.
  - apply (bool_decide_unpack _). vm_compute. exact I.
Defined.
End TableProofs.

(** ** A vector of strings, stored and fetched *)

Module ValueRoundTrip.
Import CLib Double Atomspace Storage Response Codec Examples.
Import StorageFacts CLibProofs Decode DecodeStrings PgFacts ValueStore.

(** *** Numbers as the server reads them *)




(** *** Strings that can be written bare in an array literal *)






(** The characters read so far in an element without quotes, last
    first. *)
Fixpoint read_so_far (e : string) (acc : list (ascii * bool)) : list (ascii * bool) :=
  match e with
  | EmptyString => acc
  | String c r => read_so_far r ((c, false) :: acc)
  end.





Lemma read_so_far_unescaped (e : string) :
  forall acc, forallb (fun p => negb (snd p)) acc = true ->
              forallb (fun p : ascii * bool => negb (snd p)) (read_so_far e acc) = true.
Proof.
  induction e as [|c r IH]; intros acc Hacc; cbn [read_so_far]; [exact Hacc|].
  apply IH. cbn. exact Hacc.
Qed.










Section WithEnv.
Variable env : Env.



End WithEnv.


End ValueRoundTrip.

(** ** One call in insert mode for each identifier *)

Module ThreadsProofs.
Import CLib Double Atomspace Storage Response Codec TypeMap IdCache AtomStore Threads Examples.
Import AtomFacts StorageFacts Frame IdFrame StepFrames CLibProofs StoreOnce.

(** *** The statements and the calls of an identifier *)





(** The calls that got past [maybe_create_id], of all the threads. *)
Definition calls_of (c : Config) : list Call :=
  List.concat (List.map t_calls (threads c)).







(** *** Identifiers and their text *)



(** *** Sums over the threads *)

Definition over (g : Thread -> nat) (ts : list Thread) : nat := list_sum (List.map g ts).

Lemma over_cons (g : Thread -> nat) (x : Thread) (ts : list Thread) :
  over g (x :: ts) = (g x + over g ts)%nat.
Proof. reflexivity. Qed.




Lemma over_zero (g : Thread -> nat) (ts : list Thread) :
  (forall i t, ts !! i = Some t -> g t = 0%nat) -> over g ts = 0%nat.
Proof.
  induction ts as [|x ts IH]; intros H; [reflexivity|]. rewrite over_cons.
  rewrite (H 0%nat x eq_refl), IH; [reflexivity|].
  intros i t Hi. apply (H (S i) t Hi).
Qed.

(** The measure of a list of calls: the sum of [f] over it. *)
Definition sum_of (f : Call -> nat) (l : list Call) : nat := list_sum (List.map f l).

Definition one_if (P : Call -> bool) (k : Call) : nat := if P k then 1%nat else 0%nat.

Definition sent_if (P : Call -> bool) (k : Call) : nat := if P k then c_sent k else 0%nat.


Lemma sum_of_cons f k l : sum_of f (k :: l) = (f k + sum_of f l)%nat.
Proof. reflexivity. Qed.





Lemma sum_of_pos (f : Call -> nat) (l : list Call) :
  (0 < sum_of f l)%nat -> exists k, In k l /\ (0 < f k)%nat.
Proof.
  induction l as [|k l IH]; [cbn; lia|]. rewrite sum_of_cons. intros H.
  destruct (f k) eqn:E.
  - destruct (IH H) as (k' & Hin & Hk). exists k'. split; [right; exact Hin|exact Hk].
  - exists k. split; [left; reflexivity|lia].
Qed.


(** *** Where a thread is *)














(** *** The columns *)


Section WithEnv.
Variable env : Env.



(** *** Atoms that the buffer knows *)




End WithEnv.

(** *** One step of a thread *)











Section Steps.
Variable env : Env.

End Steps.
(** *** Counting the calls *)

Definition count (P : Call -> bool) (c : Config) : nat := sum_of (one_if P) (calls_of c).








Lemma total_ge (P : Call -> bool) (l : list Call) :
  Forall (fun k => (1 <= c_sent k)%nat) l ->
  (sum_of (one_if P) l <= sum_of (sent_if P) l)%nat.
Proof.
  induction 1 as [|k l Hk _ IH]; [cbn; lia|]. rewrite !sum_of_cons.
  unfold sent_if at 1, one_if at 1. destruct (P k); lia.
Qed.



(** *** The statement of a call *)




(** *** What every interleaving keeps *)

Section Invariant.
Variable env : Env.
Variable progs : list (list (Atom * Z)).
Variable s0 : State.
Variable u : Z.
Hypothesis Hu : 0 <= u.
















End Invariant.






(** *** A thread that runs alone *)

Definition alone (t : Thread) (s : State) (o : option nat) : Config :=
  {| shared := s; create_owner := o; threads := [t] |}.

(** The calls of a list made one after the other, up to the first
    that does not return. *)
Fixpoint store_each (env : Env) (calls : list (Atom * Z)) : M unit :=
  match calls with
  | [] => ret tt
  | (h, aheight) :: rest =>
      bind (do_store_single_atom env h aheight) (fun _ => store_each env rest)
  end.

Section Alone.
Variable env : Env.

Definition Reaches (t : Thread) (s : State) (o : option nat)
    (t' : Thread) (s' : State) (o' : option nat) : Prop :=
  exists n, run env (repeat 0%nat n) (alone t s o) = alone t' s' o'.

Lemma reaches_refl t s o : Reaches t s o t s o.
Proof. exists 0%nat. reflexivity. Qed.

Lemma reaches_step t s o t1 s1 o1 t' s' o' :
  thread_step env 0 o t s = Some (t1, s1, o1) ->
  Reaches t1 s1 o1 t' s' o' -> Reaches t s o t' s' o'.
Proof.
  intros H (n & Hn). exists (S n). cbn [repeat run fold_left].
  unfold step at 2. cbn [threads alone shared create_owner].
  change ([t] !! 0%nat) with (Some t). cbv iota. rewrite H. exact Hn.
Qed.

Lemma reaches_trans t s o t1 s1 o1 t' s' o' :
  Reaches t s o t1 s1 o1 -> Reaches t1 s1 o1 t' s' o' -> Reaches t s o t' s' o'.
Proof.
  intros (n & Hn) (m & Hm). exists (n + m)%nat.
  rewrite repeat_app. unfold run in *. rewrite fold_left_app, Hn. exact Hm.
Qed.

(** The thread has left its call without returning from it. *)
Definition stuck (t : Thread) (o : option nat) (f : Failure) : Prop :=
  (t_pc t = Blocked /\ f = Deadlock /\ o = Some 0%nat)
  \/ (t_pc t = Thrown f /\ o = None).

Lemma solo_call (t : Thread) (s : State) (h : Atom) (aheight : Z)
    (rest : list (Atom * Z)) :
  t_pc t = Idle -> t_todo t = (h, aheight) :: rest ->
  exists t' o',
    Reaches t s None t' (snd (do_store_single_atom env h aheight s)) o'
    /\ match fst (do_store_single_atom env h aheight s) with
       | Ok _ => t_pc t' = Idle /\ t_todo t' = rest /\ o' = None
       | Err f => stuck t' o' f
       end.
Proof.
  intros Epc Et. rewrite do_store_single_atom_eq.
  (* setup_typemap *)
  destruct (setup_typemap env s) as [[[]|f] s1] eqn:E1.
  2:{ rewrite (bind_err _ _ _ _ _ E1). cbn [fst snd]. eexists _, _. split.
      - eapply reaches_step; [|apply reaches_refl].
        unfold thread_step. rewrite Epc, Et, E1. reflexivity.
      - right. split; reflexivity. }
  rewrite (bind_ok _ _ _ _ _ E1).
  (* addAtom *)
  destruct (tlb_addAtom_ok h INVALID_UUID s1) as (uuid & s2 & E2 & _).
  rewrite (bind_ok _ _ _ _ _ E2).
  set (t1 := at_pc AddAtom (begin h aheight rest t)).
  set (t2 := at_pc LockCreate (with_uuid uuid t1)).
  set (t3 := at_pc Examine t2).
  assert (R3 : Reaches t s None t3 s2 (Some 0%nat)).
  { eapply reaches_step; [unfold thread_step; rewrite Epc, Et, E1; reflexivity|].
    eapply reaches_step; [unfold thread_step; cbn [t_pc t_atom at_pc begin t1];
                          rewrite E2; reflexivity|].
    eapply reaches_step; [reflexivity|]. apply reaches_refl. }
  unfold store_tail.
  (* maybe_create_id *)
  destruct (maybe_create_id uuid s2) as [[owns|f] s3] eqn:E3.
  2:{ rewrite (bind_err _ _ _ _ _ E3). cbn [fst snd]. eexists _, _. split.
      - eapply reaches_trans; [exact R3|].
        eapply reaches_step; [|apply reaches_refl].
        unfold thread_step. cbn [t_pc t_uuid at_pc with_uuid t3 t2]. rewrite E3.
        reflexivity.
      - left. split; [reflexivity|]. split; [|reflexivity].
        unfold maybe_create_id in E3. rewrite bind_get in E3.
        destruct (bool_decide _); [discriminate|].
        destruct (bool_decide _); [|discriminate]. injection E3 as <- _. reflexivity. }
  rewrite (bind_ok _ _ _ _ _ E3). cbv zeta. rewrite bind_modify.
  set (cols0 := if negb owns then [] else STMT [] "uuid" (to_string_u uuid)).
  set (t4 := at_pc Count (with_mode (negb owns) cols0 t3)).
  set (o4 := if negb owns then None else Some 0%nat).
  set (s4 := count_store (aheight =? 0) (negb owns) s3).
  set (t5 := at_pc Columns t4).
  assert (R5 : Reaches t s None t5 s4 o4).
  { eapply reaches_trans; [exact R3|].
    eapply reaches_step; [unfold thread_step; cbn [t_pc t_uuid at_pc with_uuid t3 t2];
                          rewrite E3; reflexivity|].
    eapply reaches_step; [reflexivity|]. apply reaches_refl. }
  assert (Rel : forall x, t_update x = negb owns -> release x o4 = None).
  { intros x Hx. unfold release, o4. rewrite Hx. destruct (negb owns); reflexivity. }
  (* the columns of a first store *)
  destruct ((if negb owns then ret cols0
             else first_time_columns env cols0 h aheight) s4) as [[cols1|f] s5] eqn:E5.
  2:{ rewrite (bind_err _ _ _ _ _ E5). cbn [fst snd]. eexists _, _. split.
      - eapply reaches_trans; [exact R5|].
        eapply reaches_step; [|apply reaches_refl].
        unfold thread_step.
        cbn [t_pc t_update t_cols t_atom t_height at_pc with_mode with_uuid begin
             t5 t4 t3 t2 t1].
        rewrite E5. reflexivity.
      - right. split; [reflexivity|]. apply Rel. reflexivity. }
  rewrite (bind_ok _ _ _ _ _ E5).
  set (t6 := at_pc Truth (with_cols cols1 t5)).
  (* the columns of the truth value *)
  destruct (tv_columns env cols1 (getTruthValue env h) s5) as [[cols2|f] s6] eqn:E6.
  2:{ rewrite (bind_err _ _ _ _ _ E6). cbn [fst snd]. eexists _, _. split.
      - eapply reaches_trans; [exact R5|].
        eapply reaches_step.
        { unfold thread_step.
          cbn [t_pc t_update t_cols t_atom t_height at_pc with_mode with_uuid begin
               t5 t4 t3 t2 t1].
          rewrite E5. reflexivity. }
        eapply reaches_step; [|apply reaches_refl].
        unfold thread_step.
        cbn [t_pc t_update t_cols t_atom t_height at_pc with_cols with_mode with_uuid
             begin t6 t5 t4 t3 t2 t1].
        rewrite E6. reflexivity.
      - right. split; [reflexivity|]. apply Rel. reflexivity. }
  rewrite (bind_ok _ _ _ _ _ E6).
  set (t7 := at_pc Execute (with_cols cols2 t6)).
  assert (R7 : Reaches t s None t7 s6 o4).
  { eapply reaches_trans; [exact R5|].
    eapply reaches_step.
    { unfold thread_step.
      cbn [t_pc t_update t_cols t_atom t_height at_pc with_mode with_uuid begin
           t5 t4 t3 t2 t1].
      rewrite E5. reflexivity. }
    eapply reaches_step; [|apply reaches_refl].
    unfold thread_step.
    cbn [t_pc t_update t_cols t_atom t_height at_pc with_cols with_mode with_uuid
         begin t6 t5 t4 t3 t2 t1].
    rewrite E6. reflexivity. }
  assert (Est : statement t7 = if negb owns then Pg.UpdateAtoms cols2 (to_string_u uuid)
                               else Pg.Insert "Atoms" cols2) by reflexivity.
  set (qry := if negb owns then Pg.UpdateAtoms cols2 (to_string_u uuid)
              else Pg.Insert "Atoms" cols2) in *.
  (* the statement *)
  unfold execute_with_retry. rewrite bind_assoc, bind_exec.
  destruct (fst (Pg.exec qry (db s6))) as [rows|] eqn:E7.
  - rewrite bind_ret. unfold add_id_to_cache. rewrite bind_modify.
    cbn [modify fst snd]. eexists _, _. split.
    + eapply reaches_trans; [exact R7|].
      eapply reaches_step.
      { unfold thread_step. cbn [t_pc at_pc t7]. rewrite Est, exec_eq, E7. reflexivity. }
      eapply reaches_step; [reflexivity|].
      eapply reaches_step; [reflexivity|]. apply reaches_refl.
    + split; [reflexivity|]. split; [reflexivity|]. apply Rel. reflexivity.
  - set (s7 := with_db (snd (Pg.exec qry (db s6))) (sent s6 ++ [qry]) s6).
    rewrite bind_assoc.
    destruct (match getAtomTable env h with
              | Some at_ => store_atomtable_id at_
              | None => ret tt
              end s7) as [[[]|f] s8] eqn:E8.
    2:{ rewrite (bind_err _ _ _ _ _ E8). cbn [fst snd]. eexists _, _. split.
        - eapply reaches_trans; [exact R7|].
          eapply reaches_step.
          { unfold thread_step. cbn [t_pc at_pc t7]. rewrite Est, exec_eq, E7.
            reflexivity. }
          eapply reaches_step; [|apply reaches_refl].
          unfold thread_step.
          cbn [t_pc t_atom at_pc executed with_cols with_mode with_uuid begin
               t7 t6 t5 t4 t3 t2 t1].
          fold s7. rewrite E8. reflexivity.
        - right. split; [reflexivity|]. apply Rel. reflexivity. }
    rewrite (bind_ok _ _ _ _ _ E8). rewrite bind_assoc, bind_exec, bind_ret.
    unfold add_id_to_cache. rewrite bind_modify. cbn [modify fst snd].
    eexists _, _. split.
    + eapply reaches_trans; [exact R7|].
      eapply reaches_step.
      { unfold thread_step. cbn [t_pc at_pc t7]. rewrite Est, exec_eq, E7. reflexivity. }
      eapply reaches_step.
      { unfold thread_step.
        cbn [t_pc t_atom at_pc executed with_cols with_mode with_uuid begin
             t7 t6 t5 t4 t3 t2 t1].
        fold s7. rewrite E8. reflexivity. }
      eapply reaches_step.
      { unfold thread_step. cbn [t_pc at_pc]. rewrite exec_eq. reflexivity. }
      eapply reaches_step; [reflexivity|].
      eapply reaches_step; [reflexivity|]. apply reaches_refl.
    + split; [reflexivity|]. split; [reflexivity|]. apply Rel. reflexivity.
Qed.

Lemma solo_calls (calls : list (Atom * Z)) : forall (t : Thread) (s : State),
  t_pc t = Idle -> t_todo t = calls ->
  exists t' o',
    Reaches t s None t' (snd (store_each env calls s)) o'
    /\ match fst (store_each env calls s) with
       | Ok _ => t_pc t' = Idle /\ t_todo t' = [] /\ o' = None
       | Err f => stuck t' o' f
       end.
Proof.
  induction calls as [|[h aheight] rest IH]; intros t s Epc Et.
  - exists t, None. split; [apply reaches_refl|]. cbn. auto.
  - destruct (solo_call t s h aheight rest Epc Et) as (t1 & o1 & R1 & H1).
    cbn [store_each]. unfold bind.
    destruct (do_store_single_atom env h aheight s) as [[[]|f] s1]; cbn [fst snd] in *.
    + destruct H1 as (P1 & T1 & ->).
      destruct (IH t1 s1 P1 T1) as (t' & o' & R2 & H2).
      exists t', o'. split; [eapply reaches_trans; eassumption|exact H2].
    + exists t1, o1. split; [exact R1|exact H1].
Qed.

End Alone.

(** X19. A thread of the interleaving that runs alone does what
    [do_store_single_atom] does: given the processor often enough,
    it leaves the storage object in the state in which the calls of
    its list, made one after the other up to the first that does
    not return, leave it; it has returned from its last call
    exactly when all of them return; and [id_create_mutex] is free
    at the end unless a call was left in the loop of
    [maybe_create_id]. *)
Theorem thread_alone_stores_each (env : Env) (calls : list (Atom * Z)) (s : State) :
  exists n,
    shared (run env (repeat 0%nat n) (start [calls] s)) = snd (store_each env calls s)
    /\ (all_returned (run env (repeat 0%nat n) (start [calls] s)) = true
        <-> fst (store_each env calls s) = Ok tt)
    /\ (create_owner (run env (repeat 0%nat n) (start [calls] s)) = None
        \/ fst (store_each env calls s) = Err Deadlock).
Proof.
  destruct (solo_calls env calls (thread_of calls) s eq_refl eq_refl)
    as (t' & o' & (n & Hn) & H).
  exists n. change (start [calls] s) with (alone (thread_of calls) s None). rewrite Hn.
  cbn [shared create_owner alone]. split; [reflexivity|].
  unfold all_returned. cbn [threads alone forallb]. rewrite andb_true_r. unfold returned.
  destruct (fst (store_each env calls s)) as [[]|f].
  - destruct H as (-> & -> & ->). split; [split; reflexivity|left; reflexivity].
  - split.
    + split; [|discriminate]. destruct H as [[-> _]|[-> _]]; discriminate.
    + destruct H as [(_ & -> & _)|[_ ->]]; [right|left]; reflexivity.
Qed.

End ThreadsProofs.
